(** * fast_shared_mutex: a writer-preferring reader-writer lock

    A shallow embedding of [include/shared_mutex.h], of the platform parking
    primitives [timed_atomic_uint32_t] (Linux futex / Windows WaitOnAddress)
    and of the guarded wrapper [include/lock_wrapper.h].

    Modelling choices.
    - A [std::uint32_t] is a [Z] in [0, 2^32); every read-modify-write wraps
      with [wrap].
    - Every member function is a program in a small free monad [prog] whose
      nodes are the atomic operations the C++ code performs on its two
      atomics, in program order.
    - The unbounded loops of [atomic_wait_until_zero] carry a fuel argument;
      a program that exhausts it ends in [None] and stands for a thread that
      is still inside the loop.
    - Concurrency comes in three forms.  One call is run under arbitrary
      interference ([exec]): every operation finds the atomics as the other
      threads left them.  A pool of threads interleaves its atomic
      operations ([next_state]), each acting on the newest values, as
      sequentially consistent orders would have it.  And [weak_next]
      follows the [std::memory_order] arguments of the source: a
      read-modify-write acts on the newest value, a load may be handed any
      value that its thread has not yet seen replaced.  A park ([wait]) may
      return at any time, which covers notifications, value changes and
      spurious wake-ups.
    - The platform calls of the parking primitive and the 64-bit
      arithmetic of [std::chrono] are part of the model: a conversion that
      overflows has no result.
    - The proofs follow every thread of the pool through the program points
      of the member it called ([code_at], [next]); [code_at_entry] and
      [code_at_next] show that the points are the bodies above.

    The definitions come first, the proofs after them. *)

From Stdlib Require Import ZArith Lia Bool List.
From stdpp Require Import base option list gmap.

Local Open Scope Z_scope.

(** ** 32-bit unsigned arithmetic *)

Definition uint32_modulus : Z := 2 ^ 32.

Definition wrap (x : Z) : Z := x mod uint32_modulus.

Definition is_uint32 (x : Z) : Prop := 0 <= x < uint32_modulus.

(** ** Programs over atomic operations *)

Inductive prog (Op A : Type) : Type :=
| Ret (a : A)
| Do (o : Op) (k : Z -> prog Op A).

Arguments Ret {Op A} a.
Arguments Do {Op A} o k.

Fixpoint prog_bind {Op A B} (f : A -> prog Op B) (p : prog Op A) : prog Op B :=
  match p with
  | Ret a => f a
  | Do o k => Do o (fun v => prog_bind f (k v))
  end.

#[global] Instance prog_ret Op : MRet (prog Op) := fun A a => Ret a.
#[global] Instance prog_mbind Op : MBind (prog Op) := fun A B f p => prog_bind f p.

(** The two atomics of a [shared_mutex] (lines 150 and 155). *)
Inductive atom : Set := writing_num_ | holding_num_.

#[global] Instance atom_eq_dec : EqDecision atom.
Proof. solve_decision. Defined.

(** The member functions of [AtomicUInt32] the mutex calls.  [wait_timeout]
    stands for both [wait_for] and [wait_until]. *)
Inductive atomic_op : Set :=
| fetch_add (a : atom) (arg : Z)
| fetch_sub (a : atom) (arg : Z)
| load (a : atom)
| compare_exchange_strong (a : atom) (expected desired : Z)
| wait (a : atom) (old : Z)
| wait_timeout (a : atom) (old : Z)
| notify_one (a : atom)
| notify_all (a : atom).

#[global] Instance atomic_op_eq_dec : EqDecision atomic_op.
Proof. solve_decision. Defined.

Abbreviation code := (prog atomic_op).

(** The values of the two atomics. *)
Record mem : Set := Mem { writing_num : Z; holding_num : Z }.

#[global] Instance mem_eq_dec : EqDecision mem.
Proof. solve_decision. Defined.

Definition get (m : mem) (a : atom) : Z :=
  match a with writing_num_ => writing_num m | holding_num_ => holding_num m end.

Definition set (m : mem) (a : atom) (v : Z) : mem :=
  match a with
  | writing_num_ => Mem v (holding_num m)
  | holding_num_ => Mem (writing_num m) v
  end.

Definition mem_ok (m : mem) : Prop :=
  is_uint32 (writing_num m) /\ is_uint32 (holding_num m).

(** One atomic operation: the value it returns and the memory it leaves.
    [fetch_add], [fetch_sub] and [load] return the value read;
    [compare_exchange_strong] returns the value it leaves in its [expected]
    reference, which is the value read; a timed park returns 1 when the
    [wait_for] or [wait_until] of the atomic returns true and 0 when it
    returns false ([woken], the environment's choice); the other operations
    return nothing (0). *)
Definition perform (woken : bool) (o : atomic_op) (m : mem) : Z * mem :=
  match o with
  | fetch_add a d => (get m a, set m a (wrap (get m a + d)))
  | fetch_sub a d => (get m a, set m a (wrap (get m a - d)))
  | load a => (get m a, m)
  | compare_exchange_strong a expected desired =>
      (get m a, if get m a =? expected then set m a desired else m)
  | wait _ _ => (0, m)
  | wait_timeout _ _ => (if woken then 1 else 0, m)
  | notify_one _ => (0, m)
  | notify_all _ => (0, m)
  end.

(** What one atomic operation of a thread looks like from outside. *)
Record action : Set := Action {
  act_op : atomic_op;
  act_before : mem;
  act_after : mem
}.

(** Execution of one thread under arbitrary interference: the [i]-th atomic
    operation of the thread runs on the memory [env i], whatever the other
    threads made of it in between, and a timed park then is woken or not as
    [env i] says.  The result is the trace of the operations and the value
    returned. *)
Fixpoint exec {A} (p : code A) (env : nat -> bool * mem) : list action * A :=
  match p with
  | Ret a => ([], a)
  | Do o k =>
      let r := perform (env O).1 o (env O).2 in
      let following := exec (k r.1) (fun i => env (S i)) in
      (Action o (env O).2 r.2 :: following.1, following.2)
  end.

(** The memory the [i]-th operation runs on, and the environment from the
    [n]-th operation on. *)
Definition seen (env : nat -> bool * mem) (i : nat) : mem := (env i).2.

Definition later (n : nat) (env : nat -> bool * mem) : nat -> bool * mem :=
  fun i => env (n + i)%nat.

(** Execution of one thread alone: nobody wakes a timed park. *)
Fixpoint run {A} (p : code A) (m : mem) : A * mem * list atomic_op :=
  match p with
  | Ret a => (a, m, [])
  | Do o k =>
      let '(r, m') := perform false o m in
      let '(a, m'', tr) := run (k r) m' in
      (a, m'', o :: tr)
  end.

(** The value returned and the memory left by a thread that runs alone. *)
Definition outcome {A} (p : code A) (m : mem) : A * mem := (run p m).1.

(** ** [slontia::internal::shared_mutex] *)

Module shared_mutex.

(** Line 160: [(1 << 31)]. *)
Definition k_writing_state : Z := Z.shiftl 1 31.

(** Lines 165-171.  [fn] returns a value loaded from [atom]. *)
Fixpoint atomic_wait_until_zero (fuel : nat) (fn : code Z) (atom : atom)
  : code (option unit) :=
  match fuel with
  | O => Ret None
  | S fuel' =>
      current_value ← fn;
      if 0 <? current_value
      then Do (wait atom current_value)
              (fun _ => atomic_wait_until_zero fuel' fn atom)
      else Ret (Some tt)
  end.

(** Line 102. *)
Definition increase_writing_num_ : code unit :=
  Do (fetch_add writing_num_ 1) (fun _ => Ret tt).

(** Lines 107-116. *)
Definition decrease_writing_num_ : code bool :=
  Do (fetch_sub writing_num_ 1) (fun prev =>
    if prev =? 1
    then Do (notify_all writing_num_) (fun _ => Ret true)
    else Ret false).

(** Lines 120-127. *)
Definition try_set_writing_state_to_holding_num_ : code Z :=
  Do (compare_exchange_strong holding_num_ 0 k_writing_state)
     (fun holding_num => Ret holding_num).

(** Lines 93-99; [&&] evaluates the load only after the decrement
    returned 1. *)
Definition unlock_shared : code unit :=
  Do (fetch_sub holding_num_ 1) (fun prev =>
    if prev =? 1
    then Do (load writing_num_) (fun writing_num =>
           if 0 <? writing_num
           then Do (notify_one holding_num_) (fun _ => Ret tt)
           else Ret tt)
    else Ret tt).

(** Lines 131-147. *)
Definition try_lock_shared_internal_ : code Z :=
  Do (load writing_num_) (fun writing_num =>
    if writing_num =? 0
    then Do (fetch_add holding_num_ 1) (fun _ =>
           Do (load writing_num_) (fun writing_num =>
             if 0 <? writing_num
             then unlock_shared;; Ret writing_num
             else Ret writing_num))
    else Ret writing_num).

(** Lines 39-46. *)
Definition lock (fuel : nat) : code (option unit) :=
  increase_writing_num_;;
  atomic_wait_until_zero fuel try_set_writing_state_to_holding_num_ holding_num_.

(** Lines 50-62. *)
Definition try_lock : code bool :=
  increase_writing_num_;;
  holding_num ← try_set_writing_state_to_holding_num_;
  if 0 <? holding_num
  then decrease_writing_num_;; Ret false
  else Ret true.

(** Lines 66-78. *)
Definition unlock : code unit :=
  Do (fetch_sub holding_num_ k_writing_state) (fun _ =>
    notified ← decrease_writing_num_;
    if negb notified
    then Do (notify_one holding_num_) (fun _ => Ret tt)
    else Ret tt).

(** Lines 82-85. *)
Definition lock_shared (fuel : nat) : code (option unit) :=
  atomic_wait_until_zero fuel try_lock_shared_internal_ writing_num_.

(** Line 89. *)
Definition try_lock_shared : code bool :=
  writing_num ← try_lock_shared_internal_;
  Ret (writing_num =? 0).

End shared_mutex.

(** ** [slontia::internal::shared_timed_mutex] *)

Module shared_timed_mutex.
Import shared_mutex.

(** Lines 249-259; [atomic_wait_timeout_] (lines 229-245) is the atom's
    [wait_for] or [wait_until], here [wait_timeout]. *)
Fixpoint atomic_wait_until_zero_with_timeout_
    (fuel : nat) (fn : code Z) (atom : atom) : code (option bool) :=
  match fuel with
  | O => Ret None
  | S fuel' =>
      current_value ← fn;
      if 0 <? current_value
      then Do (wait_timeout atom current_value) (fun in_time =>
             if in_time =? 0
             then Ret (Some false)
             else atomic_wait_until_zero_with_timeout_ fuel' fn atom)
      else Ret (Some true)
  end.

(** Lines 262-275. *)
Definition try_lock_timeout_ (fuel : nat) : code (option bool) :=
  increase_writing_num_;;
  acquired ← atomic_wait_until_zero_with_timeout_ fuel
               try_set_writing_state_to_holding_num_ holding_num_;
  match acquired with
  | Some false => decrease_writing_num_;; Ret (Some false)
  | _ => Ret acquired
  end.

(** Lines 278-282. *)
Definition try_lock_shared_timeout_ (fuel : nat) : code (option bool) :=
  atomic_wait_until_zero_with_timeout_ fuel try_lock_shared_internal_ writing_num_.

(** Lines 194-221: the four public members forward their timeout. *)
Definition try_lock_for := try_lock_timeout_.
Definition try_lock_until := try_lock_timeout_.
Definition try_lock_shared_for := try_lock_shared_timeout_.
Definition try_lock_shared_until := try_lock_shared_timeout_.

End shared_timed_mutex.

(** ** Threads calling into one mutex *)

Definition WRITING : Z := shared_mutex.k_writing_state.

(** The public members of the two classes; [try_lock_for] also stands for
    [try_lock_until], and [try_lock_shared_for] for [try_lock_shared_until]. *)
Inductive method : Set :=
| m_lock | m_try_lock | m_try_lock_for | m_unlock
| m_lock_shared | m_try_lock_shared | m_try_lock_shared_for | m_unlock_shared.

#[global] Instance method_eq_dec : EqDecision method.
Proof. solve_decision. Defined.

(** The body of a call.  The result is [Some true] for a granted or
    completed call, [Some false] for a refused one, and [None] for a
    blocking call that is still in its loop when the fuel is spent. *)
Definition finish {A} (f : A -> option bool) (p : code A) : code (option bool) :=
  a ← p; Ret (f a).

Definition invoke (m : method) (fuel : nat) : code (option bool) :=
  match m with
  | m_lock => finish (option_map (fun _ => true)) (shared_mutex.lock fuel)
  | m_try_lock => finish Some shared_mutex.try_lock
  | m_try_lock_for => shared_timed_mutex.try_lock_for fuel
  | m_unlock => finish (fun _ => Some true) shared_mutex.unlock
  | m_lock_shared => finish (option_map (fun _ => true)) (shared_mutex.lock_shared fuel)
  | m_try_lock_shared => finish Some shared_mutex.try_lock_shared
  | m_try_lock_shared_for => shared_timed_mutex.try_lock_shared_for fuel
  | m_unlock_shared => finish (fun _ => Some true) shared_mutex.unlock_shared
  end.

Definition acquires_exclusive (m : method) : bool :=
  match m with m_lock | m_try_lock | m_try_lock_for => true | _ => false end.

Definition acquires_shared (m : method) : bool :=
  match m with
  | m_lock_shared | m_try_lock_shared | m_try_lock_shared_for => true
  | _ => false
  end.

(** A call in flight: the member called, what is left of its body, and the
    atomic operations it has performed so far. *)
Record thread : Type := Thread {
  meth : method;
  rest : code (option bool);
  past : list atomic_op
}.

(** The mutex, the grants that are outstanding (acquired and not yet handed
    to [unlock] or [unlock_shared]), and the calls in flight. *)
Record state : Type := State {
  cells : mem;
  exclusive_held : Z;
  shared_held : Z;
  pool : list thread
}.

Definition initial : state := State (Mem 0 0) 0 0 [].

Definition quiescent (st : state) : Prop := pool st = [].

Inductive event : Set :=
| Call (m : method) (fuel : nat)  (* a thread enters a member function *)
| Step (i : nat)                  (* thread [i] performs its next atomic operation *)
| Expire (i : nat)                (* the timed park of thread [i] returns false *)
| Return (i : nat).               (* thread [i] leaves its member function *)

(** Thread [i] performs its next atomic operation, on the newest values of
    the atomics. *)
Definition advance (woken : bool) (i : nat) (t : thread) (st : state) : option state :=
  match rest t with
  | Ret _ => None
  | Do o k =>
      let '(r, m') := perform woken o (cells st) in
      Some (State m' (exclusive_held st) (shared_held st)
              (<[i := Thread (meth t) (k r) (past t ++ [o])]> (pool st)))
  end.

(** A release is only called on a grant that is outstanding. *)
Definition next_state (e : event) (st : state) : option state :=
  match e with
  | Call m fuel =>
      let t := Thread m (invoke m fuel) [] in
      match m with
      | m_unlock =>
          if 0 <? exclusive_held st
          then Some (State (cells st) (exclusive_held st - 1) (shared_held st)
                       (pool st ++ [t]))
          else None
      | m_unlock_shared =>
          if 0 <? shared_held st
          then Some (State (cells st) (exclusive_held st) (shared_held st - 1)
                       (pool st ++ [t]))
          else None
      | _ => Some (State (cells st) (exclusive_held st) (shared_held st) (pool st ++ [t]))
      end
  | Step i => t ← pool st !! i; advance true i t st
  | Expire i =>
      t ← pool st !! i;
      match rest t with
      | Do (wait_timeout _ _) _ => advance false i t st
      | _ => None
      end
  | Return i =>
      t ← pool st !! i;
      match rest t with
      | Ret (Some granted) =>
          Some (State (cells st)
                  (if granted && acquires_exclusive (meth t)
                   then exclusive_held st + 1 else exclusive_held st)
                  (if granted && acquires_shared (meth t)
                   then shared_held st + 1 else shared_held st)
                  (delete i (pool st)))
      | _ => None
      end
  end.

(** Calls counted against the two documented capacities: shared holders and
    shared calls in flight, and exclusive holders and exclusive calls in
    flight. *)
Definition readers (st : state) : Z :=
  shared_held st +
  Z.of_nat (length (filter (fun t => acquires_shared (meth t) = true
                                     \/ meth t = m_unlock_shared) (pool st))).

Definition writers (st : state) : Z :=
  exclusive_held st +
  Z.of_nat (length (filter (fun t => acquires_exclusive (meth t) = true
                                     \/ meth t = m_unlock) (pool st))).

(** Lines 158-159: fewer than [1 << 31] readers at a time; the writer count
    is a [uint32]. *)
Definition within_capacity (st : state) : bool :=
  (readers st <? WRITING) && (writers st <? uint32_modulus).

Definition unlimited (st : state) : bool := true.

(** Runs a schedule; every state reached has to pass [accept]. *)
Fixpoint run_pool (accept : state -> bool) (sched : list event) (st : state)
  : option state :=
  match sched with
  | [] => Some st
  | e :: sched' =>
      match next_state e st with
      | Some st' => if accept st' then run_pool accept sched' st' else None
      | None => None
      end
  end.

(** A thread demands exclusive ownership from its increment of
    [writing_num_] to its decrement; the call of [unlock] inherits the
    increment of the acquisition it releases. *)
Definition demands (t : thread) : bool :=
  match meth t with
  | m_lock | m_try_lock | m_try_lock_for =>
      bool_decide (fetch_add writing_num_ 1 ∈ past t)
      && negb (bool_decide (fetch_sub writing_num_ 1 ∈ past t))
  | m_unlock => negb (bool_decide (fetch_sub writing_num_ 1 ∈ past t))
  | _ => false
  end.

Definition writer_demand (st : state) : Prop :=
  0 < exclusive_held st \/ exists t, t ∈ pool st /\ demands t = true.

(** ** Program points

    The proofs about the pool name the points a call can be at.  [code_at]
    gives the body that is left at a point and [next] the point reached by
    the atomic operation performed there, as a function of the value the
    operation returned; [code_at_next] below shows that they follow the
    bodies of the member functions. *)

Inductive kind : Set := blocking | trying | timed.

Definition exclusive_member (k : kind) : method :=
  match k with blocking => m_lock | trying => m_try_lock | timed => m_try_lock_for end.

Definition shared_member (k : kind) : method :=
  match k with
  | blocking => m_lock_shared
  | trying => m_try_lock_shared
  | timed => m_try_lock_shared_for
  end.

Inductive pc : Set :=
(* lock, try_lock, try_lock_for *)
| x_inc (k : kind) (fuel : nat)        (* before [increase_writing_num_] *)
| x_cas (k : kind) (fuel : nat)        (* before [compare_exchange_strong] *)
| x_wait (k : kind) (fuel : nat) (h : Z) (* in the park on [holding_num_] *)
| x_dec (k : kind)                     (* before the [fetch_sub] of [decrease_writing_num_] *)
| x_notify (k : kind)                  (* before its [notify_all] *)
(* unlock *)
| u_sub | u_dec | u_notify_all | u_notify_one
(* lock_shared, try_lock_shared, try_lock_shared_for *)
| s_load (k : kind) (fuel : nat)       (* before the first load of [writing_num_] *)
| s_inc (k : kind) (fuel : nat)        (* before [holding_num_.fetch_add(1)] *)
| s_reload (k : kind) (fuel : nat)     (* before the second load *)
| s_back (k : kind) (fuel : nat) (w : Z)        (* backing out: before the [fetch_sub] *)
| s_back_load (k : kind) (fuel : nat) (w : Z)   (* backing out: before the load *)
| s_back_notify (k : kind) (fuel : nat) (w : Z) (* backing out: before [notify_one] *)
| s_wait (k : kind) (fuel : nat) (w : Z)        (* in the park on [writing_num_] *)
(* unlock_shared *)
| r_sub | r_load | r_notify
(* the body is finished *)
| fin (m : method) (r : option bool).

Section ProgramPoints.
Import shared_mutex shared_timed_mutex.

(** The caller of the loop of an exclusive acquire: what [lock],
    [try_lock] and [try_lock_timeout_] do with its result. *)
Definition x_caller (k : kind) (loop : code (option bool)) : code (option bool) :=
  match k with
  | blocking | trying => loop
  | timed =>
      acquired ← loop;
      match acquired with
      | Some false => decrease_writing_num_;; Ret (Some false)
      | _ => Ret acquired
      end
  end.

(** The loop of an exclusive acquire, from its head. *)
Definition x_loop (k : kind) (fuel : nat) : code (option bool) :=
  match k with
  | blocking =>
      finish (option_map (fun _ => true))
        (atomic_wait_until_zero fuel try_set_writing_state_to_holding_num_ holding_num_)
  | trying =>
      finish Some
        (holding_num ← try_set_writing_state_to_holding_num_;
         if 0 <? holding_num then decrease_writing_num_;; Ret false else Ret true)
  | timed =>
      atomic_wait_until_zero_with_timeout_ fuel
        try_set_writing_state_to_holding_num_ holding_num_
  end.

(** The same loop, from its park. *)
Definition x_park (k : kind) (fuel : nat) (h : Z) : code (option bool) :=
  match k with
  | blocking =>
      finish (option_map (fun _ => true))
        (Do (wait holding_num_ h) (fun _ =>
           atomic_wait_until_zero fuel try_set_writing_state_to_holding_num_ holding_num_))
  | trying => Ret None
  | timed =>
      Do (wait_timeout holding_num_ h) (fun in_time =>
        if in_time =? 0
        then Ret (Some false)
        else atomic_wait_until_zero_with_timeout_ fuel
               try_set_writing_state_to_holding_num_ holding_num_)
  end.

Definition x_abort (k : kind) : code (option bool) :=
  match k with
  | trying => finish Some (decrease_writing_num_;; Ret false)
  | _ => decrease_writing_num_;; Ret (Some false)
  end.

(** The caller of [try_lock_shared_internal_]: the loops of [lock_shared]
    and [try_lock_shared_timeout_], and [try_lock_shared]. *)
Definition s_caller (k : kind) (fuel : nat) (fn : code Z) : code (option bool) :=
  match k with
  | blocking =>
      finish (option_map (fun _ => true))
        (current_value ← fn;
         if 0 <? current_value
         then Do (wait writing_num_ current_value)
                (fun _ => atomic_wait_until_zero fuel try_lock_shared_internal_ writing_num_)
         else Ret (Some tt))
  | trying => finish Some (writing_num ← fn; Ret (writing_num =? 0))
  | timed =>
      current_value ← fn;
      if 0 <? current_value
      then Do (wait_timeout writing_num_ current_value) (fun in_time =>
             if in_time =? 0
             then Ret (Some false)
             else atomic_wait_until_zero_with_timeout_ fuel
                    try_lock_shared_internal_ writing_num_)
      else Ret (Some true)
  end.

(** [try_lock_shared_internal_] from its second load, and the back-out
    from its load. *)
Definition reload_ : code Z :=
  Do (load writing_num_) (fun writing_num =>
    if 0 <? writing_num then unlock_shared;; Ret writing_num else Ret writing_num).

Definition release_load_ : code unit :=
  Do (load writing_num_) (fun writing_num =>
    if 0 <? writing_num
    then Do (notify_one holding_num_) (fun _ => Ret tt)
    else Ret tt).

Definition code_at (p : pc) : code (option bool) :=
  match p with
  | x_inc k fuel => invoke (exclusive_member k) fuel
  | x_cas k fuel => x_caller k (x_loop k fuel)
  | x_wait k fuel h => x_caller k (x_park k fuel h)
  | x_dec k => x_abort k
  | x_notify k => Do (notify_all writing_num_) (fun _ => Ret (Some false))
  | u_sub => invoke m_unlock O
  | u_dec =>
      finish (fun _ => Some true)
        (notified ← decrease_writing_num_;
         if negb notified
         then Do (notify_one holding_num_) (fun _ => Ret tt)
         else Ret tt)
  | u_notify_all => Do (notify_all writing_num_) (fun _ => Ret (Some true))
  | u_notify_one => Do (notify_one holding_num_) (fun _ => Ret (Some true))
  | s_load k fuel => invoke (shared_member k) fuel
  | s_inc k fuel => s_caller k fuel (Do (fetch_add holding_num_ 1) (fun _ => reload_))
  | s_reload k fuel => s_caller k fuel reload_
  | s_back k fuel w => s_caller k fuel (unlock_shared;; Ret w)
  | s_back_load k fuel w => s_caller k fuel (release_load_;; Ret w)
  | s_back_notify k fuel w =>
      s_caller k fuel (Do (notify_one holding_num_) (fun _ => Ret w))
  | s_wait k fuel w =>
      match k with
      | blocking => Do (wait writing_num_ w) (fun _ => invoke m_lock_shared fuel)
      | trying => Ret None
      | timed =>
          Do (wait_timeout writing_num_ w) (fun in_time =>
            if in_time =? 0
            then Ret (Some false)
            else invoke m_try_lock_shared_for fuel)
      end
  | r_sub => invoke m_unlock_shared O
  | r_load => finish (fun _ => Some true) release_load_
  | r_notify => Do (notify_one holding_num_) (fun _ => Ret (Some true))
  | fin _ r => Ret r
  end.

(** Where a shared acquire goes once [try_lock_shared_internal_] has
    returned [w]. *)
Definition s_resume (k : kind) (fuel : nat) (w : Z) : pc :=
  match k with
  | trying => fin m_try_lock_shared (Some (w =? 0))
  | _ => if 0 <? w then s_wait k fuel w else fin (shared_member k) (Some true)
  end.

Definition next (p : pc) (v : Z) : pc :=
  match p with
  | x_inc k fuel => x_cas k fuel
  | x_cas trying _ => if 0 <? v then x_dec trying else fin m_try_lock (Some true)
  | x_cas k (S fuel') =>
      if 0 <? v then x_wait k fuel' v else fin (exclusive_member k) (Some true)
  | x_cas _ O => p
  | x_wait blocking fuel _ => x_cas blocking fuel
  | x_wait timed fuel _ => if v =? 0 then x_dec timed else x_cas timed fuel
  | x_wait trying _ _ => p
  | x_dec k => if v =? 1 then x_notify k else fin (exclusive_member k) (Some false)
  | x_notify k => fin (exclusive_member k) (Some false)
  | u_sub => u_dec
  | u_dec => if v =? 1 then u_notify_all else u_notify_one
  | u_notify_all | u_notify_one => fin m_unlock (Some true)
  | s_load trying fuel => if v =? 0 then s_inc trying fuel else s_resume trying fuel v
  | s_load k (S fuel') => if v =? 0 then s_inc k fuel' else s_resume k fuel' v
  | s_load _ O => p
  | s_inc k fuel => s_reload k fuel
  | s_reload k fuel => if 0 <? v then s_back k fuel v else s_resume k fuel v
  | s_back k fuel w => if v =? 1 then s_back_load k fuel w else s_resume k fuel w
  | s_back_load k fuel w => if 0 <? v then s_back_notify k fuel w else s_resume k fuel w
  | s_back_notify k fuel w => s_resume k fuel w
  | s_wait timed fuel _ =>
      if v =? 0 then fin m_try_lock_shared_for (Some false) else s_load timed fuel
  | s_wait k fuel _ => s_load k fuel
  | r_sub => if v =? 1 then r_load else fin m_unlock_shared (Some true)
  | r_load => if 0 <? v then r_notify else fin m_unlock_shared (Some true)
  | r_notify => fin m_unlock_shared (Some true)
  | fin _ _ => p
  end.

Definition member_at (p : pc) : method :=
  match p with
  | x_inc k _ | x_cas k _ | x_wait k _ _ | x_dec k | x_notify k => exclusive_member k
  | u_sub | u_dec | u_notify_all | u_notify_one => m_unlock
  | s_load k _ | s_inc k _ | s_reload k _ | s_back k _ _ | s_back_load k _ _
  | s_back_notify k _ _ | s_wait k _ _ => shared_member k
  | r_sub | r_load | r_notify => m_unlock_shared
  | fin m _ => m
  end.

(** The share of a call in the two counters: [demand_at] in
    [writing_num_]; [owner_at] times [WRITING] plus [share_at] in
    [holding_num_].  [granted_at] marks the shares that are grants. *)
Definition demand_at (p : pc) : Z :=
  match p with
  | x_cas _ _ | x_wait _ _ _ | x_dec _ | u_sub | u_dec => 1
  | fin m (Some true) => if acquires_exclusive m then 1 else 0
  | _ => 0
  end.

Definition owner_at (p : pc) : Z :=
  match p with
  | u_sub => 1
  | fin m (Some true) => if acquires_exclusive m then 1 else 0
  | _ => 0
  end.

Definition share_at (p : pc) : Z :=
  match p with
  | s_reload _ _ | s_back _ _ _ | r_sub => 1
  | fin m (Some true) => if acquires_shared m then 1 else 0
  | _ => 0
  end.

Definition granted_at (p : pc) : Z :=
  match p with
  | r_sub => 1
  | fin m (Some true) => if acquires_shared m then 1 else 0
  | _ => 0
  end.

Definition incremented_at (p : pc) : bool :=
  match p with
  | x_cas _ _ | x_wait _ _ _ | x_dec _ | x_notify _ => true
  | fin m _ => acquires_exclusive m
  | _ => false
  end.

Definition decremented_at (p : pc) : bool :=
  match p with
  | x_notify _ | u_notify_all | u_notify_one => true
  | fin m_unlock _ => true
  | fin _ (Some true) => false
  | fin m _ => acquires_exclusive m
  | _ => false
  end.

(** A back-out remembers the positive value of the second load. *)
Definition pc_ok (p : pc) : Prop :=
  match p with
  | s_back _ _ w | s_back_load _ _ w | s_back_notify _ _ w => 0 < w
  | _ => True
  end.

Definition uses_exclusive (p : pc) : Z :=
  match member_at p with
  | m_lock | m_try_lock | m_try_lock_for | m_unlock => 1
  | _ => 0
  end.

Definition uses_shared (p : pc) : Z :=
  match member_at p with
  | m_lock_shared | m_try_lock_shared | m_try_lock_shared_for | m_unlock_shared => 1
  | _ => 0
  end.

(** The point a call starts at. *)
Definition entry (m : method) (fuel : nat) : pc :=
  match m with
  | m_lock => x_inc blocking fuel
  | m_try_lock => x_inc trying fuel
  | m_try_lock_for => x_inc timed fuel
  | m_unlock => u_sub
  | m_lock_shared => s_load blocking fuel
  | m_try_lock_shared => s_load trying fuel
  | m_try_lock_shared_for => s_load timed fuel
  | m_unlock_shared => r_sub
  end.

End ProgramPoints.

(** ** Ghost bookkeeping for the pool *)

Definition total (f : pc -> Z) (ps : list pc) : Z :=
  foldr (fun p acc => f p + acc) 0 ps.

(** Thread [t] is at point [p]. *)
Definition tracks (t : thread) (p : pc) : Prop :=
  rest t = code_at p /\ meth t = member_at p /\ pc_ok p
  /\ bool_decide (fetch_add writing_num_ 1 ∈ past t) = incremented_at p
  /\ bool_decide (fetch_sub writing_num_ 1 ∈ past t) = decremented_at p.

(** The two counters are the sums of the shares of the calls in flight and
    of the outstanding grants, modulo [2^32]. *)
Definition accounted (st : state) (ps : list pc) : Prop :=
  Forall2 tracks (pool st) ps
  /\ 0 <= exclusive_held st /\ 0 <= shared_held st
  /\ writing_num (cells st) = wrap (total demand_at ps + exclusive_held st)
  /\ holding_num (cells st) =
       wrap (WRITING * (total owner_at ps + exclusive_held st)
             + total share_at ps + shared_held st).

(** There is at most one owner, and no grant of shared ownership next to
    it. *)
Definition one_owner (st : state) (ps : list pc) : Prop :=
  total owner_at ps + exclusive_held st <= 1
  /\ (total owner_at ps + exclusive_held st = 1 ->
      total granted_at ps + shared_held st = 0).

(** The points of the threads after an event. *)
Definition points_after (e : event) (st : state) (ps : list pc) : list pc :=
  match e with
  | Call m fuel => ps ++ [entry m fuel]
  | Step i | Expire i =>
      match pool st !! i, ps !! i with
      | Some t, Some p =>
          match rest t with
          | Do o _ =>
              let woken := match e with Expire _ => false | _ => true end in
              <[i := next p (perform woken o (cells st)).1]> ps
          | Ret _ => ps
          end
      | _, _ => ps
      end
  | Return i => delete i ps
  end.

Fixpoint points_along (sched : list event) (st : state) (ps : list pc) : list pc :=
  match sched with
  | [] => ps
  | e :: sched' =>
      match next_state e st with
      | Some st' => points_along sched' st' (points_after e st ps)
      | None => ps
      end
  end.

(** The invariants of the lock at a state.  I1: [H < WRITING] implies that
    there is no exclusive holder.  I2: an exclusive holder implies
    [H = WRITING] and [W >= 1].  I3: [W = 0] exactly when no thread intends
    or holds exclusive ownership. *)
Definition lock_invariants (st : state) : Prop :=
  (holding_num (cells st) < WRITING -> exclusive_held st = 0)
  /\ (0 < exclusive_held st ->
      holding_num (cells st) = WRITING /\ 1 <= writing_num (cells st))
  /\ (writing_num (cells st) = 0 <-> ~ writer_demand st).

(** ** The memory orders of the source

    The pool above lets every atomic operation act on the newest values.
    The source asks for less: its read-modify-writes on the two counters
    are [acquire] when they add (lines 102, 125 and 137) and [release] when
    they subtract (lines 71, 95 and 109), and its loads are [acquire]
    (lines 133 and 142).  The machine below follows these orders, in the
    way of the view semantics of release/acquire atomics: every atomic has
    the log of its values in modification order, every thread a view, the
    position in each log before which it may no longer read, and every
    value the view that reading it with [acquire] hands over. *)

Inductive memory_order : Set := memory_order_acquire | memory_order_release.

(** The order the source gives each operation.  Line 96 asks for
    [release] on a load, which a load cannot have; that load is taken as
    [acquire] like the other two.  The parks and notifications do not touch
    the logs. *)
Definition order_of (o : atomic_op) : option memory_order :=
  match o with
  | fetch_add _ _ => Some memory_order_acquire
  | fetch_sub _ _ => Some memory_order_release
  | compare_exchange_strong _ _ _ => Some memory_order_acquire
  | load _ => Some memory_order_acquire
  | _ => None
  end.

Definition acquires (o : atomic_op) : bool :=
  match order_of o with Some memory_order_acquire => true | _ => false end.

Definition releases (o : atomic_op) : bool :=
  match order_of o with Some memory_order_release => true | _ => false end.

Record view : Set := View { writing_seen : nat; holding_seen : nat }.

Definition bottom : view := View 0 0.

Definition vget (v : view) (a : atom) : nat :=
  match a with writing_num_ => writing_seen v | holding_num_ => holding_seen v end.

Definition vset (v : view) (a : atom) (n : nat) : view :=
  match a with
  | writing_num_ => View n (holding_seen v)
  | holding_num_ => View (writing_seen v) n
  end.

Definition vjoin (u v : view) : view :=
  View (Nat.max (writing_seen u) (writing_seen v))
       (Nat.max (holding_seen u) (holding_seen v)).

(** A value in a log, with the view it releases. *)
Record message : Set := Message { msg_value : Z; msg_view : view }.

(** The two logs, oldest value first. *)
Record store : Set := Store { writing_log : list message; holding_log : list message }.

Definition log (s : store) (a : atom) : list message :=
  match a with writing_num_ => writing_log s | holding_num_ => holding_log s end.

Definition append (s : store) (a : atom) (m : message) : store :=
  match a with
  | writing_num_ => Store (writing_log s ++ [m]) (holding_log s)
  | holding_num_ => Store (writing_log s) (holding_log s ++ [m])
  end.

Definition newest (l : list message) : message := List.last l (Message 0 bottom).

(** The newest values of the two atomics. *)
Definition latest (s : store) : mem :=
  Mem (msg_value (newest (writing_log s))) (msg_value (newest (holding_log s))).

(** A read-modify-write reads the newest value of its atomic, as every
    value of the two counters is written by a read-modify-write, and adds
    its own to the log.  With [acquire] the thread takes over the view of
    the value read; with [release] the new value hands over the view of the
    thread; in both cases it continues the release sequence of the value
    read. *)
Definition rmw (woken : bool) (o : atomic_op) (a : atom) (knows : view) (s : store)
  : Z * view * store :=
  let old := newest (log s a) in
  let position := length (log s a) in
  let knows' := vset (if acquires o then vjoin knows (msg_view old) else knows) a position in
  let handed := vset (if releases o then vjoin knows' (msg_view old) else msg_view old)
                     a position in
  let done := perform woken o (latest s) in
  (done.1, knows', append s a (Message (get done.2 a) handed)).

(** A load, or a compare-and-swap that fails, reads the value at a
    position of the log that the thread has not yet read beyond: not
    necessarily the newest. *)
Definition read_at (woken : bool) (o : atomic_op) (a : atom) (n : nat)
    (knows : view) (s : store) : option (Z * view * store) :=
  msg ← log s a !! n;
  if (vget knows a <=? n)%nat
  then Some ((perform woken o (set (latest s) a (msg_value msg))).1,
             vjoin knows (vset (if acquires o then msg_view msg else bottom) a n),
             s)
  else None.

(** One atomic operation of a thread; [n] is the position it reads at.  A
    compare-and-swap that reads the expected value is a read-modify-write
    and has to read the newest value. *)
Definition weak_perform (woken : bool) (n : nat) (o : atomic_op) (knows : view)
    (s : store) : option (Z * view * store) :=
  match o with
  | fetch_add a _ | fetch_sub a _ => Some (rmw woken o a knows s)
  | compare_exchange_strong a expected _ =>
      msg ← log s a !! n;
      if msg_value msg =? expected
      then if decide (S n = length (log s a))
           then Some (rmw woken o a knows s) else None
      else read_at woken o a n knows s
  | load a => read_at woken o a n knows s
  | wait _ _ | wait_timeout _ _ | notify_one _ | notify_all _ =>
      Some ((perform woken o (latest s)).1, knows, s)
  end.

Record weak_thread : Type := WeakThread { running : thread; knows : view }.

Record weak_state : Type := WeakState {
  logs : store;
  exclusive_grants : Z;
  shared_grants : Z;
  threads : list weak_thread
}.

Definition weak_initial : weak_state :=
  WeakState (Store [Message 0 bottom] [Message 0 bottom]) 0 0 [].

(** The state with the newest values in the cells. *)
Definition as_state (st : weak_state) : state :=
  State (latest (logs st)) (exclusive_grants st) (shared_grants st)
        (running <$> threads st).

(** A call starts with a view of its thread: any view of values that are
    in the logs. *)
Inductive weak_event : Set :=
| WeakCall (m : method) (fuel : nat) (v : view)
| WeakStep (i n : nat)
| WeakExpire (i : nat)
| WeakReturn (i : nat).

Definition within (v : view) (s : store) : bool :=
  (writing_seen v <? length (writing_log s))%nat
  && (holding_seen v <? length (holding_log s))%nat.

Definition weak_advance (woken : bool) (i n : nat) (t : weak_thread) (st : weak_state)
  : option weak_state :=
  match rest (running t) with
  | Ret _ => None
  | Do o k =>
      '(r, v, s) ← weak_perform woken n o (knows t) (logs st);
      Some (WeakState s (exclusive_grants st) (shared_grants st)
              (<[i := WeakThread (Thread (meth (running t)) (k r) (past (running t) ++ [o])) v]>
                 (threads st)))
  end.

Definition weak_next (e : weak_event) (st : weak_state) : option weak_state :=
  match e with
  | WeakCall m fuel v =>
      let t := WeakThread (Thread m (invoke m fuel) []) v in
      if within v (logs st)
      then match m with
           | m_unlock =>
               if 0 <? exclusive_grants st
               then Some (WeakState (logs st) (exclusive_grants st - 1) (shared_grants st)
                            (threads st ++ [t]))
               else None
           | m_unlock_shared =>
               if 0 <? shared_grants st
               then Some (WeakState (logs st) (exclusive_grants st) (shared_grants st - 1)
                            (threads st ++ [t]))
               else None
           | _ => Some (WeakState (logs st) (exclusive_grants st) (shared_grants st)
                          (threads st ++ [t]))
           end
      else None
  | WeakStep i n => t ← threads st !! i; weak_advance true i n t st
  | WeakExpire i =>
      t ← threads st !! i;
      match rest (running t) with
      | Do (wait_timeout _ _) _ => weak_advance false i 0 t st
      | _ => None
      end
  | WeakReturn i =>
      t ← threads st !! i;
      match rest (running t) with
      | Ret (Some granted) =>
          Some (WeakState (logs st)
                  (if granted && acquires_exclusive (meth (running t))
                   then exclusive_grants st + 1 else exclusive_grants st)
                  (if granted && acquires_shared (meth (running t))
                   then shared_grants st + 1 else shared_grants st)
                  (delete i (threads st)))
      | _ => None
      end
  end.

Fixpoint run_weak (accept : state -> bool) (sched : list weak_event) (st : weak_state)
  : option weak_state :=
  match sched with
  | [] => Some st
  | e :: sched' =>
      match weak_next e st with
      | Some st' => if accept (as_state st') then run_weak accept sched' st' else None
      | None => None
      end
  end.

(** Every value in the logs is a 32-bit value. *)
Definition logged (s : store) : Prop :=
  forall a msg, msg ∈ log s a -> is_uint32 (msg_value msg).

(** What stays true under the memory orders of the source: the newest
    values account for every call, and at most one call owns the lock
    exclusively. *)
Definition weakly_accounted (st : weak_state) (ps : list pc) : Prop :=
  accounted (as_state st) ps
  /\ total owner_at ps + exclusive_grants st <= 1
  /\ logged (logs st).

(** A reader passes its first check, a writer takes the lock, and the
    reader's second check reads the value of [writing_num_] it has read
    before. *)
Definition reader_beside_writer : list weak_event :=
  [WeakCall m_try_lock_shared 0 bottom; WeakStep 0 0;
   WeakCall m_try_lock 0 bottom; WeakStep 1 0; WeakStep 1 0; WeakReturn 1;
   WeakStep 0 0; WeakStep 0 0; WeakReturn 0].



(** The event of the pool a step of this machine is, when it acts on the
    newest values. *)
Definition erase (e : weak_event) : event :=
  match e with
  | WeakCall m fuel _ => Call m fuel
  | WeakStep i _ => Step i
  | WeakExpire i => Expire i
  | WeakReturn i => Return i
  end.

(** ** The parking primitive [timed_atomic_uint32_t] *)

(** [std::chrono::duration<Rep, Period>] with a signed 64-bit [Rep], as
    the named duration types have it: [count] ticks of
    [period_num / period_den] seconds, the period positive and in lowest
    terms.  A time point is the duration since the epoch of its clock.  An
    operation whose 64-bit arithmetic overflows has undefined behaviour;
    it gives [None]. *)
Record duration : Set := Duration {
  count : Z;
  period_num : Z;
  period_den : Z
}.

Definition fits_int64 (x : Z) : bool := (- 2 ^ 63 <=? x) && (x <? 2 ^ 63).

(** [duration_cast] and [time_point_cast] to a period of
    [to_num / to_den] seconds: the count is multiplied by the numerator and
    divided by the denominator of the quotient of the two periods in lowest
    terms, in 64 bits; the division truncates toward zero. *)
Definition duration_cast (to_num to_den : Z) (d : duration) : option Z :=
  let g := Z.gcd (period_num d * to_den) (period_den d * to_num) in
  let cf_num := period_num d * to_den / g in
  let cf_den := period_den d * to_num / g in
  if fits_int64 (count d * cf_num)
  then Some (Z.quot (count d * cf_num) cf_den)
  else None.

(** The conversion of [d] to the common type of [d] and [other], whose
    period is the greatest common divisor of the numerators over the least
    common multiple of the denominators. *)
Definition to_common (d other : duration) : option duration :=
  let num := Z.gcd (period_num d) (period_num other) in
  let den := Z.lcm (period_den d) (period_den other) in
  c ← duration_cast num den d;
  Some (Duration c num den).

(** [operator+] and [operator-] of two durations, or of a time point and
    a duration, or of two time points: in the common type. *)
Definition plus (a b : duration) : option duration :=
  x ← to_common a b;
  y ← to_common b a;
  if fits_int64 (count x + count y)
  then Some (Duration (count x + count y) (period_num x) (period_den x))
  else None.

Definition minus (a b : duration) : option duration :=
  x ← to_common a b;
  y ← to_common b a;
  if fits_int64 (count x - count y)
  then Some (Duration (count x - count y) (period_num x) (period_den x))
  else None.

(** A clock: whether it is the system clock, and the period of its
    ticks. *)
Record clock : Set := Clock {
  realtime : bool;
  tick_num : Z;
  tick_den : Z
}.

(** Modelled from the spec: [std::chrono::steady_clock] and
    [std::chrono::system_clock] of the C++ library under Linux, which count
    nanoseconds; the library is not part of the repository. *)
Definition steady_clock : clock := Clock false 1 1000000000.
Definition system_clock : clock := Clock true 1 1000000000.

(** [Clock::now()] read as [t] ticks. *)
Definition time_point (c : clock) (t : Z) : duration :=
  Duration t (tick_num c) (tick_den c).

Record timespec : Set := Timespec { tv_sec : Z; tv_nsec : Z }.

(** What the primitive asks of the platform.  [sys_futex] carries what the
    kernel receives after the address of the cell: the operation, the value
    and the next two arguments, [utime] and [uaddr2], as machine words. *)
Inductive os_op : Set :=
| read_value                              (* [*this == value] reads [value_] *)
| now (c : clock)                         (* [Clock::now()] *)
| sys_futex (futex_op val utime uaddr2 : Z)
| WaitOnAddress (compare dwMilliseconds : Z)
| WakeByAddressSingle
| WakeByAddressAll.

(** Modelled from the spec: the constants of [<linux/futex.h>] and
    [<windows.h>], which are not part of the repository. *)
Definition FUTEX_WAIT : Z := 0.
Definition FUTEX_WAKE : Z := 1.
Definition FUTEX_CLOCK_REALTIME : Z := 256.
Definition INT_MAX : Z := 2147483647.
Definition INFINITE : Z := 4294967295.

Module Linux.

(** Lines 18-31: the two specialisations. *)
Definition futex_wait_operator (c : clock) : Z :=
  if realtime c then Z.lor FUTEX_WAIT FUTEX_CLOCK_REALTIME else FUTEX_WAIT.

(** Lines 41-44; [nullptr] for both pointers. *)
Definition wait (value : Z) : prog os_op unit :=
  Do (sys_futex FUTEX_WAIT value 0 0) (fun _ => Ret tt).

(** Lines 61-64: the [timespec] of a time point. *)
Definition timespec_of (timeout_time : duration) : option timespec :=
  secs ← duration_cast 1 1 timeout_time;
  ns_all ← duration_cast 1 1000000000 timeout_time;
  ns_secs ← duration_cast 1 1000000000 (Duration secs 1 1);
  if fits_int64 (ns_all - ns_secs)
  then Some (Timespec secs (ns_all - ns_secs))
  else None.

(** Lines 55-66.  Line 65 passes the [timespec] to the variadic [syscall]
    itself and not its address: its two words take the places of the fourth
    and the fifth argument of the system call, so the kernel receives
    [tv_sec] where it expects the address of the timeout and [tv_nsec] as
    [uaddr2]. *)
Definition wait_until (c : clock) (value : Z) (timeout_time : duration)
  : prog os_op (option bool) :=
  match timespec_of timeout_time with
  | Some timeout =>
      Do (sys_futex (futex_wait_operator c) value (tv_sec timeout) (tv_nsec timeout))
         (fun r => Ret (Some (r =? 0)))
  | None => Ret None
  end.

(** Lines 46-53. *)
Definition wait_for (value : Z) (timeout_duration : duration)
  : prog os_op (option bool) :=
  Do (now steady_clock) (fun t =>
    match plus (time_point steady_clock t) timeout_duration with
    | Some timeout_time => wait_until steady_clock value timeout_time
    | None => Ret None
    end).

(** Lines 68-70. *)
Definition notify_one : prog os_op unit :=
  Do (sys_futex FUTEX_WAKE 1 0 0) (fun _ => Ret tt).
Definition notify_all : prog os_op unit :=
  Do (sys_futex FUTEX_WAKE INT_MAX 0 0) (fun _ => Ret tt).

End Linux.

(** The earlier Windows header, [unnamed/part_005], lines 69-120. *)
Module WindowsEarlier.

(** Lines 93-98: no test of the duration; the [long long] count of
    milliseconds is converted to the [DWORD] parameter. *)
Definition wait_for (value : Z) (timeout_duration : duration)
  : prog os_op (option bool) :=
  match duration_cast 1 1000 timeout_duration with
  | Some ms => Do (WaitOnAddress value (wrap ms)) (fun r => Ret (Some (negb (r =? 0))))
  | None => Ret None
  end.

(** Lines 100-108. *)
Definition wait_until (c : clock) (value : Z) (timeout_time : duration)
  : prog os_op (option bool) :=
  Do (now c) (fun t =>
    match minus timeout_time (time_point c t) with
    | Some timeout_duration =>
        if 0 <? count timeout_duration
        then wait_for value timeout_duration
        else Do read_value (fun v => Ret (Some (v =? value)))
    | None => Ret None
    end).

End WindowsEarlier.

(** The current Windows header, [unnamed/part_005], lines 120-180. *)
Module Windows.

(** Lines 143-146. *)
Definition wait (value : Z) : prog os_op unit :=
  Do (WaitOnAddress value INFINITE) (fun _ => Ret tt).

Section Guard.

(** Line 154 tests [timeout_duration <= decltype(timeout_duration)::zero()].
    [timeout_duration] is a reference parameter, so the [decltype] names a
    reference type, which has no member [zero]: the test has no meaning in
    the language as written.  What it evaluates to is left open. *)
Variable zero_test : duration -> bool.

(** Lines 148-159. *)
Definition wait_for (value : Z) (timeout_duration : duration)
  : prog os_op (option bool) :=
  if zero_test timeout_duration
  then Do read_value (fun v => Ret (Some (v =? value)))
  else match duration_cast 1 1000 timeout_duration with
       | Some ms =>
           Do (WaitOnAddress value (wrap ms)) (fun r => Ret (Some (negb (r =? 0))))
       | None => Ret None
       end.

(** Lines 161-168. *)
Definition wait_until (c : clock) (value : Z) (timeout_time : duration)
  : prog os_op (option bool) :=
  Do (now c) (fun t =>
    match minus timeout_time (time_point c t) with
    | Some timeout_duration => wait_for value timeout_duration
    | None => Ret None
    end).

End Guard.

(** Lines 170 and 172. *)
Definition notify_one : prog os_op unit := Do WakeByAddressSingle (fun _ => Ret tt).
Definition notify_all : prog os_op unit := Do WakeByAddressAll (fun _ => Ret tt).

End Windows.

(** Modelled from the spec: the platform calls themselves, after futex(2)
    and the documentation of WaitOnAddress; they are not part of the
    repository.  [value_] is the cell at the call, [reading] what the clock
    shows in its ticks, [woken] whether a wake-up arrives while the thread
    is parked, and [user_memory] the [timespec] the thread can read at an
    address, if any.  A futex wait first reads its timeout: a null [utime]
    is no timeout, one that cannot be read fails the call (-1, [EFAULT]), and
    so does one that is not a valid [timespec] ([EINVAL]).  Then it fails at
    once when the cell differs from [val]; else the thread parks, and the
    call returns 0 if it is woken and -1 if the timeout elapses.
    WaitOnAddress returns TRUE at once when the cell differs from [compare],
    else the thread parks, and the call returns TRUE if it is woken and
    FALSE if the timeout elapses.  A park without a timeout that is not
    woken does not return: no reply. *)
Record os : Type := Os {
  value_ : Z;
  reading : Z;
  woken : bool;
  user_memory : Z -> option timespec
}.

Definition valid_timespec (ts : timespec) : bool :=
  (0 <=? tv_sec ts) && (0 <=? tv_nsec ts) && (tv_nsec ts <? 1000000000).

(** The timeout of a futex wait: [None] when the call fails over it, else
    whether there is one. *)
Definition futex_timeout (s : os) (utime : Z) : option bool :=
  if utime =? 0 then Some false
  else match user_memory s utime with
       | Some ts => if valid_timespec ts then Some true else None
       | None => None
       end.

Definition os_reply (s : os) (o : os_op) : option Z :=
  match o with
  | read_value => Some (value_ s)
  | now _ => Some (reading s)
  | sys_futex futex_op val utime _ =>
      if Z.land futex_op 127 =? FUTEX_WAIT
      then match futex_timeout s utime with
           | None => Some (-1)
           | Some has_timeout =>
               if value_ s =? val
               then (if woken s then Some 0 else if has_timeout then Some (-1) else None)
               else Some (-1)
           end
      else Some 0
  | WaitOnAddress compare dwMilliseconds =>
      if value_ s =? compare
      then (if woken s then Some 1
            else if dwMilliseconds =? INFINITE then None else Some 0)
      else Some 1
  | WakeByAddressSingle | WakeByAddressAll => Some 0
  end.

(** Whether the call puts the thread to sleep. *)
Definition os_parks (s : os) (o : os_op) : bool :=
  match o with
  | sys_futex futex_op val utime _ =>
      (Z.land futex_op 127 =? FUTEX_WAIT)
      && match futex_timeout s utime with
         | Some _ => value_ s =? val
         | None => false
         end
  | WaitOnAddress compare _ => value_ s =? compare
  | _ => false
  end.

(** Runs a primitive on the platform: its result, if it returns, the calls
    it made, and whether the thread was ever parked. *)
Fixpoint os_run {A} (s : os) (p : prog os_op A) : option A * list os_op * bool :=
  match p with
  | Ret a => (Some a, [], false)
  | Do o k =>
      match os_reply s o with
      | Some r =>
          let '(a, calls, parked) := os_run s (k r) in
          (a, o :: calls, os_parks s o || parked)
      | None => (None, [o], os_parks s o)
      end
  end.

(** The timeout a timed wait hands to WaitOnAddress, if that is its first
    call. *)
Definition timeout_passed {A} (p : prog os_op A) : option Z :=
  match p with
  | Do (WaitOnAddress _ dwMilliseconds) _ => Some dwMilliseconds
  | _ => None
  end.

(** The arguments a timed wait hands to the futex call, if that is its
    first call: the operation, the value, and what the kernel receives as
    [utime] and as [uaddr2]. *)
Definition futex_call {A} (p : prog os_op A) : option (Z * Z * Z * Z) :=
  match p with
  | Do (sys_futex futex_op val utime uaddr2) _ => Some (futex_op, val, utime, uaddr2)
  | _ => None
  end.

(** Nothing can be read at any address handed over as a timeout. *)
Definition unreadable : Z -> option timespec := fun _ => None.

(** ** The guarded wrapper [lock_wrapper] *)

(** What [lock_wrapper] asks of its [Mutex] parameter.  [mutex_lock] and
    [mutex_lock_shared] give [None] when the caller blocks. *)
Class Lockable (Mutex : Type) : Type := {
  mutex_lock : Mutex -> option Mutex;
  mutex_try_lock : Mutex -> bool * Mutex;
  mutex_unlock : Mutex -> Mutex;
  mutex_lock_shared : Mutex -> option Mutex;
  mutex_try_lock_shared : Mutex -> bool * Mutex;
  mutex_unlock_shared : Mutex -> Mutex
}.

(** [slontia::shared_mutex] used by one thread at a time: a blocking call
    that does not succeed at its first attempt parks for good. *)
Definition granted_state (r : option unit * mem * list atomic_op) : option mem :=
  match r with
  | (Some _, m, _) => Some m
  | (None, _, _) => None
  end.

#[global] Instance slontia_shared_mutex : Lockable mem := {
  mutex_lock m := granted_state (run (shared_mutex.lock 1) m);
  mutex_try_lock m := (run shared_mutex.try_lock m).1;
  mutex_unlock m := (run shared_mutex.unlock m).1.2;
  mutex_lock_shared m := granted_state (run (shared_mutex.lock_shared 1) m);
  mutex_try_lock_shared m := (run shared_mutex.try_lock_shared m).1;
  mutex_unlock_shared m := (run shared_mutex.unlock_shared m).1.2
}.

Module lock_wrapper.

(** Line 12. *)
Inductive lock_type : Set := unique_mutable | unique_const | shared_const.

Section Wrapper.
Context {T Mutex : Type} `{Lockable Mutex}.

(** Lines 21-64: [lock_helper<k_type>]. *)
Definition lock_helper_lock (k_type : lock_type) (mutex : Mutex) : option Mutex :=
  match k_type with
  | shared_const => mutex_lock_shared mutex
  | unique_mutable | unique_const => mutex_lock mutex
  end.

Definition lock_helper_try_lock (k_type : lock_type) (mutex : Mutex) : bool * Mutex :=
  match k_type with
  | shared_const => mutex_try_lock_shared mutex
  | unique_mutable | unique_const => mutex_try_lock mutex
  end.

Definition lock_helper_unlock (k_type : lock_type) (mutex : Mutex) : Mutex :=
  match k_type with
  | shared_const => mutex_unlock_shared mutex
  | unique_mutable | unique_const => mutex_unlock mutex
  end.

(** Lines 159-160: the members of a wrapper. *)
Record wrapper : Type := Wrapper { mutex_ : Mutex; obj_ : T }.

(** The wrappers that exist, by address. *)
Local Abbreviation heap := (gmap positive wrapper).

(** Line 237: a handle holds the address of its wrapper, or null. *)
Record locked_ptr_template (k_type : lock_type) : Type := LockedPtr {
  lock_wrapper_ : option positive
}.
Arguments LockedPtr {k_type} _.
Arguments lock_wrapper_ {k_type} _.

(** The address of the member [obj_] of the wrapper at an address. *)
Inductive obj_pointer : Set := obj_of (wrapper_address : positive).

Definition with_mutex (f : Mutex -> Mutex) (w : wrapper) : wrapper :=
  Wrapper (f (mutex_ w)) (obj_ w).

(** Lines 145-150: [None] when the wrapper does not exist or the call
    blocks. *)
Definition lock_ (k_type : lock_type) (this : positive) (h : heap)
  : option (locked_ptr_template k_type * heap) :=
  w ← h !! this;
  mutex ← lock_helper_lock k_type (mutex_ w);
  Some (LockedPtr (Some this), <[this := Wrapper mutex (obj_ w)]> h).

(** Lines 152-157. *)
Definition try_lock_ (k_type : lock_type) (this : positive) (h : heap)
  : option (locked_ptr_template k_type * heap) :=
  w ← h !! this;
  let '(ok, mutex) := lock_helper_try_lock k_type (mutex_ w) in
  Some (LockedPtr (if ok then Some this else None),
        <[this := Wrapper mutex (obj_ w)]> h).

(** Lines 197-202: the destructor. *)
Definition destroy {k_type : lock_type} (p : locked_ptr_template k_type) (h : heap)
  : heap :=
  match lock_wrapper_ p with
  | Some a => alter (with_mutex (lock_helper_unlock k_type)) a h
  | None => h
  end.

(** Line 224: [operator*]; undefined ([None]) on a null handle. *)
Definition star {k_type : lock_type} (p : locked_ptr_template k_type) (h : heap)
  : option T :=
  a ← lock_wrapper_ p; w ← h !! a; Some (obj_ w).

(** Line 226: [operator->]; [None] is [nullptr]. *)
Definition arrow {k_type : lock_type} (p : locked_ptr_template k_type)
  : option obj_pointer :=
  match lock_wrapper_ p with
  | Some a => Some (obj_of a)
  | None => None
  end.

(** What a pointer to a member [obj_] points at. *)
Definition pointee (q : obj_pointer) (h : heap) : option T :=
  match q with obj_of a => obj_ <$> h !! a end.

(** Following the spec: dropping a non-null handle releases the lock
    mode it holds on the lock of its wrapper, [unlock] for the two
    exclusive modes and [unlock_shared] for the shared one, and dropping
    a null handle releases nothing. *)
Definition release_mode (k_type : lock_type) (a : positive) (h : heap) : heap :=
  match h !! a with
  | Some w =>
      match k_type with
      | unique_mutable => <[a := Wrapper (mutex_unlock (mutex_ w)) (obj_ w)]> h
      | unique_const => <[a := Wrapper (mutex_unlock (mutex_ w)) (obj_ w)]> h
      | shared_const => <[a := Wrapper (mutex_unlock_shared (mutex_ w)) (obj_ w)]> h
      end
  | None => h
  end.

Definition drop_spec {k_type : lock_type} (p : locked_ptr_template k_type) (h : heap)
  : heap :=
  match lock_wrapper_ p with
  | Some a => release_mode k_type a h
  | None => h
  end.

End Wrapper.

Arguments wrapper : clear implicits.
Abbreviation heap T Mutex := (gmap positive (wrapper T Mutex)).
Arguments LockedPtr {k_type} _.
Arguments lock_wrapper_ {k_type} _.

End lock_wrapper.

(** ** What a call leaves in the counters *)

(** The addition an atomic operation makes to an atomic, before wrapping:
    the argument of a [fetch_add], minus that of a [fetch_sub], and
    [desired - expected] for a [compare_exchange_strong] that succeeds. *)
Definition effect (a : atom) (act : action) : Z :=
  match act_op act with
  | fetch_add a' d => if decide (a = a') then d else 0
  | fetch_sub a' d => if decide (a = a') then - d else 0
  | compare_exchange_strong a' expected desired =>
      if decide (a = a')
      then (if get (act_before act) a' =? expected then desired - expected else 0)
      else 0
  | _ => 0
  end.

Definition net (a : atom) (tr : list action) : Z :=
  foldr (fun act acc => effect a act + acc) 0 tr.

(** What a member adds to [writing_num_] and to [holding_num_], by its
    result. *)
Definition footprint (m : method) (r : option bool) : Z * Z :=
  match m with
  | m_lock | m_try_lock | m_try_lock_for =>
      match r with
      | Some true => (1, WRITING)
      | Some false => (0, 0)
      | None => (1, 0)
      end
  | m_unlock => (-1, - WRITING)
  | m_lock_shared | m_try_lock_shared | m_try_lock_shared_for =>
      match r with
      | Some true => (0, 1)
      | _ => (0, 0)
      end
  | m_unlock_shared => (0, -1)
  end.

(** A point other than the end of a blocking call that never was. *)
Definition live (p : pc) : Prop :=
  match p with fin _ None => False | _ => True end.

(** The operations that put the thread to sleep. *)
Definition parks (o : atomic_op) : bool :=
  match o with wait _ _ | wait_timeout _ _ => true | _ => false end.

(** The points of a timed call after a park of it has returned false. *)
Definition aborted (p : pc) : bool :=
  match p with
  | x_dec _ | x_notify _ | fin _ (Some false) => true
  | _ => false
  end.

(** [n] calls of [p] by one thread, one after the other: the values
    returned and the memory left. *)
Fixpoint repeat_call {A} (n : nat) (p : code A) (m : mem) : list A * mem :=
  match n with
  | O => ([], m)
  | S n' =>
      let '(a, m') := outcome p m in
      let '(l, m'') := repeat_call n' p m' in
      (a :: l, m'')
  end.

(** ** Handles in scope *)

Module locked_ptr.
Import lock_wrapper.

(** A [locked_ptr_template<k_type>] object: its mode and its member
    [lock_wrapper_]. *)
Record handle : Set := Handle { mode : lock_type; target : option positive }.

#[global] Instance lock_type_eq_dec : EqDecision lock_type.
Proof. solve_decision. Defined.

Definition is_unique (k : lock_type) : bool :=
  match k with shared_const => false | _ => true end.

(** How many handles own the lock of the wrapper at [a], exclusively and
    in shared mode. *)
Definition holds (a : positive) (unique : bool) (h : handle) : Z :=
  if decide (target h = Some a /\ is_unique (mode h) = unique) then 1 else 0.

Definition tally {A} (f : A -> Z) (l : list A) : Z :=
  foldr (fun x acc => f x + acc) 0 l.

Definition unique_owners (a : positive) (hs : list handle) : Z :=
  tally (holds a true) hs.

Definition shared_owners (a : positive) (hs : list handle) : Z :=
  tally (holds a false) hs.

Section Scope.
Context {T Mutex : Type} `{Lockable Mutex}.

(** The handle objects that are alive, in the order of their construction,
    and the wrappers. *)
Record scope : Type := Scope {
  objects : list handle;
  wrappers : gmap positive (wrapper T Mutex)
}.

(** Line 173: the default constructor. *)
Definition construct_null (k : lock_type) (sc : scope) : scope :=
  Scope (objects sc ++ [Handle k None]) (wrappers sc).

(** Line 228: [swap] of two handles of one type; they may be the same
    object. *)
Definition swap (i j : nat) (sc : scope) : option scope :=
  hi ← objects sc !! i;
  hj ← objects sc !! j;
  if decide (mode hi = mode hj)
  then Some (Scope (<[j := Handle (mode hj) (target hi)]>
                      (<[i := Handle (mode hi) (target hj)]> (objects sc)))
                   (wrappers sc))
  else None.

(** Lines 197-202: the end of the lifetime of a handle. *)
Definition destroy_at (i : nat) (sc : scope) : option scope :=
  hi ← objects sc !! i;
  Some (Scope (delete i (objects sc))
              (destroy (LockedPtr (k_type := mode hi) (target hi)) (wrappers sc))).

(** Lines 92, 110, 128 and 145-150: [lock], [lock_const] and [lock_shared]
    of the wrapper at [this], the handle they return kept in a variable. *)
Definition acquire (k : lock_type) (this : positive) (sc : scope) : option scope :=
  '(p, h) ← lock_ k this (wrappers sc);
  Some (Scope (objects sc ++ [Handle k (lock_wrapper_ p)]) h).

(** Lines 94, 112, 130 and 152-157: [try_lock], [try_lock_const] and
    [try_lock_shared]. *)
Definition try_acquire (k : lock_type) (this : positive) (sc : scope) : option scope :=
  '(p, h) ← try_lock_ k this (wrappers sc);
  Some (Scope (objects sc ++ [Handle k (lock_wrapper_ p)]) h).

(** Lines 179-186: the copy constructor, of shared handles only; it calls
    [lock_shared] on the mutex of the wrapper. *)
Definition copy_construct (o : nat) (sc : scope) : option scope :=
  ho ← objects sc !! o;
  match mode ho with
  | shared_const =>
      match target ho with
      | Some a =>
          w ← wrappers sc !! a;
          mutex ← mutex_lock_shared (mutex_ w);
          Some (Scope (objects sc ++ [Handle shared_const (Some a)])
                      (<[a := Wrapper mutex (obj_ w)]> (wrappers sc)))
      | None => Some (Scope (objects sc ++ [Handle shared_const None]) (wrappers sc))
      end
  | _ => None
  end.

(** Line 188: the move constructor. *)
Definition move_construct (o : nat) (sc : scope) : option scope :=
  ho ← objects sc !! o;
  swap (length (objects sc)) o (construct_null (mode ho) sc).

(** Lines 190-195: a [const_locked_ptr] from a [locked_ptr]. *)
Definition convert_construct (o : nat) (sc : scope) : option scope :=
  ho ← objects sc !! o;
  match mode ho with
  | unique_mutable =>
      Some (Scope (<[o := Handle unique_mutable None]> (objects sc)
                   ++ [Handle unique_const (target ho)])
                  (wrappers sc))
  | _ => None
  end.

(** Line 222: [reset]; the temporary dies at the end of the statement. *)
Definition reset (i : nat) (sc : scope) : option scope :=
  hi ← objects sc !! i;
  let temporary := length (objects sc) in
  sc ← swap temporary i (construct_null (mode hi) sc);
  destroy_at temporary sc.

(** Lines 216-220. *)
Definition assign_null (i : nat) (sc : scope) : option scope := reset i sc.

(** Lines 210-214: move assignment, [objects[i] = std::move(objects[o])]. *)
Definition move_assign (i o : nat) (sc : scope) : option scope :=
  hi ← objects sc !! i;
  let temporary := length (objects sc) in
  sc ← move_construct o sc;
  sc ← swap temporary i sc;
  destroy_at temporary sc.

(** Move assignment of a [locked_ptr] to a [const_locked_ptr]: the
    argument is a temporary made by the converting constructor. *)
Definition convert_assign (i o : nat) (sc : scope) : option scope :=
  let argument := length (objects sc) in
  sc ← convert_construct o sc;
  sc ← move_assign i argument sc;
  destroy_at argument sc.

(** Lines 204 and 206. *)
Definition to_bool (i : nat) (sc : scope) : option bool :=
  hi ← objects sc !! i; Some (bool_decide (target hi <> None)).

Definition equals_null (i : nat) (sc : scope) : option bool :=
  hi ← objects sc !! i; Some (bool_decide (target hi = None)).

(** A statement about handles. *)
Inductive statement : Set :=
| Acquire (k : lock_type) (this : positive)
| TryAcquire (k : lock_type) (this : positive)
| CopyConstruct (o : nat)
| MoveConstruct (o : nat)
| ConvertConstruct (o : nat)
| MoveAssign (i o : nat)
| ConvertAssign (i o : nat)
| ResetHandle (i : nat)
| SwapHandles (i j : nat)
| EndOfLife (i : nat).

Definition execute (s : statement) (sc : scope) : option scope :=
  match s with
  | Acquire k this => acquire k this sc
  | TryAcquire k this => try_acquire k this sc
  | CopyConstruct o => copy_construct o sc
  | MoveConstruct o => move_construct o sc
  | ConvertConstruct o => convert_construct o sc
  | MoveAssign i o => move_assign i o sc
  | ConvertAssign i o => convert_assign i o sc
  | ResetHandle i => reset i sc
  | SwapHandles i j => swap i j sc
  | EndOfLife i => destroy_at i sc
  end.

(** Runs statements while fewer than [limit] handles are alive. *)
Fixpoint execute_all (limit : Z) (ss : list statement) (sc : scope) : option scope :=
  match ss with
  | [] => Some sc
  | s :: ss' =>
      sc' ← execute s sc;
      if Z.of_nat (length (objects sc')) <? limit
      then execute_all limit ss' sc'
      else None
  end.

End Scope.

Arguments scope : clear implicits.

(** Every lock is what its handles make it: [writing_num_] counts the
    exclusive handles of the wrapper and [holding_num_] the shared ones,
    there is at most one exclusive handle, and none next to a shared one;
    no handle points at a wrapper that does not exist. *)
Definition owned_by_handles {T} (sc : scope T mem) : Prop :=
  forall a,
    match wrappers sc !! a with
    | Some w =>
        mutex_ w = Mem (unique_owners a (objects sc))
                       (WRITING * unique_owners a (objects sc)
                        + shared_owners a (objects sc))
        /\ unique_owners a (objects sc) <= 1
        /\ (unique_owners a (objects sc) = 1 -> shared_owners a (objects sc) = 0)
        /\ shared_owners a (objects sc) < uint32_modulus
    | None => unique_owners a (objects sc) = 0 /\ shared_owners a (objects sc) = 0
    end.

(** A statement keeps the locks with their handles and leaves the objects
    where they are. *)
Definition kept {T} (sc sc' : scope T mem) : Prop :=
  owned_by_handles sc'
  /\ forall a, obj_ <$> wrappers sc' !! a = obj_ <$> wrappers sc !! a.

End locked_ptr.

(** * Proofs *)

(** Linear arithmetic modulo [2^32]. *)
Ltac wrap_lia :=
  unfold wrap, is_uint32, uint32_modulus, WRITING, shared_mutex.k_writing_state in *;
  change (2 ^ 32) with 4294967296 in *;
  change (Z.shiftl 1 31) with 2147483648 in *;
  Z.div_mod_to_equations; lia.

(** Case analysis on the comparisons of the goal. *)
Ltac split_tests :=
  repeat match goal with
    | |- context [?a =? ?b] => destruct (Z.eqb_spec a b)
    | |- context [?a <? ?b] => destruct (Z.ltb_spec a b)
    end.

(** Case analysis on a program point, its kind, fuel and result. *)
Ltac each_pc p :=
  destruct p as [[] [|?]|[] [|?]|[] ? ?|[]|[]| | | | |[] [|?]|[] ?|[] ?|[] ? ?
                |[] ? ?|[] ? ?|[] ? ?| | | |[] [[]|]].

(** ** Sums over the points of the pool *)

Lemma total_cons f p ps : total f (p :: ps) = f p + total f ps.
Proof. reflexivity. Qed.

Section Totals.
Variables f g : pc -> Z.

Lemma total_app ps qs : total f (ps ++ qs) = total f ps + total f qs.
Proof.
  induction ps as [|p ps IH]; [reflexivity|].
  rewrite <- app_comm_cons, !total_cons, IH. lia.
Qed.

Lemma total_insert ps i p q :
  ps !! i = Some p -> total f (<[i:=q]> ps) = total f ps - f p + f q.
Proof.
  revert i. induction ps as [|p' ps IH]; intros [|i] Hi; try discriminate.
  - injection Hi as ->. cbn [list_insert insert]. rewrite !total_cons. lia.
  - change (<[S i:=q]> (p' :: ps)) with (p' :: <[i:=q]> ps).
    rewrite !total_cons, (IH i Hi). lia.
Qed.

Lemma total_delete ps i p :
  ps !! i = Some p -> total f (delete i ps) = total f ps - f p.
Proof.
  revert i. induction ps as [|p' ps IH]; intros [|i] Hi; try discriminate.
  - injection Hi as ->. change (delete 0%nat (p :: ps)) with ps.
    rewrite total_cons. lia.
  - change (delete (S i) (p' :: ps)) with (p' :: delete i ps).
    rewrite !total_cons, (IH i Hi). lia.
Qed.

Lemma total_mono ps : (forall p, f p <= g p) -> total f ps <= total g ps.
Proof.
  intros Hfg. induction ps as [|p ps IH]; [reflexivity|].
  rewrite !total_cons. specialize (Hfg p). lia.
Qed.

Lemma total_nonneg ps : (forall q, 0 <= f q) -> 0 <= total f ps.
Proof.
  intros Hf. induction ps as [|q ps IH]; [reflexivity|].
  rewrite total_cons. specialize (Hf q). lia.
Qed.

Lemma total_lookup_le ps i p :
  (forall q, 0 <= f q) -> ps !! i = Some p -> f p <= total f ps.
Proof.
  intros Hf. revert i. induction ps as [|p' ps IH]; intros [|i] Hi; try discriminate.
  - injection Hi as ->. rewrite total_cons. pose proof (total_nonneg ps Hf). lia.
  - rewrite total_cons. pose proof (IH i Hi). specialize (Hf p'). lia.
Qed.
End Totals.

(** ** The program points follow the member functions *)

Lemma shares_at p :
  0 <= owner_at p <= demand_at p /\ demand_at p <= uses_exclusive p <= 1
  /\ 0 <= granted_at p <= share_at p /\ share_at p <= uses_shared p <= 1
  /\ owner_at p + share_at p <= 1
  /\ uses_exclusive p + uses_shared p = 1.
Proof. each_pc p; cbn; lia. Qed.

Lemma code_at_entry m fuel : code_at (entry m fuel) = invoke m fuel.
Proof. destruct m; reflexivity. Qed.

Lemma code_at_finished p b : code_at p = Ret (Some b) -> p = fin (member_at p) (Some b).
Proof. each_pc p; cbn; try discriminate; intros [= <-]; reflexivity. Qed.

Lemma code_at_next p o k v : code_at p = Do o k -> k v = code_at (next p v).
Proof.
  intros Hp.
  each_pc p; try discriminate Hp; hnf in Hp; try discriminate Hp;
    injection Hp as <- <-; cbn [next s_resume];
    repeat match goal with |- context [if ?c then _ else _] => destruct c eqn:? end;
    try reflexivity;
    cbn; repeat match goal with E : ?c = _ |- context [?c] => rewrite E end; reflexivity.
Qed.

(** The effect of one atomic operation on the two counters, against the
    change of the shares of the thread that performs it. *)
Lemma step_local b p o k m :
  pc_ok p -> mem_ok m -> code_at p = Do o k ->
  let r := (perform b o m).1 in
  let m' := (perform b o m).2 in
  let p' := next p r in
  pc_ok p' /\ member_at p' = member_at p /\ mem_ok m'
  /\ writing_num m' = wrap (writing_num m + demand_at p' - demand_at p)
  /\ holding_num m' = wrap (holding_num m + WRITING * (owner_at p' - owner_at p) + share_at p' - share_at p)
  /\ (owner_at p < owner_at p' -> holding_num m = 0)
  /\ (granted_at p < granted_at p' -> writing_num m = 0)
  /\ incremented_at p' = incremented_at p || bool_decide (o = fetch_add writing_num_ 1)
  /\ decremented_at p' = decremented_at p || bool_decide (o = fetch_sub writing_num_ 1).
Proof.
  intros Hok Hm Hp. destruct m as [w h]. destruct Hm as [Hw Hh]. cbn in Hw, Hh.
  each_pc p; try discriminate Hp; hnf in Hp; try discriminate Hp;
    injection Hp as <- _; cbn in Hok |- *; try destruct b; cbn;
    split_tests; cbn; unfold mem_ok; cbn;
    repeat split; try reflexivity; try (intros; wrap_lia).
Qed.

(** ** The counters account for every call *)

Lemma totals_at ps :
  0 <= total owner_at ps <= total demand_at ps
  /\ total demand_at ps <= total uses_exclusive ps
  /\ 0 <= total granted_at ps <= total share_at ps
  /\ total share_at ps <= total uses_shared ps.
Proof.
  repeat split; try apply total_nonneg; try apply total_mono;
    intros p; pose proof (shares_at p); lia.
Qed.

Lemma capacity_totals pl ps :
  Forall2 tracks pl ps ->
  Z.of_nat (length (filter (fun t => acquires_shared (meth t) = true
                                      \/ meth t = m_unlock_shared) pl))
    = total uses_shared ps
  /\ Z.of_nat (length (filter (fun t => acquires_exclusive (meth t) = true
                                         \/ meth t = m_unlock) pl))
    = total uses_exclusive ps.
Proof.
  induction 1 as [|t p pl ps (_ & Hmeth & _) _ [IHs IHx]]; [done|].
  rewrite !filter_cons, !total_cons, <- IHs, <- IHx, Hmeth.
  unfold uses_shared, uses_exclusive.
  destruct (member_at p); repeat case_decide; cbn [length]; cbn in * |-;
    try (exfalso; intuition congruence); lia.
Qed.

Lemma within_capacity_totals st ps :
  Forall2 tracks (pool st) ps -> within_capacity st = true ->
  shared_held st + total uses_shared ps < WRITING
  /\ exclusive_held st + total uses_exclusive ps < uint32_modulus.
Proof.
  intros HF Hcap. destruct (capacity_totals _ _ HF) as [<- <-].
  unfold within_capacity, readers, writers in Hcap. lia.
Qed.

Lemma elem_of_snoc_decide (x o : atomic_op) l :
  bool_decide (x ∈ l ++ [o]) = bool_decide (x ∈ l) || bool_decide (o = x).
Proof.
  rewrite <- bool_decide_or. apply bool_decide_ext.
  rewrite elem_of_app, list_elem_of_singleton. intuition congruence.
Qed.

Lemma demands_demand_at t p : tracks t p -> (demands t = true <-> demand_at p = 1).
Proof.
  intros (_ & Hmeth & _ & Hinc & Hdec). unfold demands.
  rewrite Hmeth, Hinc, Hdec. each_pc p; cbn; done.
Qed.

Lemma total_positive f ps :
  0 < total f ps -> exists i p, ps !! i = Some p /\ 0 < f p.
Proof.
  induction ps as [|q ps IH]; [cbn; lia|]. rewrite total_cons. intros Hpos.
  destruct (Z.ltb_spec 0 (f q)) as [Hq|Hq].
  - exists 0%nat, q. done.
  - destruct IH as (i & p & Hp & Hf); [lia|]. exists (S i), p. done.
Qed.

Lemma wrap_is_uint32 x : is_uint32 (wrap x).
Proof. wrap_lia. Qed.

Lemma accounted_mem_ok st ps : accounted st ps -> mem_ok (cells st).
Proof.
  intros (_ & _ & _ & HW & HH). split; [rewrite HW|rewrite HH]; apply wrap_is_uint32.
Qed.

Lemma accounted_initial : accounted initial [] /\ one_owner initial [].
Proof.
  unfold accounted, one_owner, initial. cbn.
  split; [split; [constructor|]|]; repeat split; wrap_lia.
Qed.

Lemma tracks_entry m fuel : tracks (Thread m (invoke m fuel) []) (entry m fuel).
Proof.
  unfold tracks. cbn [rest meth past]. rewrite code_at_entry.
  destruct m; cbn; repeat split; try reflexivity.
Qed.

Section Preservation.
Variables (st st' : state) (ps : list pc).
Hypothesis Hacc : accounted st ps.

Lemma accounted_call m fuel :
  next_state (Call m fuel) st = Some st' ->
  accounted st' (ps ++ [entry m fuel])
  /\ (one_owner st ps -> one_owner st' (ps ++ [entry m fuel])).
Proof.
  destruct Hacc as (HF & He & Hs & HW & HH). intros Hnext.
  pose proof (tracks_entry m fuel) as Ht.
  pose proof (totals_at ps) as Hps.
  assert (Forall2 tracks (pool st ++ [Thread m (invoke m fuel) []])
            (ps ++ [entry m fuel])) as HF'
    by (apply Forall2_app; [done|by constructor]).
  unfold accounted, one_owner. rewrite !total_app.
  destruct m; cbn in Hnext;
    repeat match type of Hnext with
      | context [?a <? ?b] => destruct (Z.ltb_spec a b); [|discriminate]
      end;
    injection Hnext as <-; cbn [pool cells exclusive_held shared_held];
    cbn [entry total foldr owner_at demand_at share_at granted_at];
    (split; [split; [exact HF'|]|]);
    repeat split; try lia; try (rewrite ?HW, ?HH; f_equal; lia);
    intros [HX HG]; split; lia.
Qed.

Lemma accounted_advance b i t p o k :
  pool st !! i = Some t -> ps !! i = Some p -> rest t = Do o k ->
  let r := (perform b o (cells st)).1 in
  let st1 := State (perform b o (cells st)).2 (exclusive_held st) (shared_held st)
               (<[i := Thread (meth t) (k r) (past t ++ [o])]> (pool st)) in
  accounted st1 (<[i := next p r]> ps)
  /\ (one_owner st ps -> within_capacity st = true ->
      one_owner st1 (<[i := next p r]> ps)).
Proof.
  intros Ht Hp Hrest r st1.
  pose proof (accounted_mem_ok _ _ Hacc) as Hm.
  destruct Hacc as (HF & He & Hs & HW & HH).
  destruct (Forall2_lookup_lr _ _ _ _ _ _ HF Ht Hp) as (Hcode & Hmeth & Hok & Hinc & Hdec).
  rewrite Hrest in Hcode. symmetry in Hcode.
  destruct (step_local b p o k (cells st) Hok Hm Hcode)
    as (Hok' & Hmeth' & _ & HW' & HH' & Hown & Hgr & Hinc' & Hdec').
  fold r in Hok', Hmeth', HW', HH', Hown, Hgr, Hinc', Hdec'.
  assert (Forall2 tracks (pool st1) (<[i := next p r]> ps)) as HF'.
  { cbn [st1 pool]. apply Forall2_insert; [exact HF|].
    unfold tracks. cbn [rest meth past].
    rewrite (code_at_next p o k r Hcode), !elem_of_snoc_decide,
      Hinc, Hdec, Hmeth', Hinc', Hdec'.
    done. }
  unfold accounted, one_owner. cbn [st1 cells exclusive_held shared_held].
  rewrite !(total_insert _ _ _ _ _ Hp).
  pose proof (totals_at ps) as Hps.
  pose proof (totals_at (<[i := next p r]> ps)) as Hps'.
  rewrite !(total_insert _ _ _ _ _ Hp) in Hps'.
  pose proof (shares_at p) as Hsp. pose proof (shares_at (next p r)) as Hsp'.
  assert (owner_at p <= total owner_at ps)
    by (apply (total_lookup_le _ _ i); [intros q; pose proof (shares_at q); lia|done]).
  assert (granted_at p <= total granted_at ps)
    by (apply (total_lookup_le _ _ i); [intros q; pose proof (shares_at q); lia|done]).
  split.
  - split; [exact HF'|]. rewrite HW', HH', HW, HH.
    repeat split; try lia; wrap_lia.
  - intros [HX HG] Hcap.
    destruct (within_capacity_totals _ _ HF Hcap) as [Hrd Hwr].
    rewrite HW, HH in *.
    clear HW' HH' Hcode Hrest Hinc Hdec Hinc' Hdec' HF HF' Hcap.
    split; wrap_lia.
Qed.

Lemma accounted_return i t b :
  pool st !! i = Some t -> rest t = Ret (Some b) ->
  let st1 := State (cells st)
               (if b && acquires_exclusive (meth t)
                then exclusive_held st + 1 else exclusive_held st)
               (if b && acquires_shared (meth t)
                then shared_held st + 1 else shared_held st)
               (delete i (pool st)) in
  accounted st1 (delete i ps)
  /\ (one_owner st ps -> one_owner st1 (delete i ps)).
Proof.
  intros Ht Hrest st1. destruct Hacc as (HF & He & Hs & HW & HH).
  destruct (Forall2_lookup_l _ _ _ _ _ HF Ht) as (p & Hp & Hcode & Hmeth & _).
  rewrite Hrest in Hcode. symmetry in Hcode. apply code_at_finished in Hcode.
  rewrite <- Hmeth in Hcode.
  assert (Forall2 tracks (pool st1) (delete i ps)) as HF'
    by (cbn [st1 pool]; by apply Forall2_delete).
  unfold accounted, one_owner. cbn [st1 cells exclusive_held shared_held].
  rewrite !(total_delete _ _ _ _ Hp), HW, HH, Hcode. clear HW HH.
  pose proof (totals_at ps) as Hps.
  split; [split; [exact HF'|]|intros [HX HG]];
    destruct b, (meth t); cbn;
    repeat split; try lia; f_equal; lia.
Qed.

Lemma accounted_next e :
  next_state e st = Some st' ->
  accounted st' (points_after e st ps)
  /\ (one_owner st ps -> within_capacity st = true ->
      one_owner st' (points_after e st ps)).
Proof.
  intros Hnext. pose proof Hacc as (HF & _). destruct e as [m fuel|i|i|i].
  - destruct (accounted_call m fuel Hnext). auto.
  - cbn in Hnext |- *. destruct (pool st !! i) as [t|] eqn:Ht; [|discriminate].
    destruct (Forall2_lookup_l _ _ _ _ _ HF Ht) as (p & Hp & _). rewrite Hp.
    cbn in Hnext. unfold advance in Hnext.
    destruct (rest t) as [|o k] eqn:Hrest; [discriminate|].
    pose proof (accounted_advance true i t p o k Ht Hp Hrest) as Hadv.
    destruct (perform true o (cells st)) as [r m']. injection Hnext as <-. exact Hadv.
  - cbn in Hnext |- *. destruct (pool st !! i) as [t|] eqn:Ht; [|discriminate].
    destruct (Forall2_lookup_l _ _ _ _ _ HF Ht) as (p & Hp & _). rewrite Hp.
    cbn in Hnext. unfold advance in Hnext.
    destruct (rest t) as [|o k] eqn:Hrest; [discriminate|].
    destruct o; try discriminate.
    pose proof (accounted_advance false i t p _ k Ht Hp Hrest) as Hadv.
    cbn in Hadv, Hnext. injection Hnext as <-. exact Hadv.
  - cbn in Hnext |- *. destruct (pool st !! i) as [t|] eqn:Ht; [|discriminate].
    cbn in Hnext. destruct (rest t) as [[b|]|] eqn:Hrest; try discriminate.
    injection Hnext as <-.
    destruct (accounted_return i t b Ht Hrest). auto.
Qed.
End Preservation.

Lemma run_pool_accounted sched : forall st st' ps,
  accounted st ps -> run_pool unlimited sched st = Some st' ->
  accounted st' (points_along sched st ps).
Proof.
  induction sched as [|e sched IH]; intros st st' ps Hacc Hrun.
  - injection Hrun as <-. exact Hacc.
  - cbn in Hrun |- *. destruct (next_state e st) as [st1|] eqn:Hnext; [|discriminate].
    apply (IH st1); [|exact Hrun].
    by apply accounted_next.
Qed.

Lemma run_pool_unlimited accept sched : forall st st',
  run_pool accept sched st = Some st' -> run_pool unlimited sched st = Some st'.
Proof.
  induction sched as [|e sched IH]; intros st st' Hrun; [exact Hrun|].
  cbn in Hrun |- *. destruct (next_state e st) as [st1|]; [|discriminate].
  destruct (accept st1); [|discriminate]. by apply IH.
Qed.

Lemma run_pool_one_owner sched : forall st st' ps,
  accounted st ps -> one_owner st ps -> within_capacity st = true ->
  run_pool within_capacity sched st = Some st' ->
  within_capacity st' = true /\ one_owner st' (points_along sched st ps).
Proof.
  induction sched as [|e sched IH]; intros st st' ps Hacc Hone Hcap Hrun.
  - injection Hrun as <-. auto.
  - cbn in Hrun |- *. destruct (next_state e st) as [st1|] eqn:Hnext; [|discriminate].
    destruct (within_capacity st1) eqn:Hcap1; [|discriminate].
    destruct (accounted_next st st1 ps Hacc e Hnext) as [Hacc1 Hone1].
    apply (IH st1); auto.
Qed.

Lemma reachable_accounted sched st :
  run_pool unlimited sched initial = Some st ->
  accounted st (points_along sched initial []).
Proof. apply run_pool_accounted, accounted_initial. Qed.

(** [writing_num_] is positive exactly while some thread intends or holds
    exclusive ownership, as long as those threads fit the counter. *)
Lemma writing_num_counts_demand sched st :
  run_pool unlimited sched initial = Some st ->
  writers st < uint32_modulus ->
  0 < writing_num (cells st) <-> writer_demand st.
Proof.
  intros Hrun Hwr. destruct (reachable_accounted _ _ Hrun) as (HF & He & Hs & HW & _).
  set (ps := points_along sched initial []) in *.
  destruct (capacity_totals _ _ HF) as [_ Hex].
  unfold writers in Hwr. rewrite Hex in Hwr.
  pose proof (totals_at ps) as Hps.
  assert (writing_num (cells st) = total demand_at ps + exclusive_held st) as ->
    by (rewrite HW; wrap_lia).
  split.
  - intros Hpos. destruct (Z.ltb_spec 0 (exclusive_held st)) as [Hheld|Hnone]; [by left|].
    right. destruct (total_positive demand_at ps) as (i & p & Hp & Hd); [lia|].
    destruct (Forall2_lookup_r _ _ _ _ _ HF Hp) as (t & Ht & Htr).
    exists t. split; [by eapply list_elem_of_lookup_2|].
    apply (demands_demand_at _ _ Htr). pose proof (shares_at p). lia.
  - intros [Hheld|(t & Hin & Hd)]; [lia|].
    apply list_elem_of_lookup in Hin as [i Hi].
    destruct (Forall2_lookup_l _ _ _ _ _ HF Hi) as (p & Hp & Htr).
    apply (demands_demand_at _ _ Htr) in Hd.
    assert (demand_at p <= total demand_at ps)
      by (apply (total_lookup_le _ _ i); [intros q; pose proof (shares_at q); lia|done]).
    lia.
Qed.

Lemma reachable_one_owner sched st :
  run_pool within_capacity sched initial = Some st ->
  within_capacity st = true /\ one_owner st (points_along sched initial []).
Proof.
  apply run_pool_one_owner; [apply accounted_initial..|reflexivity].
Qed.

(** ** If every operation acted on the newest values

    The pool lets every atomic operation act on the newest values of the
    two counters, as sequentially consistent orders would.  Then the lock
    keeps its invariants; that the orders of the source do not give as
    much is shown further down. *)

(** On the newest values, within the capacity, at a quiescent point:
    [H < WRITING] implies that nobody holds the lock exclusively; an
    exclusive holder implies [H = WRITING] and [1 <= W]; and [W = 0]
    exactly when no thread intends or holds exclusive ownership. *)
Lemma invariants_on_newest_values sched st :
  run_pool within_capacity sched initial = Some st -> quiescent st ->
  lock_invariants st.
Proof.
  intros Hrun Hq. destruct (reachable_one_owner _ _ Hrun) as [Hcap [HX HG]].
  pose proof (reachable_accounted _ _ (run_pool_unlimited _ _ _ _ Hrun))
    as (HF & He & Hs & HW & HH).
  destruct (within_capacity_totals _ _ HF Hcap) as [Hrd Hwr].
  unfold quiescent in Hq. rewrite Hq in HF. apply Forall2_nil_inv_l in HF.
  rewrite HF in *. cbn [total foldr] in *.
  assert (writer_demand st <-> 0 < exclusive_held st) as Hdemand.
  { unfold writer_demand. rewrite Hq. split; [|by left].
    intros [Hheld|(t & Hin & _)]; [exact Hheld|]. by apply elem_of_nil in Hin. }
  unfold lock_invariants. rewrite Hdemand, HW, HH. clear HW HH Hdemand.
  repeat split; intros; wrap_lia.
Qed.

(** ** One call under interference *)

Lemma exec_bind {A B} (f : A -> code B) (p : code A) : forall env,
  exec (prog_bind f p) env
  = ((exec p env).1 ++ (exec (f (exec p env).2) (later (length (exec p env).1) env)).1,
     (exec (f (exec p env).2) (later (length (exec p env).1) env)).2).
Proof.
  induction p as [a|o k IH]; intros env.
  - cbn. destruct (exec (f a) _); reflexivity.
  - cbn [prog_bind exec]. cbv zeta. rewrite IH. reflexivity.
Qed.

Lemma try_lock_shared_result env :
  (exec shared_mutex.try_lock_shared env).2 = true
  <-> writing_num (seen env 0) = 0 /\ writing_num (seen env 2) = 0.
Proof.
  unfold seen. cbn.
  destruct (Z.eqb_spec (writing_num (env 0%nat).2) 0) as [Hw0|Hw0]; cbn.
  2:{ rewrite Z.eqb_eq. split; [contradiction|]. intros [? _]. contradiction. }
  destruct (Z.ltb_spec 0 (writing_num (env 2%nat).2)) as [Hw2|Hw2]; cbn.
  - rewrite !exec_bind. cbn. split; [|lia]. intros Hr. apply Z.eqb_eq in Hr. lia.
  - rewrite Z.eqb_eq. split; [auto|]. intros [_ Hz]. exact Hz.
Qed.

(** C2.  Whatever the other threads do in between, [try_lock_shared]
    returns true exactly when it reads 0 from [writing_num_] both at its
    first load and at the load that follows its increment of
    [holding_num_]; it increments [holding_num_] exactly when the first load
    reads 0; and when the second load reads a positive value it backs out
    and returns false: it decrements [holding_num_], and only if that
    decrement took it from 1 to 0 does it load [writing_num_] once more and
    call [notify_one] on [holding_num_] if it reads a positive value.  These
    are the operations of [unlock_shared]. *)
Theorem try_lock_shared_double_check env :
  let m0 := seen env 0 in
  let m1 := seen env 1 in
  let m2 := seen env 2 in
  let m3 := seen env 3 in
  let m4 := seen env 4 in
  let m5 := seen env 5 in
  let first := Action (load writing_num_) m0 m0 in
  let incr := Action (fetch_add holding_num_ 1) m1
                (set m1 holding_num_ (wrap (holding_num m1 + 1))) in
  let second := Action (load writing_num_) m2 m2 in
  let decr := Action (fetch_sub holding_num_ 1) m3
                (set m3 holding_num_ (wrap (holding_num m3 - 1))) in
  let third := Action (load writing_num_) m4 m4 in
  let notify := Action (notify_one holding_num_) m5 m5 in
  let back_out :=
    decr :: (if holding_num m3 =? 1
             then third :: (if 0 <? writing_num m4 then [notify] else [])
             else []) in
  let tr := (exec shared_mutex.try_lock_shared env).1 in
  let r := (exec shared_mutex.try_lock_shared env).2 in
  (r = true <-> writing_num m0 = 0 /\ writing_num m2 = 0)
  /\ ((exists a, a ∈ tr /\ act_op a = fetch_add holding_num_ 1) <-> writing_num m0 = 0)
  /\ (writing_num m0 <> 0 -> tr = [first])
  /\ (writing_num m0 = 0 -> writing_num m2 <= 0 -> tr = [first; incr; second])
  /\ (writing_num m0 = 0 -> 0 < writing_num m2 ->
      r = false
      /\ tr = [first; incr; second] ++ back_out
      /\ back_out = (exec shared_mutex.unlock_shared (later 3 env)).1).
Proof.
  unfold seen. cbn.
  destruct (Z.eqb_spec (writing_num (env 0%nat).2) 0) as [Hw0|Hw0]; cbn.
  2:{ repeat split; try done; try lia.
      intros (a & Ha & Hop). apply list_elem_of_singleton in Ha. subst a. discriminate. }
  assert (forall tl (m m' : mem),
             exists a, a ∈ Action (load writing_num_) (env 0%nat).2 (env 0%nat).2
                            :: Action (fetch_add holding_num_ 1) m m' :: tl
                       /\ act_op a = fetch_add holding_num_ 1) as Hincr.
  { intros. eexists. split; [apply list_elem_of_further, list_elem_of_here|reflexivity]. }
  destruct (Z.ltb_spec 0 (writing_num (env 2%nat).2)) as [Hw2|Hw2]; cbn.
  - rewrite !exec_bind. unfold later. cbn. rewrite !app_nil_r.
    destruct (holding_num (env 3%nat).2 =? 1); cbn;
      [destruct (0 <? writing_num (env 4%nat).2); cbn|];
      repeat split; try done; lia.
  - repeat split; try done; lia.
Qed.

Lemma try_lock_shared_double_check_witness :
  let env := fun i : nat => (false, if (i <? 2)%nat then Mem 0 0 else Mem 1 1) in
  (exec shared_mutex.try_lock_shared (fun i => (false, Mem 0 5))).2 = true
  /\ (exec shared_mutex.try_lock_shared env).2 = false
  /\ (exec shared_mutex.try_lock_shared env).1
     = [Action (load writing_num_) (Mem 0 0) (Mem 0 0);
        Action (fetch_add holding_num_ 1) (Mem 0 0) (Mem 0 1);
        Action (load writing_num_) (Mem 1 1) (Mem 1 1);
        Action (fetch_sub holding_num_ 1) (Mem 1 1) (Mem 1 0);
        Action (load writing_num_) (Mem 1 1) (Mem 1 1);
        Action (notify_one holding_num_) (Mem 1 1) (Mem 1 1)].
Proof.
  intros env. split.
  - apply (try_lock_shared_double_check (fun i => (false, Mem 0 5))). split; reflexivity.
  - destruct (try_lock_shared_double_check env) as (_ & _ & _ & _ & Hback).
    destruct Hback as (Hr & Htr & _); [reflexivity|cbn; lia|].
    split; [exact Hr|]. rewrite Htr. reflexivity.
Defined.

(** C3.  Whatever the other threads do in between, [try_lock] first
    increments [writing_num_]; it returns true exactly when its
    compare-and-swap of [holding_num_] from 0 to [WRITING] succeeds; when it
    fails, [try_lock] decrements [writing_num_], calls [notify_all] on it
    exactly when the decrement left 0 there, and returns false. *)
Theorem try_lock_increments_then_compares env :
  let m0 := seen env 0 in
  let m1 := seen env 1 in
  let m2 := seen env 2 in
  let m3 := seen env 3 in
  let incr := Action (fetch_add writing_num_ 1) m0
                (set m0 writing_num_ (wrap (writing_num m0 + 1))) in
  let cas m := Action (compare_exchange_strong holding_num_ 0 WRITING) m1 m in
  let decr := Action (fetch_sub writing_num_ 1) m2
                (set m2 writing_num_ (wrap (writing_num m2 - 1))) in
  let tr := (exec shared_mutex.try_lock env).1 in
  let r := (exec shared_mutex.try_lock env).2 in
  mem_ok m1 -> mem_ok m2 ->
  (r = true <-> holding_num m1 = 0)
  /\ (holding_num m1 = 0 -> tr = [incr; cas (set m1 holding_num_ WRITING)])
  /\ (holding_num m1 <> 0 ->
      r = false
      /\ tr = [incr; cas m1; decr]
              ++ (if wrap (writing_num m2 - 1) =? 0
                  then [Action (notify_all writing_num_) m3 m3] else [])).
Proof.
  unfold seen, mem_ok. cbn. intros [_ Hh1] [Hw2 _].
  destruct (Z.ltb_spec 0 (holding_num (env 1%nat).2)) as [Hh|Hh]; cbn.
  - destruct (Z.eqb_spec (holding_num (env 1%nat).2) 0); [lia|].
    destruct (Z.eqb_spec (writing_num (env 2%nat).2) 1) as [Hw|Hw]; cbn;
      (destruct (Z.eqb_spec (wrap (writing_num (env 2%nat).2 - 1)) 0);
       [try (exfalso; wrap_lia)|try (exfalso; wrap_lia)]);
      repeat split; try done; lia.
  - assert (holding_num (env 1%nat).2 = 0) as Hz by (unfold is_uint32 in Hh1; lia).
    rewrite Hz. cbn. repeat split; try done.
Qed.

Lemma try_lock_increments_then_compares_witness :
  (exec shared_mutex.try_lock (fun i => (false, Mem 0 0))).2 = true
  /\ (exec shared_mutex.try_lock (fun i => (false, Mem 1 3))).1
     = [Action (fetch_add writing_num_ 1) (Mem 1 3) (Mem 2 3);
        Action (compare_exchange_strong holding_num_ 0 WRITING) (Mem 1 3) (Mem 1 3);
        Action (fetch_sub writing_num_ 1) (Mem 1 3) (Mem 0 3);
        Action (notify_all writing_num_) (Mem 1 3) (Mem 1 3)].
Proof.
  assert (mem_ok (Mem 0 0)) as Hfree by (repeat split; cbn; wrap_lia).
  assert (mem_ok (Mem 1 3)) as Hheld by (repeat split; cbn; wrap_lia).
  split.
  - apply (try_lock_increments_then_compares (fun i => (false, Mem 0 0)) Hfree Hfree).
    reflexivity.
  - apply (try_lock_increments_then_compares (fun i => (false, Mem 1 3)) Hheld Hheld).
    cbn. lia.
Defined.

(** C5.  Whatever the other threads do in between, [unlock] subtracts
    [WRITING] from [holding_num_], then decrements [writing_num_], then
    calls [notify_all] on [writing_num_] if the decrement left 0 there and
    [notify_one] on [holding_num_] otherwise. *)
Theorem unlock_releases_then_notifies env :
  let m0 := seen env 0 in
  let m1 := seen env 1 in
  let m2 := seen env 2 in
  mem_ok m1 ->
  (exec shared_mutex.unlock env).1
  = [Action (fetch_sub holding_num_ WRITING) m0
       (set m0 holding_num_ (wrap (holding_num m0 - WRITING)));
     Action (fetch_sub writing_num_ 1) m1
       (set m1 writing_num_ (wrap (writing_num m1 - 1)));
     Action (if wrap (writing_num m1 - 1) =? 0
             then notify_all writing_num_
             else notify_one holding_num_) m2 m2].
Proof.
  unfold seen, mem_ok. cbn. intros [Hw1 _].
  destruct (Z.eqb_spec (writing_num (env 1%nat).2) 1) as [Hw|Hw]; cbn;
    (destruct (Z.eqb_spec (wrap (writing_num (env 1%nat).2 - 1)) 0);
     [try (exfalso; wrap_lia)|try (exfalso; wrap_lia)]);
    reflexivity.
Qed.

Lemma unlock_releases_then_notifies_witness :
  (exec shared_mutex.unlock (fun i => (false, Mem 2 WRITING))).1
  = [Action (fetch_sub holding_num_ WRITING) (Mem 2 WRITING) (Mem 2 0);
     Action (fetch_sub writing_num_ 1) (Mem 2 WRITING) (Mem 1 WRITING);
     Action (notify_one holding_num_) (Mem 2 WRITING) (Mem 2 WRITING)].
Proof.
  apply (unlock_releases_then_notifies (fun i => (false, Mem 2 WRITING))).
  repeat split; cbn; wrap_lia.
Defined.

(** C6.  From the initial state, [lock] followed by [unlock], with nothing
    in between, ends in the initial state: [W = 0] and [H = 0]. *)
Theorem lock_unlock_round_trip (fuel : nat) :
  (0 < fuel)%nat ->
  outcome (shared_mutex.lock fuel) (Mem 0 0) = (Some tt, Mem 1 WRITING)
  /\ outcome shared_mutex.unlock (Mem 1 WRITING) = (tt, Mem 0 0)
  /\ run_pool within_capacity
       [Call m_lock fuel; Step 0; Step 0; Return 0;
        Call m_unlock 0; Step 0; Step 0; Step 0; Return 0] initial
     = Some initial.
Proof.
  destruct fuel as [|fuel]; [lia|]. intros _. repeat split.
Qed.

Lemma lock_unlock_round_trip_witness :
  outcome (shared_mutex.lock 1) (Mem 0 0) = (Some tt, Mem 1 WRITING)
  /\ outcome shared_mutex.unlock (Mem 1 WRITING) = (tt, Mem 0 0).
Proof.
  destruct (lock_unlock_round_trip 1) as (Hlock & Hunlock & _); [lia|].
  split; assumption.
Defined.

(** ** The scenarios of the test suite, one thread at a time *)

Example fresh_lock :
  outcome shared_mutex.try_lock (Mem 0 0) = (true, Mem 1 WRITING)
  /\ outcome shared_mutex.unlock (Mem 1 WRITING) = (tt, Mem 0 0)
  /\ outcome shared_mutex.try_lock_shared (Mem 0 0) = (true, Mem 0 1)
  /\ outcome shared_mutex.unlock_shared (Mem 0 1) = (tt, Mem 0 0).
Proof. repeat split. Qed.

Example cannot_lock_when_unique_locked :
  outcome shared_mutex.try_lock (Mem 1 WRITING) = (false, Mem 1 WRITING)
  /\ outcome shared_mutex.try_lock_shared (Mem 1 WRITING) = (false, Mem 1 WRITING).
Proof. repeat split. Qed.

Example cannot_unique_lock_until_all_shared_unlocked :
  outcome (shared_mutex.lock_shared 1) (Mem 0 0) = (Some tt, Mem 0 1)
  /\ outcome (shared_mutex.lock_shared 1) (Mem 0 1) = (Some tt, Mem 0 2)
  /\ outcome shared_mutex.unlock_shared (Mem 0 2) = (tt, Mem 0 1)
  /\ outcome shared_mutex.try_lock (Mem 0 1) = (false, Mem 0 1)
  /\ outcome shared_mutex.unlock_shared (Mem 0 1) = (tt, Mem 0 0)
  /\ outcome shared_mutex.try_lock (Mem 0 0) = (true, Mem 1 WRITING).
Proof. repeat split. Qed.

(** Alone, [lock] never returns from a lock that is held: whatever the
    fuel, its loop is still running when the fuel is spent. *)
Lemma lock_blocks_while_held fuel m :
  0 < holding_num m ->
  outcome (shared_mutex.lock fuel) m
  = (None, set m writing_num_ (wrap (writing_num m + 1))).
Proof.
  intros Hheld. unfold outcome, shared_mutex.lock. cbn.
  generalize (wrap (writing_num m + 1)). intros w.
  induction fuel as [|fuel IH]; [reflexivity|]. cbn in IH |- *.
  destruct (Z.eqb_spec (holding_num m) 0) as [Hz|_]; [lia|].
  destruct (Z.ltb_spec 0 (holding_num m)) as [_|Hn]; [|lia]. cbn.
  destruct (run _ _) as [[r m'] tr]. cbn in IH |- *. exact IH.
Qed.

(** ** Writer priority on the newest values *)

Lemma not_granted_in_flight p o k :
  code_at p = Do o k -> acquires_shared (member_at p) = true -> granted_at p = 0.
Proof. each_pc p; cbn; try discriminate; reflexivity. Qed.

Lemma granted_when_finished p :
  code_at p = Ret (Some true) -> acquires_shared (member_at p) = true -> granted_at p = 1.
Proof.
  intros Hp Hm. rewrite (code_at_finished _ _ Hp) in Hm |- *. cbn in Hm |- *.
  rewrite Hm. reflexivity.
Qed.

(** On the newest values, no step of a shared acquisition ends it with a
    grant while [writing_num_] is positive. *)
Lemma advance_grants_only_without_demand b i t st st' ps t' :
  accounted st ps -> pool st !! i = Some t -> acquires_shared (meth t) = true ->
  advance b i t st = Some st' -> pool st' !! i = Some t' ->
  rest t' = Ret (Some true) -> writing_num (cells st) = 0.
Proof.
  intros Hc Ht Hacq Hadv Ht' Hrest'.
  pose proof (accounted_mem_ok _ _ Hc) as Hm. destruct Hc as (HF & _).
  destruct (Forall2_lookup_l _ _ _ _ _ HF Ht) as (p & Hp & Hcode & Hmeth & Hok & _).
  unfold advance in Hadv. destruct (rest t) as [|o k] eqn:Hrest; [discriminate|].
  symmetry in Hcode.
  destruct (step_local b p o k (cells st) Hok Hm Hcode)
    as (_ & Hmeth' & _ & _ & _ & _ & Hgr & _).
  destruct (perform b o (cells st)) as [r m'] eqn:Hperf. injection Hadv as <-.
  cbn [pool] in Ht'. rewrite list_lookup_insert_eq in Ht' by (by eapply lookup_lt_Some).
  injection Ht' as <-. cbn [rest] in Hrest'.
  rewrite (code_at_next p o k r Hcode) in Hrest'. cbn [fst snd] in *.
  apply Hgr. rewrite Hmeth in Hacq.
  rewrite (not_granted_in_flight _ _ _ Hcode Hacq).
  rewrite (granted_when_finished _ Hrest') by (by rewrite Hmeth'). lia.
Qed.

(** ** Under the memory orders of the source *)

Lemma latest_append s a v V : latest (append s a (Message v V)) = set (latest s) a v.
Proof. destruct a; unfold latest, append, newest; cbn; rewrite last_last; reflexivity. Qed.

(** A read-modify-write acts on the newest values. *)
Lemma rmw_latest b o a V s :
  set (latest s) a (get (perform b o (latest s)).2 a) = (perform b o (latest s)).2 ->
  (rmw b o a V s).1.1 = (perform b o (latest s)).1
  /\ latest (rmw b o a V s).2 = (perform b o (latest s)).2
  /\ exists msg, (rmw b o a V s).2 = append s a msg
       /\ msg_value msg = get (perform b o (latest s)).2 a.
Proof.
  intros Hset. unfold rmw. cbn [fst snd]. rewrite latest_append, Hset.
  repeat split. eexists. split; reflexivity.
Qed.

Lemma as_state_insert s e g ts i t v :
  as_state (WeakState s e g (<[i := WeakThread t v]> ts))
  = State (latest s) e g (<[i := t]> (running <$> ts)).
Proof. unfold as_state. cbn. by rewrite list_fmap_insert. Qed.

Lemma as_state_lookup st i : pool (as_state st) !! i = running <$> threads st !! i.
Proof. unfold as_state. cbn [pool]. apply list_lookup_fmap. Qed.

(** A step of the machine is a step of the pool on the newest values, or a
    read of a logged value that leaves the cells as they are. *)
Lemma weak_next_cases e st st' :
  weak_next e st = Some st' ->
  (next_state (erase e) (as_state st) = Some (as_state st')
   /\ (logs st' = logs st
       \/ exists a msg, logs st' = append (logs st) a msg
            /\ msg_value msg = get (latest (logs st')) a))
  \/ (exists i n t o k a msg v,
        e = WeakStep i n /\ threads st !! i = Some t /\ rest (running t) = Do o k
        /\ log (logs st) a !! n = Some msg
        /\ (perform true o (set (latest (logs st)) a (msg_value msg))).2
           = set (latest (logs st)) a (msg_value msg)
        /\ bool_decide (o = fetch_add writing_num_ 1) = false
        /\ bool_decide (o = fetch_sub writing_num_ 1) = false
        /\ st' = WeakState (logs st) (exclusive_grants st) (shared_grants st)
                   (<[i := WeakThread
                            (Thread (meth (running t))
                               (k (perform true o
                                     (set (latest (logs st)) a (msg_value msg))).1)
                               (past (running t) ++ [o])) v]> (threads st))).
Proof.
  assert (forall i t o k r m',
    threads st !! i = Some t -> rest (running t) = Do o k ->
    perform true o (latest (logs st)) = (r, m') ->
    next_state (Step i) (as_state st)
    = Some (State m' (exclusive_grants st) (shared_grants st)
              (<[i := Thread (meth (running t)) (k r) (past (running t) ++ [o])]>
                 (running <$> threads st)))) as Hstep.
  { intros i t o k r m' Ht Hrest Hp. cbn [next_state].
    rewrite as_state_lookup, Ht. cbn. unfold advance. cbn [rest]. rewrite Hrest.
    cbn [cells as_state]. rewrite Hp. reflexivity. }
  destruct e as [m fuel v|i n|i|i]; cbn [weak_next]; intros Hnext.
  - destruct (within v (logs st)); [|discriminate]. left.
    destruct m; cbn [erase next_state as_state exclusive_held shared_held] in *;
      repeat match type of Hnext with
        | context [?a <? ?b] => destruct (a <? b); [|discriminate]
        end;
      injection Hnext as <-; unfold as_state; cbn; rewrite fmap_app; auto.
  - destruct (threads st !! i) as [t|] eqn:Ht; [|discriminate].
    cbn [mbind option_bind] in Hnext. unfold weak_advance in Hnext.
    destruct (rest (running t)) as [|o k] eqn:Hrest; [discriminate|].
    destruct (weak_perform true n o (knows t) (logs st)) as [[[r v] s]|] eqn:Hperf;
      [|discriminate].
    cbn [mbind option_bind] in Hnext. injection Hnext as <-. cbn [erase].
    assert (forall a,
      rmw true o a (knows t) (logs st) = (r, v, s) ->
      set (latest (logs st)) a (get (perform true o (latest (logs st))).2 a)
        = (perform true o (latest (logs st))).2 ->
      forall st',
      st' = WeakState s (exclusive_grants st) (shared_grants st)
             (<[i := WeakThread (Thread (meth (running t)) (k r) (past (running t) ++ [o])) v]>
                (threads st)) ->
      next_state (Step i) (as_state st) = Some (as_state st')
      /\ (logs st' = logs st
          \/ exists a msg, logs st' = append (logs st) a msg
               /\ msg_value msg = get (latest (logs st')) a))
      as Hrmw.
    { intros a Heq Hset st' ->.
      destruct (rmw_latest true o a (knows t) (logs st) Hset) as (Hr & Hm & msg & Hs & Hv).
      rewrite Heq in Hr, Hm, Hs. cbn [fst snd] in Hr, Hm, Hs. split.
      - rewrite as_state_insert, Hm, Hr. apply Hstep; [done..|].
        destruct (perform true o (latest (logs st))); reflexivity.
      - right. exists a, msg. cbn [logs]. split; [exact Hs|].
        rewrite Hv, Hm. reflexivity. }
    assert (forall st',
      st' = WeakState s (exclusive_grants st) (shared_grants st)
             (<[i := WeakThread (Thread (meth (running t)) (k r) (past (running t) ++ [o])) v]>
                (threads st)) ->
      s = logs st -> perform true o (latest (logs st)) = (r, latest (logs st)) ->
      next_state (Step i) (as_state st) = Some (as_state st')
      /\ (logs st' = logs st
          \/ exists a msg, logs st' = append (logs st) a msg
               /\ msg_value msg = get (latest (logs st')) a))
      as Hsame.
    { intros st' -> -> Hp. split; [|by left].
      rewrite as_state_insert. by apply Hstep. }
    destruct o as [a d|a d|a|a expected desired|a old|a old|a|a]; cbn [weak_perform] in Hperf.
    + left. apply (inj Some) in Hperf. apply (Hrmw a Hperf); [|reflexivity].
      destruct a, (latest (logs st)); reflexivity.
    + left. apply (inj Some) in Hperf. apply (Hrmw a Hperf); [|reflexivity].
      destruct a, (latest (logs st)); reflexivity.
    + right. unfold read_at in Hperf.
      destruct (log (logs st) a !! n) as [msg|] eqn:Hn; [|discriminate].
      cbn [mbind option_bind] in Hperf.
      destruct (vget (knows t) a <=? n)%nat; [|discriminate].
      injection Hperf as <- <- <-.
      exists i, n, t, (load a), k, a, msg. eexists. done.
    + destruct (log (logs st) a !! n) as [msg|] eqn:Hn; [|discriminate].
      cbn [mbind option_bind] in Hperf.
      destruct (Z.eqb_spec (msg_value msg) expected) as [Hv|Hv].
      * case_decide as Hlen; [|discriminate]. left. apply (inj Some) in Hperf.
        apply (Hrmw a Hperf); [|reflexivity].
        destruct a, (latest (logs st)); cbn; destruct (_ =? _); reflexivity.
      * right. unfold read_at in Hperf. rewrite Hn in Hperf.
        cbn [mbind option_bind] in Hperf.
        destruct (vget (knows t) a <=? n)%nat; [|discriminate].
        injection Hperf as <- <- <-.
        exists i, n, t, (compare_exchange_strong a expected desired), k, a, msg.
        eexists. repeat split; try done.
        cbn [perform snd].
        replace (get (set (latest (logs st)) a (msg_value msg)) a) with (msg_value msg)
          by (destruct a; reflexivity).
        destruct (Z.eqb_spec (msg_value msg) expected); [contradiction|reflexivity].
    + left. injection Hperf as <- <- <-. by apply Hsame.
    + left. injection Hperf as <- <- <-. by apply Hsame.
    + left. injection Hperf as <- <- <-. by apply Hsame.
    + left. injection Hperf as <- <- <-. by apply Hsame.
  - destruct (threads st !! i) as [t|] eqn:Ht; [|discriminate].
    cbn [mbind option_bind] in Hnext.
    destruct (rest (running t)) as [|o k] eqn:Hrest; [discriminate|].
    destruct o; try discriminate.
    unfold weak_advance in Hnext. rewrite Hrest in Hnext. cbn in Hnext.
    injection Hnext as <-. left. split; [|by left]. rewrite as_state_insert.
    cbn [erase next_state]. rewrite as_state_lookup, Ht. cbn. rewrite Hrest.
    unfold advance. cbn [rest]. rewrite Hrest. reflexivity.
  - destruct (threads st !! i) as [t|] eqn:Ht; [|discriminate].
    cbn [mbind option_bind] in Hnext.
    destruct (rest (running t)) as [[b|]|] eqn:Hrest; try discriminate.
    injection Hnext as <-. left. split; [|by left].
    cbn [erase next_state]. rewrite as_state_lookup, Ht. cbn. rewrite Hrest.
    unfold as_state. cbn. rewrite list_fmap_delete. reflexivity.
Qed.

(** At most one call or grant owns the lock exclusively, whatever the
    readers do. *)
Lemma owner_next st st' ps e :
  accounted st ps -> total owner_at ps + exclusive_held st <= 1 ->
  within_capacity st = true -> next_state e st = Some st' ->
  total owner_at (points_after e st ps) + exclusive_held st' <= 1.
Proof.
  intros Hacc HX Hcap Hnext. pose proof (accounted_mem_ok _ _ Hacc) as Hm.
  destruct Hacc as (HF & He & Hs & HW & HH).
  destruct (within_capacity_totals _ _ HF Hcap) as [Hrd Hwr].
  pose proof (totals_at ps) as Hps.
  destruct e as [m fuel|i|i|i]; cbn [points_after].
  - rewrite total_app.
    destruct m; cbn in Hnext;
      repeat match type of Hnext with
        | context [?a <? ?b] => destruct (Z.ltb_spec a b); [|discriminate]
        end;
      injection Hnext as <-; cbn; lia.
  - cbn in Hnext. destruct (pool st !! i) as [t|] eqn:Ht; [|discriminate].
    destruct (Forall2_lookup_l _ _ _ _ _ HF Ht) as (p & Hp & Hcode & _ & Hok & _).
    rewrite Hp. cbn in Hnext. unfold advance in Hnext.
    destruct (rest t) as [|o k] eqn:Hrest; [discriminate|]. symmetry in Hcode.
    destruct (step_local true p o k (cells st) Hok Hm Hcode)
      as (_ & _ & _ & _ & _ & Hown & _).
    destruct (perform true o (cells st)) as [r m'] eqn:Hperf. injection Hnext as <-.
    cbn [fst snd exclusive_held] in *. rewrite (total_insert _ _ _ _ _ Hp).
    pose proof (shares_at p) as Hsp. pose proof (shares_at (next p r)) as Hsp'.
    assert (owner_at p <= total owner_at ps)
      by (apply (total_lookup_le _ _ i); [intros q; pose proof (shares_at q); lia|done]).
    rewrite HH in Hown. clear HW HH Hcode Hrest HF Hcap Hperf. wrap_lia.
  - cbn in Hnext. destruct (pool st !! i) as [t|] eqn:Ht; [|discriminate].
    destruct (Forall2_lookup_l _ _ _ _ _ HF Ht) as (p & Hp & Hcode & _ & Hok & _).
    rewrite Hp. cbn in Hnext.
    destruct (rest t) as [|o k] eqn:Hrest; [discriminate|]. symmetry in Hcode.
    destruct o; try discriminate. unfold advance in Hnext. rewrite Hrest in Hnext.
    destruct (step_local false p _ k (cells st) Hok Hm Hcode)
      as (_ & _ & _ & _ & _ & Hown & _).
    cbn in Hnext. injection Hnext as <-.
    cbn [perform fst snd exclusive_held] in *. rewrite (total_insert _ _ _ _ _ Hp).
    pose proof (shares_at p) as Hsp. pose proof (shares_at (next p 0)) as Hsp'.
    assert (owner_at p <= total owner_at ps)
      by (apply (total_lookup_le _ _ i); [intros q; pose proof (shares_at q); lia|done]).
    rewrite HH in Hown. clear HW HH Hcode Hrest HF Hcap. wrap_lia.
  - cbn in Hnext. destruct (pool st !! i) as [t|] eqn:Ht; [|discriminate].
    destruct (Forall2_lookup_l _ _ _ _ _ HF Ht) as (p & Hp & Hcode & Hmeth & _).
    cbn in Hnext. destruct (rest t) as [[b|]|] eqn:Hrest; try discriminate.
    injection Hnext as <-. symmetry in Hcode. apply code_at_finished in Hcode.
    rewrite <- Hmeth in Hcode. cbn [exclusive_held].
    rewrite (total_delete _ _ _ _ Hp), Hcode.
    destruct b, (meth t); cbn; lia.
Qed.

(** A read of a logged value moves the thread that makes it and nothing
    else. *)
Lemma stale_read_accounted st ps i t o k a x v :
  accounted (as_state st) ps ->
  threads st !! i = Some t -> rest (running t) = Do o k -> is_uint32 x ->
  (perform true o (set (latest (logs st)) a x)).2 = set (latest (logs st)) a x ->
  bool_decide (o = fetch_add writing_num_ 1) = false ->
  bool_decide (o = fetch_sub writing_num_ 1) = false ->
  exists ps',
    accounted
      (as_state (WeakState (logs st) (exclusive_grants st) (shared_grants st)
         (<[i := WeakThread
                  (Thread (meth (running t))
                     (k (perform true o (set (latest (logs st)) a x)).1)
                     (past (running t) ++ [o])) v]> (threads st)))) ps'
    /\ total owner_at ps' = total owner_at ps.
Proof.
  intros Hacc Ht Hrest Hx Hsame Hinc0 Hdec0.
  pose proof (accounted_mem_ok _ _ Hacc) as Hm.
  destruct Hacc as (HF & He & Hs & HW & HH).
  assert (pool (as_state st) !! i = Some (running t)) as Hrun
    by (rewrite as_state_lookup, Ht; reflexivity).
  destruct (Forall2_lookup_l _ _ _ _ _ HF Hrun) as (p & Hp & Hcode & Hmeth & Hok & Hinc & Hdec).
  rewrite Hrest in Hcode. symmetry in Hcode.
  set (mv := set (latest (logs st)) a x) in *.
  assert (mem_ok mv) as Hmv.
  { destruct Hm as [Hmw Hmh]. cbn [cells as_state] in Hmw, Hmh.
    subst mv. destruct a; split; cbn; assumption. }
  destruct (step_local true p o k mv Hok Hmv Hcode)
    as (Hok' & Hmeth' & _ & HW' & HH' & _ & _ & Hinc' & Hdec').
  set (r := (perform true o mv).1) in *. rewrite Hsame in HW', HH'.
  pose proof (shares_at p) as Hsp. pose proof (shares_at (next p r)) as Hsp'.
  destruct Hmv as [Hmw Hmh].
  assert (demand_at (next p r) = demand_at p) as Hd by (clear HH' HW HH; wrap_lia).
  assert (owner_at (next p r) = owner_at p /\ share_at (next p r) = share_at p)
    as [Ho Hsh] by (clear HW' HW HH; wrap_lia).
  exists (<[i := next p r]> ps). rewrite as_state_insert.
  unfold accounted. cbn [cells exclusive_held shared_held pool].
  rewrite !(total_insert _ _ _ _ _ Hp), Hd, Ho, Hsh.
  cbn [cells exclusive_held shared_held as_state] in He, Hs, HW, HH.
  split; [|lia]. split.
  - apply Forall2_insert; [exact HF|]. unfold tracks. cbn [rest meth past].
    rewrite (code_at_next p o k r Hcode), !elem_of_snoc_decide,
      Hinc, Hdec, Hmeth', Hinc', Hdec', Hinc0, Hdec0, !orb_false_r.
    done.
  - repeat split; try assumption; rewrite ?HW, ?HH; f_equal; lia.
Qed.

Lemma logged_append s a msg :
  logged s -> is_uint32 (msg_value msg) -> logged (append s a msg).
Proof.
  intros Hl Hv a' msg' Hin.
  assert (msg' ∈ log s a' \/ msg' = msg) as [Hold| ->]; [|by apply (Hl a')|exact Hv].
  destruct a, a'; cbn in Hin; try apply elem_of_app in Hin as [Hin|Hin]; auto;
    apply list_elem_of_singleton in Hin; auto.
Qed.

Lemma weak_next_accounted e st st' ps :
  weakly_accounted st ps -> within_capacity (as_state st) = true ->
  weak_next e st = Some st' -> exists ps', weakly_accounted st' ps'.
Proof.
  intros (Hacc & HX & Hlog) Hcap Hnext.
  destruct (weak_next_cases _ _ _ Hnext)
    as [[Hsc Hlogs]|(i & n & t & o & k & a & msg & v & -> & Ht & Hrest & Hn & Hsame
                      & Hinc & Hdec & ->)].
  - exists (points_after (erase e) (as_state st) ps).
    destruct (accounted_next _ _ _ Hacc _ Hsc) as [Hacc' _].
    pose proof (owner_next _ _ _ _ Hacc HX Hcap Hsc) as HX'.
    split; [exact Hacc'|]. split; [exact HX'|].
    destruct Hlogs as [->|(a & msg & Hl & Hv)]; [exact Hlog|].
    rewrite Hl. apply logged_append; [exact Hlog|]. rewrite Hv.
    destruct (accounted_mem_ok _ _ Hacc') as [Hmw Hmh].
    destruct a; [exact Hmw|exact Hmh].
  - assert (is_uint32 (msg_value msg)) as Hv
      by (apply (Hlog a); by eapply list_elem_of_lookup_2).
    destruct (stale_read_accounted st ps i t o k a (msg_value msg) v
                Hacc Ht Hrest Hv Hsame Hinc Hdec) as (ps' & Hacc' & Hown).
    exists ps'. split; [exact Hacc'|]. split; [|exact Hlog].
    rewrite Hown. exact HX.
Qed.

Lemma run_weak_accounted sched : forall st st' ps,
  weakly_accounted st ps -> within_capacity (as_state st) = true ->
  run_weak within_capacity sched st = Some st' ->
  within_capacity (as_state st') = true /\ exists ps', weakly_accounted st' ps'.
Proof.
  induction sched as [|e sched IH]; intros st st' ps Hacc Hcap Hrun.
  - injection Hrun as <-. eauto.
  - cbn in Hrun. destruct (weak_next e st) as [st1|] eqn:Hnext; [|discriminate].
    destruct (within_capacity (as_state st1)) eqn:Hcap1; [|discriminate].
    destruct (weak_next_accounted _ _ _ _ Hacc Hcap Hnext) as [ps1 Hacc1].
    by apply (IH st1 st' ps1).
Qed.

Lemma weakly_accounted_initial : weakly_accounted weak_initial [].
Proof.
  split; [apply accounted_initial|]. split; [cbn; lia|].
  intros a msg Hin.
  destruct a; cbn in Hin; apply list_elem_of_singleton in Hin as ->; cbn; wrap_lia.
Qed.

(** C1 on the code.  Under the memory orders the source asks for, the
    invariants do not hold at every quiescent point.  A reader calls
    [try_lock_shared] and reads 0 from [writing_num_]; a writer calls
    [try_lock], increments [writing_num_], swaps [holding_num_] from 0 to
    [WRITING] and returns true; the reader increments [holding_num_], reads
    [writing_num_] again, and is handed the 0 it has read before, as none of
    the operations involved is a release that would make the increment of
    the writer visible to it; it returns true.  Both calls have returned:
    the lock is held exclusively and shared at once, with [H = WRITING + 1],
    against I2.  The second load of lines 138-142 is there to exclude just
    this. *)
Theorem reader_granted_beside_writer :
  exists st,
    run_weak within_capacity reader_beside_writer weak_initial = Some st
    /\ quiescent (as_state st)
    /\ exclusive_held (as_state st) = 1
    /\ shared_held (as_state st) = 1
    /\ cells (as_state st) = Mem 1 (WRITING + 1)
    /\ ~ lock_invariants (as_state st).
Proof.
  eexists. split; [vm_compute; reflexivity|].
  repeat split. intros (_ & I2 & _). cbn in I2. destruct I2 as [I2 _]; [lia|].
  discriminate I2.
Qed.


(** ** The guarded wrapper *)

Section WrapperFacts.
Import lock_wrapper.
Context {T Mutex : Type} `{Lockable Mutex}.

Lemma alter_present (f : wrapper T Mutex -> wrapper T Mutex) a w (h : heap T Mutex) :
  h !! a = Some w -> alter f a h = <[a := f w]> h.
Proof.
  intros Hw. apply map_eq. intros b. destruct (decide (a = b)) as [<-|Hne].
  - rewrite lookup_alter_eq, lookup_insert_eq, Hw. reflexivity.
  - rewrite lookup_alter_ne, lookup_insert_ne by done. reflexivity.
Qed.

Lemma alter_absent (f : wrapper T Mutex -> wrapper T Mutex) a (h : heap T Mutex) :
  h !! a = None -> alter f a h = h.
Proof.
  intros Hw. apply map_eq. intros b. destruct (decide (a = b)) as [<-|Hne].
  - rewrite lookup_alter_eq, Hw. reflexivity.
  - rewrite lookup_alter_ne by done. reflexivity.
Qed.

(** C7.  The destructor of a handle does what the spec says of a drop:
    on a non-null handle it calls [unlock] on the lock of the wrapper
    for the two exclusive modes and [unlock_shared] for the shared mode,
    and leaves everything else as it is; on a null handle it releases
    nothing. *)
Theorem destroy_releases_held_mode (k_type : lock_type)
    (p : locked_ptr_template k_type) (h : heap T Mutex) :
  destroy p h = drop_spec p h
  /\ (lock_wrapper_ p = None -> destroy p h = h)
  /\ (forall a w, lock_wrapper_ p = Some a -> h !! a = Some w ->
      destroy p h
      = <[a := Wrapper (match k_type with
                        | shared_const => mutex_unlock_shared (mutex_ w)
                        | _ => mutex_unlock (mutex_ w)
                        end) (obj_ w)]> h).
Proof.
  unfold destroy, drop_spec, release_mode. destruct p as [[a|]]; cbn.
  - destruct (h !! a) as [w|] eqn:Hw.
    + rewrite (alter_present _ _ _ _ Hw). unfold with_mutex, lock_helper_unlock.
      repeat split; try done.
      * destruct k_type; reflexivity.
      * intros a' w' [= <-]. rewrite Hw. intros [= <-]. destruct k_type; reflexivity.
    + rewrite (alter_absent _ _ _ Hw). repeat split; try done.
      intros a' w' [= <-]. rewrite Hw. discriminate.
  - repeat split; try done.
Qed.

(** C10.  In every mode, [operator->] of a null handle is [nullptr], and
    of a non-null handle the address of the object of its wrapper, which
    is what [operator*] reads; [operator*] of a null handle is
    undefined. *)
Theorem arrow_guards_null (k_type : lock_type) (a : positive) (h : heap T Mutex) :
  arrow (LockedPtr (k_type := k_type) None) = None
  /\ arrow (LockedPtr (k_type := k_type) (Some a)) = Some (obj_of a)
  /\ pointee (obj_of a) h = obj_ <$> h !! a
  /\ star (LockedPtr (k_type := k_type) (Some a)) h = pointee (obj_of a) h
  /\ star (LockedPtr (k_type := k_type) None) h = None.
Proof.
  repeat split.
Qed.
End WrapperFacts.

(** Dropping the handle of a [slontia::shared_mutex] wrapper gives back what
    the acquisition took. *)
Example drop_after_lock :
  let h : lock_wrapper.heap nat mem := {[ 1%positive := lock_wrapper.Wrapper (Mem 0 0) 7%nat ]} in
  (lock_wrapper.lock_ lock_wrapper.unique_mutable 1%positive h
     ≫= fun '(p, h') => Some (lock_wrapper.destroy p h')) = Some h
  /\ (lock_wrapper.lock_ lock_wrapper.shared_const 1%positive h
        ≫= fun '(p, h') => Some (lock_wrapper.destroy p h')) = Some h.
Proof. split; vm_compute; reflexivity. Qed.

(** ** The parking primitive *)

Lemma fits_int64_spec x : fits_int64 x = true <-> - 2 ^ 63 <= x < 2 ^ 63.
Proof. unfold fits_int64. rewrite andb_true_iff, Z.leb_le, Z.ltb_lt. reflexivity. Qed.

(** [duration_cast] between positive periods: the count times the quotient
    of the periods, truncated; defined at least when the count times the
    numerator of the quotient, not reduced, fits 64 bits. *)
Lemma duration_cast_some to_num to_den d :
  0 < period_num d -> 0 < period_den d -> 0 < to_num -> 0 < to_den ->
  - 2 ^ 63 <= count d * (period_num d * to_den) < 2 ^ 63 ->
  duration_cast to_num to_den d
  = Some (Z.quot (count d * (period_num d * to_den)) (period_den d * to_num)).
Proof.
  intros Hn Hd Htn Htd Hfit. unfold duration_cast.
  set (a := period_num d * to_den) in *. set (b := period_den d * to_num).
  assert (0 < a) as Ha by (subst a; nia). assert (0 < b) as Hb by (subst b; nia).
  pose proof (Z.gcd_nonneg a b) as Hg0.
  assert (Z.gcd a b <> 0) as Hg by (intros Hz; apply Z.gcd_eq_0_l in Hz; lia).
  destruct (Z.gcd_divide_l a b) as [a' Ha']. destruct (Z.gcd_divide_r a b) as [b' Hb'].
  set (g := Z.gcd a b) in *.
  assert (a / g = a') as -> by (rewrite Ha' at 1; apply Z.div_mul; exact Hg).
  assert (b / g = b') as -> by (rewrite Hb' at 1; apply Z.div_mul; exact Hg).
  assert (0 < a') as Ha0 by nia. assert (0 < b') as Hb0 by nia.
  assert (fits_int64 (count d * a') = true) as ->.
  { apply fits_int64_spec. rewrite Ha' in Hfit. nia. }
  f_equal. rewrite Ha', Hb', Z.mul_assoc. symmetry. apply Z.quot_mul_cancel_r; lia.
Qed.





(** C9 on the code.  On Linux there is no case for a duration that is not
    positive: [wait_for] reads the clock and makes the futex call.  With
    the cell at the expected value 5, a duration of 0 ms and the steady
    clock at 7.5 s, the kernel receives 7 as the address of its timeout; it
    cannot read it, and the call returns false, the thread not parked.  With
    the clock below one second the address is null, which is no timeout:
    the thread parks, and without a wake-up it does not return. *)
Theorem linux_zero_wait_does_not_compare :
  os_run (Os 5 7500000000 true unreadable) (Linux.wait_for 5 (Duration 0 1 1000))
  = (Some (Some false), [now steady_clock; sys_futex FUTEX_WAIT 5 7 500000000], false)
  /\ os_run (Os 5 300000000 false unreadable) (Linux.wait_for 5 (Duration 0 1 1000))
     = (None, [now steady_clock; sys_futex FUTEX_WAIT 5 0 300000000], true).
Proof. split; vm_compute; reflexivity. Qed.

(** * Further properties *)

(** ** The lock between calls *)

(** X1.  Under the memory orders the source asks for, whatever the
    interleaving and whatever values the loads are handed, as long as the
    capacity is respected: at most one exclusive grant is outstanding; while
    [holding_num_] is below [WRITING] there is none (I1); and while there is
    one, [holding_num_] is at least [WRITING] and [writing_num_] at least
    1, in their newest values. *)
Theorem at_most_one_exclusive_grant sched st :
  run_weak within_capacity sched weak_initial = Some st ->
  0 <= exclusive_grants st <= 1
  /\ 0 <= shared_grants st
  /\ (holding_num (latest (logs st)) < WRITING -> exclusive_grants st = 0)
  /\ (exclusive_grants st = 1 ->
      WRITING <= holding_num (latest (logs st)) /\ 1 <= writing_num (latest (logs st))).
Proof.
  intros Hrun.
  destruct (run_weak_accounted _ _ _ _ weakly_accounted_initial eq_refl Hrun)
    as (Hcap & ps & (HF & He & Hs & HW & HH) & HX & _).
  destruct (within_capacity_totals _ _ HF Hcap) as [Hrd Hwr].
  pose proof (totals_at ps) as Hps.
  cbn [as_state cells exclusive_held shared_held] in *.
  rewrite HW, HH. clear HW HH HF Hcap Hrun.
  repeat split; try lia; intros; wrap_lia.
Qed.

Lemma at_most_one_exclusive_grant_witness :
  exists st,
    run_weak within_capacity reader_beside_writer weak_initial = Some st
    /\ exclusive_grants st = 1
    /\ WRITING <= holding_num (latest (logs st)) /\ 1 <= writing_num (latest (logs st)).
Proof.
  destruct (run_weak within_capacity reader_beside_writer weak_initial) as [st|] eqn:Hrun;
    [|vm_compute in Hrun; discriminate].
  exists st. split; [reflexivity|].
  assert (exclusive_grants st = 1) as He
    by (vm_compute in Hrun; injection Hrun as <-; reflexivity).
  split; [exact He|].
  apply (at_most_one_exclusive_grant reader_beside_writer st Hrun). exact He.
Defined.


(** X2.  At a quiescent point, within the capacity, the two counters are
    exactly the outstanding grants: [writing_num_] is the number of
    exclusive grants and [holding_num_] is [WRITING] times that number plus
    the number of shared grants. *)
Theorem counters_count_grants sched st :
  run_pool within_capacity sched initial = Some st -> quiescent st ->
  cells st = Mem (exclusive_held st)
                 (WRITING * exclusive_held st + shared_held st).
Proof.
  intros Hrun Hq. destruct (reachable_one_owner _ _ Hrun) as [Hcap [HX HG]].
  pose proof (reachable_accounted _ _ (run_pool_unlimited _ _ _ _ Hrun))
    as (HF & He & Hs & HW & HH).
  destruct (within_capacity_totals _ _ HF Hcap) as [Hrd Hwr].
  unfold quiescent in Hq. rewrite Hq in HF. apply Forall2_nil_inv_l in HF.
  rewrite HF in *. cbn [total foldr] in *.
  destruct (cells st) as [w h]. cbn in HW, HH. f_equal; [rewrite HW|rewrite HH]; wrap_lia.
Qed.

Lemma counters_count_grants_witness :
  let sched := [Call m_lock_shared 1; Step 0; Step 0; Step 0; Return 0;
                Call m_try_lock_shared 0; Step 0; Step 0; Step 0; Return 0] in
  run_pool within_capacity sched initial = Some (State (Mem 0 2) 0 2 [])
  /\ cells (State (Mem 0 2) 0 2 []) = Mem 0 (WRITING * 0 + 2).
Proof.
  intros sched.
  assert (run_pool within_capacity sched initial = Some (State (Mem 0 2) 0 2 []))
    as Hrun by reflexivity.
  split; [exact Hrun|]. exact (counters_count_grants sched _ Hrun eq_refl).
Defined.



(** X4.  Whatever happened before, beyond the capacity as well, once every
    call has returned and every grant has been released the lock is as it
    was at the start. *)
Theorem released_lock_is_free sched st :
  run_pool unlimited sched initial = Some st -> quiescent st ->
  exclusive_held st = 0 -> shared_held st = 0 ->
  st = initial.
Proof.
  intros Hrun Hq He0 Hs0.
  pose proof (reachable_accounted _ _ Hrun) as (HF & He & Hs & HW & HH).
  unfold quiescent in Hq. rewrite Hq in HF. apply Forall2_nil_inv_l in HF.
  destruct st as [[w h] e s pl].
  cbn [exclusive_held shared_held pool cells writing_num holding_num] in *.
  subst. rewrite HF. reflexivity.
Qed.

Lemma released_lock_is_free_witness :
  let sched := [Call m_try_lock_for 3; Step 0; Step 0; Return 0;
                Call m_lock_shared 2; Step 0;
                Call m_unlock 0; Step 1; Step 1; Step 1; Return 1;
                Step 0; Step 0; Step 0; Step 0; Return 0;
                Call m_unlock_shared 0; Step 0; Step 0; Return 0] in
  run_pool unlimited sched initial = Some initial.
Proof.
  intros sched.
  assert (run_pool unlimited sched initial = Some (State (Mem 0 0) 0 0 []))
    as Hrun by (vm_compute; reflexivity).
  rewrite Hrun. apply f_equal.
  exact (released_lock_is_free sched _ Hrun eq_refl eq_refl eq_refl).
Defined.

(** X5.  Within the capacity, at every point of every interleaving, with
    calls in flight or not: [writing_num_] is at least the number of
    exclusive grants and at most the number of exclusive calls held or in
    flight; the low 31 bits of [holding_num_] are at least the number of
    shared grants and at most the number of shared calls held or in
    flight; and bit 31 of [holding_num_] is set whenever the lock is held
    exclusively, so that [H < WRITING] rules an exclusive holder out. *)
Theorem counters_in_flight sched st :
  run_pool within_capacity sched initial = Some st ->
  exclusive_held st <= writing_num (cells st) <= writers st
  /\ shared_held st <= holding_num (cells st) mod WRITING <= readers st
  /\ (holding_num (cells st) < WRITING -> exclusive_held st = 0)
  /\ (0 < exclusive_held st -> WRITING <= holding_num (cells st)).
Proof.
  intros Hrun. destruct (reachable_one_owner _ _ Hrun) as [Hcap [HX HG]].
  pose proof (reachable_accounted _ _ (run_pool_unlimited _ _ _ _ Hrun))
    as (HF & He & Hs & HW & HH).
  set (ps := points_along sched initial []) in *.
  destruct (within_capacity_totals _ _ HF Hcap) as [Hrd Hwr].
  destruct (capacity_totals _ _ HF) as [Hsh Hex].
  pose proof (totals_at ps) as Hps.
  unfold writers, readers. rewrite Hsh, Hex, HW, HH. clear HW HH Hsh Hex HF.
  assert (total owner_at ps + exclusive_held st = 0
          \/ total owner_at ps + exclusive_held st = 1) as [Hz|Ho] by lia.
  - rewrite Hz. repeat split; try wrap_lia.
  - rewrite Ho. repeat split; try wrap_lia.
Qed.

Lemma counters_in_flight_witness :
  let sched := [Call m_lock_shared 1; Step 0; Step 0; Step 0; Return 0;
                Call m_lock 2; Step 0; Step 0; Call m_try_lock_shared 0; Step 1] in
  exists st,
    run_pool within_capacity sched initial = Some st
    /\ exclusive_held st <= writing_num (cells st) <= writers st
    /\ shared_held st <= holding_num (cells st) mod WRITING <= readers st.
Proof.
  intros sched.
  assert (run_pool within_capacity sched initial
          = Some (default initial (run_pool within_capacity sched initial))) as Hrun
    by (vm_compute; reflexivity).
  eexists. split; [exact Hrun|].
  destruct (counters_in_flight sched _ Hrun) as (HW & HH & _). split; assumption.
Defined.

(** ** One thread, call after call *)

(** Case analysis on the comparisons a run meets. *)
Ltac run_cases :=
  repeat (cbn; match goal with
               | |- context [?a =? ?b] => destruct (Z.eqb_spec a b)
               | |- context [?a <? ?b] => destruct (Z.ltb_spec a b)
               end); cbn.

Lemma repeat_call_succ {A} n (p : code A) m a m' :
  outcome p m = (a, m') ->
  repeat_call (S n) p m = (a :: (repeat_call n p m').1, (repeat_call n p m').2).
Proof. intros Hp. cbn [repeat_call]. rewrite Hp. by destruct (repeat_call n p m'). Qed.

Lemma repeat_acquire_shared {A} (p : code A) (a : A) n :
  (forall h, 0 <= h < uint32_modulus - 1 -> outcome p (Mem 0 h) = (a, Mem 0 (h + 1))) ->
  forall h, 0 <= h -> h + Z.of_nat n < uint32_modulus ->
  repeat_call n p (Mem 0 h) = (replicate n a, Mem 0 (h + Z.of_nat n)).
Proof.
  intros Hp. induction n as [|n IH]; intros h Hh Hn.
  - cbn. rewrite Z.add_0_r. reflexivity.
  - rewrite (repeat_call_succ n p _ a (Mem 0 (h + 1))) by (apply Hp; lia).
    rewrite IH by lia. cbn [fst snd replicate]. do 2 f_equal. lia.
Qed.

Lemma repeat_unlock_shared n : forall h,
  Z.of_nat n <= h < uint32_modulus ->
  repeat_call n shared_mutex.unlock_shared (Mem 0 h)
  = (replicate n tt, Mem 0 (h - Z.of_nat n)).
Proof.
  induction n as [|n IH]; intros h Hh.
  - cbn. rewrite Z.sub_0_r. reflexivity.
  - rewrite (repeat_call_succ n _ _ tt (Mem 0 (h - 1))).
    + rewrite IH by lia. cbn [fst snd replicate]. do 2 f_equal. lia.
    + unfold outcome. cbn. destruct (Z.eqb_spec h 1); cbn; do 2 f_equal; wrap_lia.
Qed.

(** X6.  With no writer around, [n] shared acquisitions in a row, by
    [try_lock_shared] or by [lock_shared], all succeed and add [n] to
    [holding_num_], as long as the counter does not wrap; [n] calls of
    [unlock_shared] then take it back to where it was. *)
Theorem shared_acquisitions_round_trip (n fuel : nat) (h : Z) :
  0 <= h -> h + Z.of_nat n < uint32_modulus ->
  repeat_call n shared_mutex.try_lock_shared (Mem 0 h)
  = (replicate n true, Mem 0 (h + Z.of_nat n))
  /\ repeat_call n (shared_mutex.lock_shared (S fuel)) (Mem 0 h)
     = (replicate n (Some tt), Mem 0 (h + Z.of_nat n))
  /\ repeat_call n shared_mutex.unlock_shared (Mem 0 (h + Z.of_nat n))
     = (replicate n tt, Mem 0 h).
Proof.
  intros Hh Hn. repeat split.
  - apply repeat_acquire_shared; [|done..]. intros h' Hh'.
    unfold outcome. cbn. do 2 f_equal. wrap_lia.
  - apply repeat_acquire_shared; [|done..]. intros h' Hh'.
    unfold outcome. cbn. do 2 f_equal. wrap_lia.
  - rewrite repeat_unlock_shared by lia. do 2 f_equal. lia.
Qed.

Lemma shared_acquisitions_round_trip_witness :
  repeat_call 3 shared_mutex.try_lock_shared (Mem 0 2) = ([true; true; true], Mem 0 5)
  /\ repeat_call 3 shared_mutex.unlock_shared (Mem 0 5) = ([tt; tt; tt], Mem 0 2).
Proof.
  destruct (shared_acquisitions_round_trip 3 0 2) as (Hacq & _ & Hrel);
    [lia|reflexivity|].
  split; [exact Hacq|exact Hrel].
Defined.

Lemma lock_shared_blocks fuel m :
  0 < writing_num m -> outcome (shared_mutex.lock_shared fuel) m = (None, m).
Proof.
  intros Hw. unfold outcome, shared_mutex.lock_shared.
  induction fuel as [|fuel IH]; [reflexivity|]. destruct m as [w h]. cbn in Hw, IH |- *.
  destruct (Z.eqb_spec w 0) as [Hz|_]; [lia|]. cbn.
  destruct (Z.ltb_spec 0 w) as [_|Hn]; [|lia]. cbn.
  destruct (run _ _) as [[r m'] tr]. cbn in IH |- *. exact IH.
Qed.

(** X7.  A blocking call of a thread that runs alone is decided at its
    first attempt.  [lock] increments [writing_num_] and returns with
    [holding_num_] set to [WRITING] exactly when [holding_num_] was 0;
    otherwise it never returns, however long it loops, and its increment
    stays.  [lock_shared] returns, [holding_num_] incremented, exactly when
    [writing_num_] was 0; otherwise it never returns and changes nothing. *)
Theorem blocking_calls_alone (fuel : nat) (m : mem) :
  mem_ok m ->
  outcome (shared_mutex.lock (S fuel)) m
  = (if holding_num m =? 0 then Some tt else None,
     Mem (wrap (writing_num m + 1)) (if holding_num m =? 0 then WRITING else holding_num m))
  /\ outcome (shared_mutex.lock_shared (S fuel)) m
     = (if writing_num m =? 0 then Some tt else None,
        Mem (writing_num m)
            (if writing_num m =? 0 then wrap (holding_num m + 1) else holding_num m)).
Proof.
  intros [Hw Hh]. split.
  - destruct (Z.eqb_spec (holding_num m) 0) as [Hz|Hnz].
    + destruct m as [w h]. cbn in Hz. subst h. reflexivity.
    + rewrite lock_blocks_while_held by (unfold is_uint32 in Hh; lia).
      destruct m; reflexivity.
  - destruct (Z.eqb_spec (writing_num m) 0) as [Hz|Hnz].
    + destruct m as [w h]. cbn in Hz. subst w. reflexivity.
    + rewrite lock_shared_blocks by (unfold is_uint32 in Hw; lia).
      destruct m; reflexivity.
Qed.

Lemma blocking_calls_alone_witness :
  outcome (shared_mutex.lock 5) (Mem 0 2) = (None, Mem 1 2)
  /\ outcome (shared_mutex.lock_shared 5) (Mem 1 2) = (None, Mem 1 2).
Proof.
  assert (mem_ok (Mem 0 2)) as Ha by (split; cbn; wrap_lia).
  assert (mem_ok (Mem 1 2)) as Hb by (split; cbn; wrap_lia).
  split.
  - exact (proj1 (blocking_calls_alone 4 (Mem 0 2) Ha)).
  - exact (proj2 (blocking_calls_alone 4 (Mem 1 2) Hb)).
Defined.

(** X8.  A timed call whose park returns false ends like the
    corresponding try call: alone, [try_lock_for] and [try_lock_until]
    return what
    [try_lock] returns and leave the counters as it leaves them, and so do
    [try_lock_shared_for] and [try_lock_shared_until] with
    [try_lock_shared].  On a lock that is held the exclusive call makes
    these operations and no other: it increments [writing_num_], fails its
    compare-and-swap, parks once on [holding_num_], takes its increment of
    [writing_num_] back, calls [notify_all] if that left 0 there, and
    returns false; with a writer around the shared call loads
    [writing_num_], parks once on it and returns false without a write. *)
Theorem timed_calls_alone (fuel : nat) (m : mem) :
  mem_ok m ->
  outcome (shared_timed_mutex.try_lock_for (S fuel)) m
  = (Some (outcome shared_mutex.try_lock m).1, (outcome shared_mutex.try_lock m).2)
  /\ outcome (shared_timed_mutex.try_lock_shared_for (S fuel)) m
     = (Some (outcome shared_mutex.try_lock_shared m).1,
        (outcome shared_mutex.try_lock_shared m).2)
  /\ (0 < holding_num m ->
      outcome (shared_timed_mutex.try_lock_for (S fuel)) m = (Some false, m)
      /\ (run (shared_timed_mutex.try_lock_for (S fuel)) m).2
         = [fetch_add writing_num_ 1;
            compare_exchange_strong holding_num_ 0 WRITING;
            wait_timeout holding_num_ (holding_num m);
            fetch_sub writing_num_ 1]
           ++ (if wrap (writing_num m + 1) =? 1 then [notify_all writing_num_] else []))
  /\ (0 < writing_num m ->
      outcome (shared_timed_mutex.try_lock_shared_for (S fuel)) m = (Some false, m)
      /\ (run (shared_timed_mutex.try_lock_shared_for (S fuel)) m).2
         = [load writing_num_; wait_timeout writing_num_ (writing_num m)]).
Proof.
  intros [Hw Hh]. destruct m as [w h]. cbn in Hw, Hh |- *.
  unfold outcome.
  repeat split; try intros Hpos; run_cases;
    try reflexivity; try (exfalso; wrap_lia); try (do 2 f_equal; wrap_lia);
    try set_solver.
Qed.

Lemma timed_calls_alone_witness :
  outcome (shared_timed_mutex.try_lock_for 2) (Mem 0 3) = (Some false, Mem 0 3)
  /\ (run (shared_timed_mutex.try_lock_for 2) (Mem 0 3)).2
     = [fetch_add writing_num_ 1;
        compare_exchange_strong holding_num_ 0 WRITING;
        wait_timeout holding_num_ 3;
        fetch_sub writing_num_ 1;
        notify_all writing_num_]
  /\ outcome (shared_timed_mutex.try_lock_shared_for 2) (Mem 1 WRITING)
     = (Some false, Mem 1 WRITING).
Proof.
  assert (mem_ok (Mem 0 3)) as Ha by (split; cbn; wrap_lia).
  assert (mem_ok (Mem 1 WRITING)) as Hb by (split; cbn; wrap_lia).
  destruct (timed_calls_alone 1 (Mem 0 3) Ha) as (_ & _ & Hx & _).
  destruct Hx as [Hres Htrace]; [cbn; lia|].
  split; [exact Hres|]. split; [exact Htrace|].
  apply (timed_calls_alone 1 (Mem 1 WRITING) Hb). cbn. lia.
Defined.

(** ** What a call leaves in the counters *)

(** X9.  Whatever the other threads do in between, [unlock_shared]
    decrements [holding_num_]; only if that decrement took it from 1 to 0
    does it load [writing_num_], and it calls [notify_one] on
    [holding_num_] exactly when it then reads a positive value.  It never
    writes [writing_num_]. *)
Theorem unlock_shared_wakes_a_writer env :
  let m0 := seen env 0 in
  let m1 := seen env 1 in
  let m2 := seen env 2 in
  let tr := (exec shared_mutex.unlock_shared env).1 in
  tr = Action (fetch_sub holding_num_ 1) m0
         (set m0 holding_num_ (wrap (holding_num m0 - 1)))
       :: (if holding_num m0 =? 1
           then Action (load writing_num_) m1 m1
                :: (if 0 <? writing_num m1
                    then [Action (notify_one holding_num_) m2 m2] else [])
           else [])
  /\ ((exists a, a ∈ tr /\ act_op a = notify_one holding_num_)
      <-> holding_num m0 = 1 /\ 0 < writing_num m1)
  /\ (forall a, a ∈ tr -> writing_num (act_after a) = writing_num (act_before a)).
Proof.
  unfold seen. cbn.
  destruct (Z.eqb_spec (holding_num (env 0%nat).2) 1) as [Hh|Hh]; cbn;
    [destruct (Z.ltb_spec 0 (writing_num (env 1%nat).2)) as [Hw|Hw]; cbn|];
    (split; [reflexivity|]); split;
    try (intros a Ha; repeat (apply elem_of_cons in Ha as [->|Ha]);
         [reflexivity..|by apply elem_of_nil in Ha]).
  - split; [done|]. intros _. eexists.
    split; [do 2 apply list_elem_of_further; apply list_elem_of_here|reflexivity].
  - split; [|lia]. intros (a & Ha & Hop).
    repeat (apply elem_of_cons in Ha as [->|Ha]); try discriminate.
    by apply elem_of_nil in Ha.
  - split; [|lia]. intros (a & Ha & Hop).
    repeat (apply elem_of_cons in Ha as [->|Ha]); try discriminate.
    by apply elem_of_nil in Ha.
Qed.

Lemma unlock_shared_wakes_a_writer_witness :
  (exec shared_mutex.unlock_shared (fun i => (false, Mem 1 1))).1
  = [Action (fetch_sub holding_num_ 1) (Mem 1 1) (Mem 1 0);
     Action (load writing_num_) (Mem 1 1) (Mem 1 1);
     Action (notify_one holding_num_) (Mem 1 1) (Mem 1 1)].
Proof.
  exact (proj1 (unlock_shared_wakes_a_writer (fun i => (false, Mem 1 1)))).
Defined.

(** The effect of one atomic operation, against the change of the shares
    of the thread that performs it. *)
Lemma step_effect b p o k m :
  pc_ok p -> mem_ok m -> code_at p = Do o k ->
  let r := (perform b o m).1 in
  let m' := (perform b o m).2 in
  let p' := next p r in
  live p'
  /\ effect writing_num_ (Action o m m') = demand_at p' - demand_at p
  /\ effect holding_num_ (Action o m m')
     = WRITING * (owner_at p' - owner_at p) + share_at p' - share_at p
  /\ (forall a, get m' a = wrap (get m a + effect a (Action o m m'))).
Proof.
  intros Hok Hm Hp. destruct m as [w h]. destruct Hm as [Hw Hh]. cbn in Hw, Hh.
  each_pc p; try discriminate Hp; hnf in Hp; try discriminate Hp;
    injection Hp as <- _; cbn in Hok |- *; try destruct b; cbn;
    split_tests; cbn; unfold effect; cbn;
    repeat split; try reflexivity;
    try (intros []; cbn; repeat case_decide; try congruence); try wrap_lia.
Qed.

(** The shares of a call that has ended are its footprint. *)
Lemma settled p r fuel :
  code_at p = Ret r -> live p ->
  demand_at p - demand_at (entry (member_at p) fuel) = (footprint (member_at p) r).1
  /\ WRITING * (owner_at p - owner_at (entry (member_at p) fuel))
     + share_at p - share_at (entry (member_at p) fuel)
     = (footprint (member_at p) r).2.
Proof.
  each_pc p; cbn; try discriminate; intros [= <-] Hlive; try (destruct Hlive; fail);
    cbn; split; lia.
Qed.

Lemma exec_effects (q : code (option bool)) : forall p env,
  code_at p = q -> pc_ok p -> live p -> (forall i, mem_ok (seen env i)) ->
  exists p',
    code_at p' = Ret (exec q env).2 /\ member_at p' = member_at p /\ live p'
    /\ net writing_num_ (exec q env).1 = demand_at p' - demand_at p
    /\ net holding_num_ (exec q env).1
       = WRITING * (owner_at p' - owner_at p) + share_at p' - share_at p
    /\ Forall (fun act => forall a,
                 get (act_after act) a
                 = wrap (get (act_before act) a + effect a act)) (exec q env).1.
Proof.
  induction q as [r|o k IH]; intros p env Hp Hok Hlive Henv.
  - exists p. cbn. repeat split; try done; lia.
  - pose proof (step_local (env 0%nat).1 p o k (env 0%nat).2 Hok (Henv 0%nat) Hp)
      as (Hok' & Hmeth' & _).
    pose proof (step_effect (env 0%nat).1 p o k (env 0%nat).2 Hok (Henv 0%nat) Hp)
      as (Hlive' & HeW & HeH & Hget).
    destruct (IH (perform (env 0%nat).1 o (env 0%nat).2).1
                 (next p (perform (env 0%nat).1 o (env 0%nat).2).1)
                 (fun i => env (S i)))
      as (p' & Hp' & Hm' & Hl' & HW & HH & Hall);
      [symmetry; by apply (code_at_next p o k)|done|done|intros i; apply (Henv (S i))|].
    exists p'. cbn [exec]. cbv zeta. cbn [fst snd net foldr].
    fold (net writing_num_) (net holding_num_).
    rewrite HeW, HeH.
    repeat split; try done; try congruence; try lia.
    + unfold net in HW. lia.
    + unfold net in HH. lia.
    + constructor; [exact Hget|exact Hall].
Qed.

(** X10.  Whatever the other threads do in between, and whatever the
    fuel, the atomic operations of one call add up to the footprint of the
    member: an exclusive acquisition that is granted adds 1 to
    [writing_num_] and [WRITING] to [holding_num_], one that is refused adds
    nothing to either, one that is still waiting has added 1 to
    [writing_num_] only; a shared acquisition adds 1 to [holding_num_] when
    it is granted and nothing otherwise; [unlock] subtracts 1 and [WRITING],
    [unlock_shared] subtracts 1 from [holding_num_].  Each atomic operation
    changes the atomics by its effect, modulo [2^32]. *)
Theorem calls_leave_their_footprint (m : method) (fuel : nat) env :
  (forall i, mem_ok (seen env i)) ->
  let tr := (exec (invoke m fuel) env).1 in
  let r := (exec (invoke m fuel) env).2 in
  net writing_num_ tr = (footprint m r).1
  /\ net holding_num_ tr = (footprint m r).2
  /\ (forall act a, act ∈ tr ->
        get (act_after act) a = wrap (get (act_before act) a + effect a act)).
Proof.
  intros Henv.
  destruct (exec_effects (invoke m fuel) (entry m fuel) env)
    as (p' & Hp' & Hm' & Hl' & HW & HH & Hall);
    [apply code_at_entry|by destruct m|by destruct m|exact Henv|].
  assert (member_at (entry m fuel) = m) as Hentry by (by destruct m).
  rewrite Hentry in Hm'.
  destruct (settled p' _ fuel Hp' Hl') as [HsW HsH]. rewrite Hm' in HsW, HsH.
  cbv zeta. rewrite HW, HH. repeat split; [lia..|].
  intros act a Hact. rewrite Forall_forall in Hall. by apply Hall.
Qed.

Lemma calls_leave_their_footprint_witness :
  let env := fun i : nat => (false, if (i <? 2)%nat then Mem 0 1 else Mem 0 0) in
  (exec (invoke m_lock 3) env).2 = Some true
  /\ net writing_num_ (exec (invoke m_lock 3) env).1 = 1
  /\ net holding_num_ (exec (invoke m_lock 3) env).1 = WRITING.
Proof.
  intros env. split; [reflexivity|].
  assert (forall i, mem_ok (seen env i)) as Henv.
  { intros i. unfold seen, env. cbv beta. cbn [snd].
    destruct (i <? 2)%nat; split; cbn; wrap_lia. }
  destruct (calls_leave_their_footprint m_lock 3 env Henv) as (HW & HH & _).
  split; [exact HW|exact HH].
Defined.

(** X11.  Whatever the other threads do in between, [try_lock],
    [try_lock_shared], [unlock] and [unlock_shared] never park: each
    returns after at most six atomic operations, none of them a wait. *)
Theorem try_and_release_never_park (m : method) (fuel : nat) env :
  m = m_try_lock \/ m = m_try_lock_shared \/ m = m_unlock \/ m = m_unlock_shared ->
  let tr := (exec (invoke m fuel) env).1 in
  (length tr <= 6)%nat
  /\ Forall (fun act => parks (act_op act) = false) tr
  /\ exists b, (exec (invoke m fuel) env).2 = Some b.
Proof.
  intros [-> | [-> | [-> | ->]]]; cbn;
    repeat match goal with
      | |- context [if ?c then _ else _] => destruct c; cbn
      end;
    (split; [lia|]); (split; [repeat constructor|eexists; reflexivity]).
Qed.

Lemma try_and_release_never_park_witness :
  (length (exec (invoke m_try_lock_shared 0)
             (fun i => (false, if (i <? 2)%nat then Mem 0 0 else Mem 1 1))).1 <= 6)%nat.
Proof.
  exact (proj1 (try_and_release_never_park m_try_lock_shared 0
                  (fun i => (false, if (i <? 2)%nat then Mem 0 0 else Mem 1 1))
                  (or_intror (or_introl eq_refl)))).
Defined.

(** A timed call gets to its abort only through a park that returns
    false. *)
Lemma step_timeout b p o k m :
  code_at p = Do o k -> aborted p = false ->
  member_at p = m_try_lock_for \/ member_at p = m_try_lock_shared_for ->
  let p' := next p (perform b o m).1 in
  (member_at p' = m_try_lock_for \/ member_at p' = m_try_lock_shared_for)
  /\ (aborted p' = true -> b = false /\ exists a v, o = wait_timeout a v).
Proof.
  intros Hp Hab Hm.
  each_pc p; try discriminate Hp; try discriminate Hab;
    try (destruct Hm as [Hm|Hm]; discriminate Hm);
    hnf in Hp; try discriminate Hp; injection Hp as <- _;
    cbn; destruct m as [mw mh]; try destruct b; cbn; split_tests; cbn;
    (split; [tauto|]); try discriminate; intros _; split; try reflexivity;
    eexists _, _; reflexivity.
Qed.

Lemma exec_timeout (q : code (option bool)) : forall p env,
  code_at p = q -> aborted p = false ->
  member_at p = m_try_lock_for \/ member_at p = m_try_lock_shared_for ->
  (exec q env).2 = Some false ->
  exists i act a v,
    (exec q env).1 !! i = Some act /\ act_op act = wait_timeout a v
    /\ (env i).1 = false.
Proof.
  induction q as [r|o k IH]; intros p env Hp Hab Hm Hres.
  - cbn in Hres. subst r. apply code_at_finished in Hp. rewrite Hp in Hab. discriminate.
  - cbn [exec] in Hres |- *. cbv zeta in Hres |- *. cbn [fst snd] in Hres |- *.
    destruct (step_timeout (env 0%nat).1 p o k (env 0%nat).2 Hp Hab Hm) as [Hm' Hstep].
    destruct (aborted (next p (perform (env 0%nat).1 o (env 0%nat).2).1)) eqn:Hab'.
    + destruct (Hstep eq_refl) as (Hb & a & v & ->).
      exists 0%nat. eexists _, a, v. split; [reflexivity|]. split; [reflexivity|exact Hb].
    + destruct (IH _ _ (fun i => env (S i)) (eq_sym (code_at_next p o k _ Hp)) Hab' Hm' Hres)
        as (i & act & a & v & Hi & Hop & Hb).
      exists (S i), act, a, v. repeat split; assumption.
Qed.

(** X12.  Whatever the other threads do in between, and whatever the
    fuel, a timed acquisition ([try_lock_for], [try_lock_until],
    [try_lock_shared_for], [try_lock_shared_until]) returns false only
    after one of its timed parks, a [wait_for] or [wait_until] of the
    atomic, has returned false; why the park returned false, the lock does
    not ask. *)
Theorem timed_calls_fail_only_after_a_park_fails (m : method) (fuel : nat) env :
  m = m_try_lock_for \/ m = m_try_lock_shared_for ->
  (exec (invoke m fuel) env).2 = Some false ->
  exists i act a v,
    (exec (invoke m fuel) env).1 !! i = Some act
    /\ act_op act = wait_timeout a v
    /\ (env i).1 = false.
Proof.
  intros Hm Hres.
  apply (exec_timeout (invoke m fuel) (entry m fuel) env);
    [apply code_at_entry|by destruct Hm as [-> | ->]| |exact Hres].
  destruct Hm as [-> | ->]; [left|right]; reflexivity.
Qed.

Lemma timed_calls_fail_only_after_a_park_fails_witness :
  let env := fun i : nat => (false, Mem 0 1) in
  (exec (invoke m_try_lock_for 2) env).2 = Some false
  /\ exists i act a v,
       (exec (invoke m_try_lock_for 2) env).1 !! i = Some act
       /\ act_op act = wait_timeout a v
       /\ (env i).1 = false.
Proof.
  intros env. split; [reflexivity|].
  apply (timed_calls_fail_only_after_a_park_fails m_try_lock_for 2 env);
    [left; reflexivity|reflexivity].
Defined.

(** ** Deadlines and timeouts *)

Lemma quot_scaled x den k :
  0 <= x -> 0 < den -> 0 < k ->
  0 <= Z.quot (x * k) den - Z.quot x den * k < k.
Proof.
  intros Hx Hden Hk. rewrite !Z.quot_div_nonneg by nia.
  pose proof (Z.div_mod x den ltac:(lia)) as Hdm.
  pose proof (Z.mod_pos_bound x den Hden) as Hr.
  replace (x * k) with (x mod den * k + (x / den * k) * den) by nia.
  rewrite Z.div_add by lia.
  assert (0 <= x mod den * k / den < k); [|lia].
  split; [apply Z.div_pos; nia|apply Z.div_lt_upper_bound; nia].
Qed.

(** The [timespec] of a time point in nanoseconds. *)
Lemma timespec_of_nanoseconds t :
  0 <= t < 2 ^ 63 ->
  Linux.timespec_of (Duration t 1 1000000000)
  = Some (Timespec (t / 1000000000) (t mod 1000000000)).
Proof.
  intros Ht. unfold Linux.timespec_of, duration_cast.
  cbn [count period_num period_den].
  change (Z.gcd (1 * 1) (1000000000 * 1)) with 1.
  change (Z.gcd (1 * 1000000000) (1000000000 * 1)) with 1000000000.
  change (Z.gcd (1 * 1000000000) (1 * 1)) with 1.
  change (1 * 1 / 1) with 1. change (1000000000 * 1 / 1) with 1000000000.
  change (1 * 1000000000 / 1000000000) with 1.
  change (1000000000 * 1 / 1000000000) with 1.
  change (1 * 1000000000 / 1) with 1000000000.
  rewrite !Z.mul_1_r, Z.quot_1_r, Z.quot_div_nonneg by lia.
  pose proof (Z.div_mod t 1000000000 ltac:(lia)) as Hdm.
  pose proof (Z.mod_pos_bound t 1000000000 ltac:(lia)) as Hr.
  assert (0 <= t / 1000000000) by (apply Z.div_pos; lia).
  assert (fits_int64 t = true) as -> by (apply fits_int64_spec; lia).
  cbn [mbind option_bind].
  assert (fits_int64 (t / 1000000000 * 1000000000) = true) as ->
    by (apply fits_int64_spec; lia).
  cbn [mbind option_bind]. rewrite Z.quot_1_r.
  assert (fits_int64 (t - t / 1000000000 * 1000000000) = true) as ->
    by (apply fits_int64_spec; lia).
  do 2 f_equal. lia.
Qed.

(** X13.  On Linux, [wait_until] builds a normalised [timespec] from a
    time point at or after the epoch of its clock: [tv_sec] is the time
    point in whole seconds, rounded down, [tv_nsec] lies in [0, 10^9), and
    together they are the time point in whole nanoseconds; this as long as
    the time point times [10^9] fits 64 bits, and for a time point in
    nanoseconds whenever it fits 64 bits itself.  The futex call does not
    receive the address of that [timespec]: the kernel finds [tv_sec] in
    the place of the address of the timeout, and [tv_nsec] in that of
    [uaddr2]. *)
Theorem linux_wait_until_timespec (c : clock) (value : Z) (timeout_time : duration) :
  0 <= count timeout_time -> 0 < period_num timeout_time -> 0 < period_den timeout_time ->
  count timeout_time * period_num timeout_time * 1000000000 < 2 ^ 63
  \/ (period_num timeout_time = 1 /\ period_den timeout_time = 1000000000
      /\ count timeout_time < 2 ^ 63) ->
  exists ts,
    Linux.timespec_of timeout_time = Some ts
    /\ tv_sec ts = count timeout_time * period_num timeout_time / period_den timeout_time
    /\ 0 <= tv_nsec ts < 1000000000
    /\ tv_sec ts * 1000000000 + tv_nsec ts
       = count timeout_time * period_num timeout_time * 1000000000 / period_den timeout_time
    /\ futex_call (Linux.wait_until c value timeout_time)
       = Some (Linux.futex_wait_operator c, value, tv_sec ts, tv_nsec ts).
Proof.
  intros Hc Hn Hd Hfit.
  assert (forall ts, Linux.timespec_of timeout_time = Some ts ->
            futex_call (Linux.wait_until c value timeout_time)
            = Some (Linux.futex_wait_operator c, value, tv_sec ts, tv_nsec ts)) as Hcall
    by (intros ts Hts; unfold Linux.wait_until; rewrite Hts; reflexivity).
  destruct Hfit as [Hfit|(Hn1 & Hd1 & Hfit)].
  - set (x := count timeout_time * period_num timeout_time) in *.
    assert (0 <= x) as Hx by (subst x; nia).
    pose proof (quot_scaled x (period_den timeout_time) 1000000000 Hx Hd ltac:(lia)) as Hq.
    assert (0 <= Z.quot x (period_den timeout_time)) as Hs
      by (rewrite Z.quot_div_nonneg by lia; apply Z.div_pos; lia).
    exists (Timespec (Z.quot x (period_den timeout_time))
              (Z.quot (x * 1000000000) (period_den timeout_time)
               - Z.quot x (period_den timeout_time) * 1000000000)).
    assert (0 <= Z.quot (x * 1000000000) (period_den timeout_time) <= x * 1000000000) as Hb.
    { rewrite Z.quot_div_nonneg by lia. split; [apply Z.div_pos; lia|].
      apply Z.div_le_upper_bound; nia. }
    assert (Linux.timespec_of timeout_time
            = Some (Timespec (Z.quot x (period_den timeout_time))
                      (Z.quot (x * 1000000000) (period_den timeout_time)
                       - Z.quot x (period_den timeout_time) * 1000000000))) as Hts.
    { unfold Linux.timespec_of.
      rewrite (duration_cast_some 1 1 timeout_time) by (fold x; lia).
      rewrite (duration_cast_some 1 1000000000 timeout_time) by (fold x; lia).
      replace (count timeout_time * (period_num timeout_time * 1)) with x
        by (subst x; lia).
      replace (count timeout_time * (period_num timeout_time * 1000000000))
        with (x * 1000000000) by (subst x; lia).
      rewrite !Z.mul_1_r. cbn [mbind option_bind].
      rewrite (duration_cast_some 1 1000000000 (Duration _ 1 1))
        by (cbn [count period_num period_den]; lia).
      cbn [mbind option_bind count period_num period_den].
      rewrite !Z.mul_1_l, Z.quot_1_r.
      assert (fits_int64 (Z.quot (x * 1000000000) (period_den timeout_time)
                          - Z.quot x (period_den timeout_time) * 1000000000) = true) as ->
        by (apply fits_int64_spec; lia).
      reflexivity. }
    split; [exact Hts|]. cbn [tv_sec tv_nsec].
    split; [apply Z.quot_div_nonneg; lia|]. split; [lia|].
    split; [rewrite <- (Z.quot_div_nonneg (x * 1000000000)) by lia; lia|].
    apply (Hcall _ Hts).
  - destruct timeout_time as [t n d]. cbn [count period_num period_den] in *. subst n d.
    pose proof (timespec_of_nanoseconds t ltac:(lia)) as Hts.
    pose proof (Z.div_mod t 1000000000 ltac:(lia)) as Hdm.
    pose proof (Z.mod_pos_bound t 1000000000 ltac:(lia)) as Hr.
    eexists. split; [exact Hts|]. cbn [tv_sec tv_nsec].
    rewrite Z.mul_1_r, Z.div_mul by lia.
    split; [reflexivity|]. split; [lia|]. split; [lia|]. apply (Hcall _ Hts).
Qed.

Lemma linux_wait_until_timespec_witness :
  futex_call (Linux.wait_until system_clock 0 (Duration 2500 1 1000))
  = Some (256, 0, 2, 500000000).
Proof.
  destruct (linux_wait_until_timespec system_clock 0 (Duration 2500 1 1000))
    as (ts & Hts & _ & _ & _ & Hcall); [cbn; lia..|left; cbn; lia|].
  rewrite Hcall. vm_compute in Hts. injection Hts as <-. reflexivity.
Defined.

(** The deadline of [wait_for]: the reading of the steady clock plus the
    duration, in nanoseconds, for a duration whose ticks are whole
    nanoseconds. *)
Lemma deadline_in_nanoseconds t d :
  0 <= t -> 0 <= count d -> 0 < period_num d -> 0 < period_den d ->
  1000000000 mod period_den d = 0 ->
  t + count d * period_num d * (1000000000 / period_den d) < 2 ^ 63 ->
  plus (time_point steady_clock t) d
  = Some (Duration (t + count d * period_num d * (1000000000 / period_den d))
            1 1000000000).
Proof.
  intros Ht Hc Hn Hd Hdiv Hfit.
  apply Z.mod_divide in Hdiv; [|lia].
  assert (Z.lcm (period_den d) 1000000000 = 1000000000) as Hlcm
    by (apply Z.divide_lcm_iff; [lia|exact Hdiv]).
  assert (Z.gcd (period_den d) (period_num d * 1000000000) = period_den d) as Hgcd
    by (apply Z.divide_gcd_iff; [lia|]; by apply Z.divide_mul_r).
  destruct Hdiv as [q Hq].
  assert (0 < q) as Hq0 by nia.
  assert (1000000000 / period_den d = q) as Hquot by (rewrite Hq; apply Z.div_mul; lia).
  rewrite Hquot in Hfit |- *.
  unfold plus, to_common, time_point, steady_clock.
  cbn [count period_num period_den tick_num tick_den].
  rewrite Z.gcd_1_l, Z.gcd_1_r, (Z.lcm_comm 1000000000), Hlcm.
  unfold duration_cast. cbn [count period_num period_den].
  change (Z.gcd (1 * 1000000000) (1000000000 * 1)) with 1000000000.
  change (1 * 1000000000 / 1000000000) with 1.
  change (1000000000 * 1 / 1000000000) with 1.
  rewrite !Z.mul_1_r, Z.quot_1_r, (Z.gcd_comm (period_num d * 1000000000)), Hgcd.
  assert (fits_int64 t = true) as -> by (apply fits_int64_spec; nia).
  cbn [mbind option_bind].
  assert (period_num d * 1000000000 / period_den d = period_num d * q) as ->
    by (rewrite Hq, Z.mul_assoc; apply Z.div_mul; lia).
  rewrite Z.div_same, Z.quot_1_r by lia.
  assert (fits_int64 (count d * (period_num d * q)) = true) as ->
    by (apply fits_int64_spec; nia).
  cbn [mbind option_bind count period_num period_den].
  assert (fits_int64 (t + count d * (period_num d * q)) = true) as ->
    by (apply fits_int64_spec; nia).
  do 2 f_equal. lia.
Qed.

(** X14.  On Linux, [wait_for] reads the steady clock and calls the futex
    wait with the deadline and not the duration: for a duration that is not
    negative and whose ticks are whole nanoseconds, and a deadline that fits
    64 bits, the two words of the call are the whole seconds and the
    remaining nanoseconds of the reading of the clock plus the duration. *)
Theorem linux_wait_for_passes_deadline (s : os) (value : Z) (d : duration) :
  0 <= reading s -> 0 <= count d -> 0 < period_num d -> 0 < period_den d ->
  1000000000 mod period_den d = 0 ->
  reading s + count d * period_num d * (1000000000 / period_den d) < 2 ^ 63 ->
  let deadline := reading s + count d * period_num d * (1000000000 / period_den d) in
  (os_run s (Linux.wait_for value d)).1.2
  = [now steady_clock;
     sys_futex FUTEX_WAIT value (deadline / 1000000000) (deadline mod 1000000000)].
Proof.
  intros Ht Hc Hn Hd Hdiv Hfit deadline.
  assert (0 <= deadline).
  { subst deadline. apply Z.mod_divide in Hdiv as [q Hq]; [|lia].
    rewrite Hq, Z.div_mul by lia. nia. }
  unfold Linux.wait_for. cbn [os_run os_reply].
  rewrite (deadline_in_nanoseconds (reading s) d Ht Hc Hn Hd Hdiv Hfit).
  fold deadline. unfold Linux.wait_until.
  rewrite (timespec_of_nanoseconds deadline) by lia.
  cbn [os_run tv_sec tv_nsec]. unfold Linux.futex_wait_operator. cbn [realtime steady_clock].
  destruct (os_reply s (sys_futex _ _ _ _)); reflexivity.
Qed.

Lemma linux_wait_for_passes_deadline_witness :
  (os_run (Os 0 7000000000 false unreadable) (Linux.wait_for 0 (Duration 1500 1 1000))).1.2
  = [now steady_clock; sys_futex FUTEX_WAIT 0 8 500000000].
Proof.
  apply (linux_wait_for_passes_deadline (Os 0 7000000000 false unreadable) 0
           (Duration 1500 1 1000)); first [reflexivity|cbn; lia].
Defined.

(** X15.  On Linux, [wait_until] with a time point that has a [timespec]
    makes one futex call, a [FUTEX_WAIT] for both clocks, with the flag
    [FUTEX_CLOCK_REALTIME] exactly for the system clock.  What the call
    does depends on [tv_sec], which the kernel takes for the address of
    the timeout: when it is 0 the wait has no timeout, the thread parks
    exactly when the cell holds the expected value, returns true when it is
    woken and not at all otherwise, and returns false when the cell holds
    another value; when nothing can be read at it, [wait_until] returns
    false and the thread is not parked, whatever the cell holds. *)
Theorem linux_wait_until_operator (s : os) (c : clock) (value : Z)
    (timeout_time : duration) (ts : timespec) :
  Linux.timespec_of timeout_time = Some ts ->
  let op := Linux.futex_wait_operator c in
  let done := os_run s (Linux.wait_until c value timeout_time) in
  done.1.2 = [sys_futex op value (tv_sec ts) (tv_nsec ts)]
  /\ Z.land op 127 = FUTEX_WAIT
  /\ Z.testbit op 8 = realtime c
  /\ (tv_sec ts = 0 ->
      done.2 = (value_ s =? value)
      /\ done.1.1 = (if value_ s =? value
                     then (if woken s then Some (Some true) else None)
                     else Some (Some false)))
  /\ (tv_sec ts <> 0 -> user_memory s (tv_sec ts) = None ->
      done.1.1 = Some (Some false) /\ done.2 = false).
Proof.
  intros Hts op done. subst done. unfold Linux.wait_until. rewrite Hts.
  assert (Z.land op 127 = FUTEX_WAIT /\ Z.testbit op 8 = realtime c) as [Hop Hbit]
    by (subst op; unfold Linux.futex_wait_operator; destruct (realtime c); split; reflexivity).
  subst op. cbn [os_run os_reply os_parks]. rewrite Hop.
  change (FUTEX_WAIT =? FUTEX_WAIT) with true. cbv iota.
  unfold futex_timeout.
  split.
  { destruct (tv_sec ts =? 0); [|destruct (user_memory s (tv_sec ts)) as [u|];
      [destruct (valid_timespec u)|]];
      destruct (value_ s =? value), (woken s); reflexivity. }
  split; [reflexivity|]. split; [exact Hbit|]. split.
  - intros ->. cbn. destruct (value_ s =? value), (woken s); split; reflexivity.
  - intros Hnz Hmem. destruct (Z.eqb_spec (tv_sec ts) 0) as [Hz|_]; [contradiction|].
    rewrite Hmem. split; reflexivity.
Qed.

Lemma linux_wait_until_operator_witness :
  os_run (Os 3 0 true unreadable) (Linux.wait_until system_clock 3 (Duration 5 1 1))
  = (Some (Some false), [sys_futex 256 3 5 0], false).
Proof.
  destruct (linux_wait_until_operator (Os 3 0 true unreadable) system_clock 3
              (Duration 5 1 1) (Timespec 5 0) eq_refl)
    as (Hcalls & _ & _ & _ & Hfault).
  destruct (Hfault ltac:(discriminate) eq_refl) as [Hres Hpark].
  destruct (os_run _ _) as [[r calls] parked]. cbn [fst snd] in *.
  subst. reflexivity.
Defined.

(** The time left to a time point in the ticks of the clock. *)
Lemma minus_same_period c t timeout_time :
  0 < tick_num c -> 0 < tick_den c ->
  period_num timeout_time = tick_num c -> period_den timeout_time = tick_den c ->
  - 2 ^ 63 <= count timeout_time < 2 ^ 63 -> - 2 ^ 63 <= t < 2 ^ 63 ->
  - 2 ^ 63 <= count timeout_time - t < 2 ^ 63 ->
  minus timeout_time (time_point c t)
  = Some (Duration (count timeout_time - t) (tick_num c) (tick_den c)).
Proof.
  intros Hn Hd Hpn Hpd Hc Ht Hfit.
  unfold minus, to_common, time_point, duration_cast.
  cbn [count period_num period_den]. rewrite Hpn, Hpd.
  rewrite Z.gcd_diag_nonneg, Z.lcm_diag_nonneg by lia.
  rewrite (Z.mul_comm (tick_den c) (tick_num c)).
  rewrite Z.gcd_diag_nonneg by nia. rewrite Z.div_same by nia.
  rewrite !Z.mul_1_r, !Z.quot_1_r.
  assert (fits_int64 (count timeout_time) = true) as -> by (by apply fits_int64_spec).
  assert (fits_int64 t = true) as -> by (by apply fits_int64_spec).
  cbn [mbind option_bind count period_num period_den].
  assert (fits_int64 (count timeout_time - t) = true) as -> by (by apply fits_int64_spec).
  reflexivity.
Qed.

(** X16.  The earlier Windows header tests the time that is left in
    [wait_until] only.  There, with a time point in the ticks of the clock
    that is not after its reading, it reads the clock, compares the cell
    with the expected value and returns the result, the thread not parked;
    with a later time point it calls [wait_for] with the difference.
    [wait_for] itself calls WaitOnAddress whatever the sign of the
    duration, and the thread parks whenever the cell holds the expected
    value; a duration of -1 ms is handed over as [INFINITE]. *)
Theorem earlier_windows_header_tests_the_time_left (s : os) (c : clock) (value : Z)
    (timeout_time d : duration) (ms : Z) :
  0 < tick_num c -> 0 < tick_den c ->
  period_num timeout_time = tick_num c -> period_den timeout_time = tick_den c ->
  - 2 ^ 63 <= count timeout_time < 2 ^ 63 -> - 2 ^ 63 <= reading s < 2 ^ 63 ->
  - 2 ^ 63 <= count timeout_time - reading s < 2 ^ 63 ->
  duration_cast 1 1000 d = Some ms ->
  let left := Duration (count timeout_time - reading s) (tick_num c) (tick_den c) in
  os_run s (WindowsEarlier.wait_until c value timeout_time)
  = (if 0 <? count left
     then (let '(r, calls, parked) := os_run s (WindowsEarlier.wait_for value left) in
           (r, now c :: calls, parked))
     else (Some (Some (value_ s =? value)), [now c; read_value], false))
  /\ (os_run s (WindowsEarlier.wait_for value d)).1.2 = [WaitOnAddress value (wrap ms)]
  /\ (os_run s (WindowsEarlier.wait_for value d)).2 = (value_ s =? value)
  /\ (ms = -1 -> timeout_passed (WindowsEarlier.wait_for value d) = Some INFINITE).
Proof.
  intros Hn Hd Hpn Hpd Hc Ht Hfit Hms left. split.
  - unfold WindowsEarlier.wait_until. cbn [os_run os_reply os_parks].
    rewrite (minus_same_period c (reading s) timeout_time) by assumption.
    fold left. destruct (0 <? count left).
    + destruct (os_run s (WindowsEarlier.wait_for value left)) as [[r calls] parked].
      reflexivity.
    + reflexivity.
  - unfold WindowsEarlier.wait_for. rewrite Hms. cbn [os_run os_reply os_parks timeout_passed].
    repeat split.
    + destruct (value_ s =? value), (woken s), (wrap ms =? INFINITE); reflexivity.
    + destruct (value_ s =? value), (woken s), (wrap ms =? INFINITE); reflexivity.
    + intros ->. reflexivity.
Qed.

Lemma earlier_windows_header_tests_the_time_left_witness :
  os_run (Os 0 100 false unreadable)
    (WindowsEarlier.wait_until (Clock false 1 1000) 0 (Duration 100 1 1000))
  = (Some (Some true), [now (Clock false 1 1000); read_value], false)
  /\ timeout_passed (WindowsEarlier.wait_for 0 (Duration (-1) 1 1000)) = Some INFINITE.
Proof.
  destruct (earlier_windows_header_tests_the_time_left (Os 0 100 false unreadable)
              (Clock false 1 1000) 0 (Duration 100 1 1000) (Duration (-1) 1 1000) (-1))
    as (Huntil & _ & _ & Hinf); [cbn; lia..|reflexivity|].
  split; [exact Huntil|]. apply Hinf. reflexivity.
Defined.

(** X17.  On Windows, the timeout [wait_for] hands to WaitOnAddress is a
    [DWORD]: for a positive duration whose milliseconds can be computed in
    64 bits it is the duration in whole milliseconds, rounded down, modulo
    [2^32]; so it is the duration in milliseconds exactly when that is below
    [2^32], and a longer wait is cut short.  The earlier header always makes
    this call, the current one whenever the test of line 154 does not make
    it compare and return. *)
Theorem windows_timeout_is_a_dword (zero_test : duration -> bool) (value : Z)
    (d : duration) :
  0 < count d -> 0 < period_num d -> 0 < period_den d ->
  count d * period_num d * 1000 < 2 ^ 63 ->
  let ms := count d * period_num d * 1000 / period_den d in
  duration_cast 1 1000 d = Some ms
  /\ timeout_passed (WindowsEarlier.wait_for value d) = Some (ms mod uint32_modulus)
  /\ timeout_passed (Windows.wait_for zero_test value d)
     = (if zero_test d then None else Some (ms mod uint32_modulus))
  /\ (ms mod uint32_modulus = ms <-> ms < uint32_modulus)
  /\ ms * period_den d <= count d * period_num d * 1000 < (ms + 1) * period_den d.
Proof.
  intros Hc Hn Hd Hfit ms.
  assert (duration_cast 1 1000 d = Some ms) as Hms.
  { rewrite duration_cast_some by lia. rewrite Z.mul_1_r, Z.quot_div_nonneg by nia.
    subst ms. do 2 f_equal. lia. }
  assert (0 <= ms) by (subst ms; apply Z.div_pos; nia).
  split; [exact Hms|].
  unfold WindowsEarlier.wait_for, Windows.wait_for. rewrite Hms.
  split; [reflexivity|]. split; [destruct (zero_test d); reflexivity|].
  split; [wrap_lia|].
  pose proof (Z.div_mod (count d * period_num d * 1000) (period_den d) ltac:(lia)) as Hdm.
  pose proof (Z.mod_pos_bound (count d * period_num d * 1000) (period_den d) Hd) as Hr.
  fold ms in Hdm. nia.
Qed.

Lemma windows_timeout_is_a_dword_witness :
  timeout_passed (WindowsEarlier.wait_for 0 (Duration 4294967301 1 1000)) = Some 5.
Proof.
  apply (windows_timeout_is_a_dword (fun _ => false) 0 (Duration 4294967301 1 1000));
    cbn; lia.
Defined.

(** ** Handles and the locks they hold *)

Section Temporaries.
Import lock_wrapper locked_ptr.
Context {T Mutex : Type} `{Lockable Mutex}.
Implicit Types (sc : scope T Mutex) (l : list handle) (h : heap T Mutex).

Lemma swap_with_temporary n l t i hi h :
  n = length l -> l !! i = Some hi -> mode t = mode hi ->
  swap n i (Scope (l ++ [t]) h)
  = Some (Scope (<[i := Handle (mode hi) (target t)]> l
                 ++ [Handle (mode t) (target hi)]) h).
Proof.
  intros -> Hi Hmode. unfold swap. cbn [objects wrappers].
  rewrite (list_lookup_middle l [] t (length l) eq_refl). cbn.
  rewrite (lookup_app_l_Some _ _ _ _ Hi). cbn.
  rewrite decide_True by done. do 2 f_equal.
  rewrite insert_app_r_alt by done. rewrite Nat.sub_diag. cbn [insert list_insert].
  rewrite insert_app_l by (by eapply lookup_lt_Some). reflexivity.
Qed.

Lemma destroy_temporary n l t h :
  n = length l ->
  destroy_at n (Scope (l ++ [t]) h)
  = Some (Scope l (destroy (LockedPtr (k_type := mode t) (target t)) h)).
Proof.
  intros ->. unfold destroy_at. cbn [objects wrappers].
  rewrite (list_lookup_middle l [] t (length l) eq_refl). cbn. do 2 f_equal.
  induction l as [|x l IH]; [reflexivity|].
  cbn [length app]. change (delete (S (length l)) (x :: l ++ [t]))
    with (x :: delete (length l) (l ++ [t])). by rewrite IH.
Qed.

Lemma reset_result i sc hi :
  objects sc !! i = Some hi ->
  reset i sc
  = Some (Scope (<[i := Handle (mode hi) None]> (objects sc))
            (destroy (LockedPtr (k_type := mode hi) (target hi)) (wrappers sc))).
Proof.
  intros Hi. unfold reset, construct_null. rewrite Hi. cbn [mbind option_bind].
  rewrite (swap_with_temporary _ _ _ _ _ _ eq_refl Hi) by reflexivity.
  cbn [mbind option_bind].
  rewrite destroy_temporary by (by rewrite length_insert). reflexivity.
Qed.

(** X18.  [reset], and the assignment of [nullptr]: the handle becomes
    null and the lock it held is released as by its destructor, [unlock]
    or [unlock_shared] by the type of the handle; nothing else changes.  A
    second [reset] changes nothing. *)
Theorem reset_releases (i : nat) sc hi :
  objects sc !! i = Some hi ->
  let sc' := Scope (<[i := Handle (mode hi) None]> (objects sc))
                   (destroy (LockedPtr (k_type := mode hi) (target hi)) (wrappers sc)) in
  reset i sc = Some sc'
  /\ to_bool i sc' = Some false
  /\ reset i sc' = Some sc'.
Proof.
  intros Hi sc'.
  assert (objects sc' !! i = Some (Handle (mode hi) None)) as Hi'.
  { cbn [sc' objects]. apply list_lookup_insert_eq. by eapply lookup_lt_Some. }
  split; [by apply reset_result|]. split.
  - unfold to_bool. rewrite Hi'. reflexivity.
  - rewrite (reset_result i sc' _ Hi'). cbn [sc' objects wrappers mode target].
    rewrite list_insert_insert_eq. reflexivity.
Qed.

Lemma move_assign_result (i o : nat) sc hi ho :
  objects sc !! i = Some hi -> objects sc !! o = Some ho -> mode hi = mode ho ->
  move_assign i o sc
  = Some (if decide (i = o) then sc
          else Scope (<[i := Handle (mode hi) (target ho)]>
                        (<[o := Handle (mode ho) None]> (objects sc)))
                     (destroy (LockedPtr (k_type := mode hi) (target hi))
                        (wrappers sc))).
Proof.
  intros Hi Ho Hmode. unfold move_assign, move_construct, construct_null.
  rewrite Hi, Ho. cbn [mbind option_bind].
  rewrite (swap_with_temporary _ _ _ _ _ _ eq_refl Ho) by reflexivity.
  cbn [mbind option_bind objects mode target].
  case_decide as Hio.
  - subst o. rewrite Hi in Ho. injection Ho as <-.
    erewrite swap_with_temporary;
      [|by rewrite length_insert
       |apply list_lookup_insert_eq; by eapply lookup_lt_Some|reflexivity].
    cbn [mbind option_bind mode target]. rewrite list_insert_insert_eq.
    rewrite destroy_temporary by (by rewrite length_insert).
    cbn [mode target]. unfold destroy. cbn [lock_wrapper_].
    rewrite list_insert_id by (rewrite Hi; by destruct hi). by destruct sc.
  - erewrite swap_with_temporary;
      [|by rewrite length_insert
       |rewrite list_lookup_insert_ne by done; exact Hi|by symmetry].
    cbn [mbind option_bind mode target].
    rewrite destroy_temporary by (by rewrite !length_insert).
    cbn [mode target]. rewrite Hmode. reflexivity.
Qed.

(** X19.  Move assignment between two handles of one type,
    [objects[i] = std::move(objects[o])]: the target takes over what the
    source points at, the source becomes null, and the lock the target
    held before is released as by its destructor; nothing else changes.
    Assigning a handle to itself changes nothing, and releases nothing. *)
Theorem move_assign_takes_over (i o : nat) sc hi ho :
  objects sc !! i = Some hi -> objects sc !! o = Some ho -> mode hi = mode ho ->
  let sc' := Scope (<[i := Handle (mode hi) (target ho)]>
                      (<[o := Handle (mode ho) None]> (objects sc)))
                   (destroy (LockedPtr (k_type := mode hi) (target hi))
                      (wrappers sc)) in
  move_assign i o sc = Some (if decide (i = o) then sc else sc')
  /\ (i <> o ->
      objects sc' !! i = Some (Handle (mode hi) (target ho))
      /\ to_bool o sc' = Some false
      /\ length (objects sc') = length (objects sc)).
Proof.
  intros Hi Ho Hmode sc'. split; [by apply move_assign_result|].
  intros Hio. subst sc'. unfold to_bool. cbn [objects].
  pose proof (lookup_lt_Some _ _ _ Hi). pose proof (lookup_lt_Some _ _ _ Ho).
  rewrite list_lookup_insert_eq by (by rewrite length_insert).
  rewrite list_lookup_insert_ne by done.
  rewrite list_lookup_insert_eq by done.
  rewrite !length_insert. done.
Qed.

(** X20.  Assigning a [locked_ptr] to a [const_locked_ptr],
    [objects[i] = std::move(objects[o])]: the constant handle takes over
    the lock of the mutable one without any call on the mutex, the mutable
    handle becomes null, and the lock the constant handle held before is
    released with [unlock]. *)
Theorem convert_assign_takes_over (i o : nat) sc hi ho :
  objects sc !! i = Some hi -> objects sc !! o = Some ho ->
  mode hi = unique_const -> mode ho = unique_mutable ->
  convert_assign i o sc
  = Some (Scope (<[i := Handle unique_const (target ho)]>
                   (<[o := Handle unique_mutable None]> (objects sc)))
                (destroy (LockedPtr (k_type := unique_const) (target hi))
                   (wrappers sc))).
Proof.
  intros Hi Ho Hmi Hmo.
  assert (i <> o) as Hio by (intros ->; congruence).
  assert (i < length (objects sc))%nat as Hlen by (by eapply lookup_lt_Some).
  unfold convert_assign, convert_construct. rewrite Ho. cbn [mbind option_bind].
  rewrite Hmo. cbn [mbind option_bind].
  set (l := <[o := Handle unique_mutable None]> (objects sc)).
  set (arg := Handle unique_const (target ho)).
  assert (length l = length (objects sc)) as Hl by apply length_insert.
  rewrite (move_assign_result i (length (objects sc)) _ hi arg).
  - rewrite decide_False by lia. cbn [mbind option_bind objects wrappers mode target].
    rewrite Hmi.
    rewrite insert_app_r_alt by lia. rewrite Hl, Nat.sub_diag. cbn [insert list_insert].
    rewrite insert_app_l by lia.
    rewrite destroy_temporary by (by rewrite length_insert).
    reflexivity.
  - cbn [objects]. apply lookup_app_l_Some. subst l.
    rewrite list_lookup_insert_ne by done. exact Hi.
  - cbn [objects]. apply list_lookup_middle. by rewrite Hl.
  - by rewrite Hmi.
Qed.
End Temporaries.

Section HandleFacts.
Import lock_wrapper locked_ptr.

Section Tally.
Context {A : Type} (f : A -> Z).

Lemma tally_cons x l : tally f (x :: l) = f x + tally f l.
Proof. reflexivity. Qed.

Lemma tally_app l k : tally f (l ++ k) = tally f l + tally f k.
Proof.
  induction l as [|x l IH]; [reflexivity|].
  rewrite <- app_comm_cons, !tally_cons, IH. lia.
Qed.

Lemma tally_snoc l x : tally f (l ++ [x]) = tally f l + f x.
Proof. rewrite tally_app. cbn. lia. Qed.

Lemma tally_insert l i x y :
  l !! i = Some x -> tally f (<[i:=y]> l) = tally f l - f x + f y.
Proof.
  revert i. induction l as [|x' l IH]; intros [|i] Hi; try discriminate.
  - injection Hi as ->. cbn [list_insert insert]. rewrite !tally_cons. lia.
  - change (<[S i:=y]> (x' :: l)) with (x' :: <[i:=y]> l).
    rewrite !tally_cons, (IH i Hi). lia.
Qed.

Lemma tally_delete l i x :
  l !! i = Some x -> tally f (delete i l) = tally f l - f x.
Proof.
  revert i. induction l as [|x' l IH]; intros [|i] Hi; try discriminate.
  - injection Hi as ->. change (delete 0%nat (x :: l)) with l.
    rewrite tally_cons. lia.
  - change (delete (S i) (x' :: l)) with (x' :: delete i l).
    rewrite !tally_cons, (IH i Hi). lia.
Qed.

Lemma tally_bounds l :
  (forall x, 0 <= f x <= 1) -> 0 <= tally f l <= Z.of_nat (length l).
Proof.
  intros Hf. induction l as [|x l IH]; [cbn; lia|].
  rewrite tally_cons. cbn [length]. specialize (Hf x). lia.
Qed.

Lemma tally_lookup_le l i x :
  (forall y, 0 <= f y) -> l !! i = Some x -> f x <= tally f l.
Proof.
  intros Hf. revert i. induction l as [|x' l IH]; intros [|i] Hi; try discriminate.
  - injection Hi as ->. rewrite tally_cons.
    assert (0 <= tally f l); [|lia].
    clear IH. induction l as [|z l IH]; [cbn; lia|].
    rewrite tally_cons. specialize (Hf z). lia.
  - rewrite tally_cons. pose proof (IH i Hi). specialize (Hf x'). lia.
Qed.
End Tally.


Lemma holds_bounds a u h : 0 <= holds a u h <= 1.
Proof. unfold holds. case_decide; lia. Qed.

Lemma holds_null a u k : holds a u (Handle k None) = 0.
Proof. unfold holds. cbn. case_decide as Hd; [by destruct Hd|reflexivity]. Qed.

Lemma holds_target a u k b :
  holds a u (Handle k (Some b))
  = if decide (a = b /\ is_unique k = u) then 1 else 0.
Proof.
  unfold holds. cbn. repeat case_decide; try reflexivity; exfalso;
    match goal with H : ~ _ |- _ => apply H end; intuition congruence.
Qed.

Lemma holds_mode a u h k t :
  is_unique k = is_unique (mode h) -> t = target h -> holds a u (Handle k t) = holds a u h.
Proof. intros Hk ->. unfold holds. cbn. rewrite Hk. reflexivity. Qed.

(** The members of [slontia::shared_mutex] on a lock that is what its
    handles make it. *)
Lemma mutex_members (U S : Z) :
  0 <= U <= 1 -> (U = 1 -> S = 0) -> 0 <= S < uint32_modulus ->
  let m := Mem U (WRITING * U + S) in
  mutex_lock m = (if (U =? 0) && (S =? 0) then Some (Mem 1 WRITING) else None)
  /\ mutex_try_lock m
     = (if (U =? 0) && (S =? 0) then (true, Mem 1 WRITING) else (false, m))
  /\ mutex_lock_shared m = (if U =? 0 then Some (Mem 0 (wrap (S + 1))) else None)
  /\ mutex_try_lock_shared m
     = (if U =? 0 then (true, Mem 0 (wrap (S + 1))) else (false, m))
  /\ (U = 1 -> mutex_unlock m = Mem 0 0)
  /\ (U = 0 -> 1 <= S -> mutex_unlock_shared m = Mem 0 (S - 1)).
Proof.
  intros HU HUS HS. cbv zeta.
  unfold mutex_lock, mutex_try_lock, mutex_lock_shared, mutex_try_lock_shared,
    mutex_unlock, mutex_unlock_shared, slontia_shared_mutex.
  assert (U = 0 \/ U = 1) as [-> | ->] by lia.
  - replace (WRITING * 0 + S) with S by lia.
    repeat split; try (intros; lia); try (intros _ Hpos); run_cases;
      try reflexivity; try (exfalso; wrap_lia); repeat f_equal; wrap_lia.
  - rewrite (HUS eq_refl). repeat split; try reflexivity; intros; lia.
Qed.

Context {T : Type}.
Implicit Types sc : scope T mem.

Lemma owned_same_counts sc hs' :
  (forall a u, tally (holds a u) hs' = tally (holds a u) (objects sc)) ->
  owned_by_handles sc -> owned_by_handles (Scope hs' (wrappers sc)).
Proof.
  intros Hc Ho a. specialize (Ho a). unfold unique_owners, shared_owners in *.
  cbn [objects wrappers]. rewrite !Hc. exact Ho.
Qed.

Lemma owned_at sc a0 w m' hs' :
  owned_by_handles sc -> wrappers sc !! a0 = Some w ->
  (forall a u, a <> a0 -> tally (holds a u) hs' = tally (holds a u) (objects sc)) ->
  m' = Mem (unique_owners a0 hs') (WRITING * unique_owners a0 hs' + shared_owners a0 hs') ->
  unique_owners a0 hs' <= 1 ->
  (unique_owners a0 hs' = 1 -> shared_owners a0 hs' = 0) ->
  shared_owners a0 hs' < uint32_modulus ->
  owned_by_handles (Scope hs' (<[a0 := Wrapper m' (obj_ w)]> (wrappers sc))).
Proof.
  intros Ho Hw Hc Hm HU HUS HS a. cbn [objects wrappers].
  destruct (decide (a = a0)) as [->|Hne].
  - rewrite lookup_insert_eq. done.
  - rewrite lookup_insert_ne by done. specialize (Ho a).
    unfold unique_owners, shared_owners in *. rewrite !Hc by done. exact Ho.
Qed.

(** What the invariant says of one wrapper. *)
Lemma owned_lookup sc a w :
  owned_by_handles sc -> wrappers sc !! a = Some w ->
  let U := unique_owners a (objects sc) in
  let S := shared_owners a (objects sc) in
  mutex_ w = Mem U (WRITING * U + S)
  /\ 0 <= U <= 1 /\ (U = 1 -> S = 0) /\ 0 <= S < uint32_modulus
  /\ S <= Z.of_nat (length (objects sc)).
Proof.
  intros Ho Hw. specialize (Ho a). rewrite Hw in Ho. destruct Ho as (Hm & HU & HUS & HS).
  pose proof (tally_bounds (holds a true) (objects sc) (holds_bounds a true)).
  pose proof (tally_bounds (holds a false) (objects sc) (holds_bounds a false)).
  unfold unique_owners, shared_owners in *. cbv zeta. repeat split; try done; lia.
Qed.

Lemma swap_spec i j sc sc' :
  swap i j sc = Some sc' ->
  wrappers sc' = wrappers sc
  /\ length (objects sc') = length (objects sc)
  /\ (forall a u, tally (holds a u) (objects sc') = tally (holds a u) (objects sc)).
Proof.
  unfold swap. intros Hsw.
  destruct (objects sc !! i) as [hi|] eqn:Hi; [|discriminate].
  destruct (objects sc !! j) as [hj|] eqn:Hj; [|discriminate].
  cbn in Hsw. case_decide as Hmode; [|discriminate]. injection Hsw as <-.
  cbn [objects wrappers]. split; [reflexivity|]. split.
  - rewrite !length_insert. reflexivity.
  - intros a u. destruct (decide (i = j)) as [->|Hne].
    + rewrite list_insert_insert_eq. rewrite (tally_insert _ _ _ _ _ Hj).
      rewrite Hi in Hj. injection Hj as ->.
      rewrite (holds_mode a u hj) by done. lia.
    + erewrite tally_insert; [|rewrite list_lookup_insert_ne by done; exact Hj].
      rewrite (tally_insert _ _ _ _ _ Hi).
      rewrite (holds_mode a u hj (mode hi)) by (by rewrite ?Hmode).
      rewrite (holds_mode a u hi (mode hj)) by (by rewrite ?Hmode). lia.
Qed.

Lemma swap_kept i j sc sc' :
  owned_by_handles sc -> swap i j sc = Some sc' -> kept sc sc'.
Proof.
  intros Ho Hsw. destruct (swap_spec _ _ _ _ Hsw) as (Hw & _ & Hc).
  destruct sc' as [hs' h']. cbn in Hw, Hc. subst h'.
  split; [by apply owned_same_counts|done].
Qed.

Lemma construct_null_kept k sc :
  owned_by_handles sc -> kept sc (construct_null k sc).
Proof.
  intros Ho. split; [|done]. apply owned_same_counts; [|done].
  intros a u. rewrite tally_snoc, holds_null. lia.
Qed.

Lemma convert_construct_kept o sc sc' :
  owned_by_handles sc -> convert_construct o sc = Some sc' -> kept sc sc'.
Proof.
  unfold convert_construct. intros Ho Hcc.
  destruct (objects sc !! o) as [ho|] eqn:Hlook; [|discriminate]. cbn in Hcc.
  destruct (mode ho) eqn:Hmode; try discriminate. injection Hcc as <-.
  split; [|done]. apply owned_same_counts; [|done].
  intros a u. rewrite tally_snoc, (tally_insert _ _ _ _ _ Hlook), holds_null.
  rewrite (holds_mode a u ho) by (by rewrite ?Hmode). lia.
Qed.

Lemma destroy_at_kept i sc sc' :
  owned_by_handles sc -> destroy_at i sc = Some sc' -> kept sc sc'.
Proof.
  unfold destroy_at. intros Ho Hd.
  destruct (objects sc !! i) as [[k [a0|]]|] eqn:Hi; [| |discriminate];
    injection Hd as <-; unfold destroy; cbn [lock_wrapper_ mode target].
  - pose proof (tally_lookup_le (holds a0 (is_unique k)) _ _ _
                  (fun y => proj1 (holds_bounds _ _ y)) Hi) as Hheld.
    rewrite holds_target, decide_True in Hheld by done.
    destruct (wrappers sc !! a0) as [w|] eqn:Hw.
    2:{ specialize (Ho a0). rewrite Hw in Ho. unfold unique_owners, shared_owners in Ho.
        destruct k; cbn in Hheld; lia. }
    destruct (owned_lookup _ _ _ Ho Hw) as (Hm & HU & HUS & HS & _).
    rewrite (alter_present _ _ _ _ Hw). unfold with_mutex. split.
    + destruct (mutex_members _ _ HU HUS HS) as (_ & _ & _ & _ & Hun & Huns).
      rewrite <- Hm in Hun, Huns.
      assert (forall u, tally (holds a0 u) (delete i (objects sc))
                        = tally (holds a0 u) (objects sc)
                          - (if decide (is_unique k = u) then 1 else 0)) as Hc0.
      { intros u. rewrite (tally_delete _ _ _ _ Hi), holds_target.
        repeat case_decide; try lia; exfalso; intuition congruence. }
      pose proof (Hc0 true) as Hct. pose proof (Hc0 false) as Hcf.
      apply owned_at; try done;
        unfold unique_owners, shared_owners, lock_helper_unlock in *.
      * intros a u Hne. rewrite (tally_delete _ _ _ _ Hi), holds_target.
        rewrite decide_False by (intros [? _]; done). lia.
      * rewrite Hct, Hcf. clear Hc0 Hct Hcf.
        destruct k; cbn [is_unique] in *; repeat case_decide; try congruence;
          [rewrite Hun by lia|rewrite Hun by lia|rewrite Huns by lia];
          f_equal; wrap_lia.
      * rewrite Hct. clear Hc0 Hct Hcf. case_decide; lia.
      * rewrite Hct, Hcf. clear Hc0 Hct Hcf.
        destruct k; cbn [is_unique] in *; repeat case_decide; try congruence; lia.
      * rewrite Hcf. clear Hc0 Hct Hcf. case_decide; lia.
    + intros a. cbn [wrappers]. destruct (decide (a = a0)) as [->|Hne].
      * rewrite lookup_insert_eq, Hw. reflexivity.
      * rewrite lookup_insert_ne by done. reflexivity.
  - split; [|done]. apply owned_same_counts; [|done].
    intros a u. rewrite (tally_delete _ _ _ _ Hi), holds_null. lia.
Qed.

(** A handle that a wrapper hands out or a copy adds: the lock has been
    acquired in its mode. *)
Lemma grant_kept k this w sc :
  owned_by_handles sc -> wrappers sc !! this = Some w ->
  (if is_unique k
   then unique_owners this (objects sc) = 0 /\ shared_owners this (objects sc) = 0
   else unique_owners this (objects sc) = 0) ->
  Z.of_nat (length (objects sc)) + 1 < uint32_modulus ->
  let m' := if is_unique k then Mem 1 WRITING
            else Mem 0 (wrap (shared_owners this (objects sc) + 1)) in
  kept sc (Scope (objects sc ++ [Handle k (Some this)])
                 (<[this := Wrapper m' (obj_ w)]> (wrappers sc))).
Proof.
  intros Ho Hw Hfree Hlen m'.
  destruct (owned_lookup _ _ _ Ho Hw) as (Hm & HU & HUS & HS & Hle).
  cbv zeta in *.
  assert (forall u, tally (holds this u) (objects sc ++ [Handle k (Some this)])
                    = tally (holds this u) (objects sc)
                      + (if decide (is_unique k = u) then 1 else 0)) as Hc0.
  { intros u. rewrite tally_snoc, holds_target.
    repeat case_decide; try lia; exfalso; intuition congruence. }
  pose proof (Hc0 true) as Hct. pose proof (Hc0 false) as Hcf. clear Hc0.
  split.
  - apply owned_at; try done; unfold unique_owners, shared_owners in *.
    + intros a u Hne. rewrite tally_snoc, holds_target.
      rewrite decide_False by (intros [? _]; done). lia.
    + rewrite Hct, Hcf. clear Hct Hcf. subst m'.
      destruct k; cbn [is_unique] in *; repeat case_decide; try congruence;
        f_equal; wrap_lia.
    + rewrite Hct. clear Hct Hcf. destruct k; cbn [is_unique] in *;
        repeat case_decide; try congruence; lia.
    + rewrite Hct, Hcf. clear Hct Hcf. destruct k; cbn [is_unique] in *;
        repeat case_decide; try congruence; lia.
    + rewrite Hcf. clear Hct Hcf. case_decide; lia.
  - intros a. cbn [wrappers]. destruct (decide (a = this)) as [->|Hne].
    + rewrite lookup_insert_eq, Hw. reflexivity.
    + rewrite lookup_insert_ne by done. reflexivity.
Qed.

(** A refused [try_lock]: a null handle, and the lock as it was. *)
Lemma refusal_kept k this w sc :
  owned_by_handles sc -> wrappers sc !! this = Some w ->
  kept sc (Scope (objects sc ++ [Handle k None])
                 (<[this := Wrapper (mutex_ w) (obj_ w)]> (wrappers sc))).
Proof.
  intros Ho Hw.
  replace (<[this := Wrapper (mutex_ w) (obj_ w)]> (wrappers sc)) with (wrappers sc).
  - apply (construct_null_kept k sc Ho).
  - symmetry. apply insert_id. rewrite Hw. by destruct w.
Qed.

Lemma acquire_kept k this sc sc' :
  owned_by_handles sc -> acquire k this sc = Some sc' ->
  Z.of_nat (length (objects sc')) < uint32_modulus -> kept sc sc'.
Proof.
  unfold acquire, lock_. intros Ho Hacq Hlen.
  destruct (wrappers sc !! this) as [w|] eqn:Hw; [|discriminate]. cbn in Hacq.
  destruct (owned_lookup _ _ _ Ho Hw) as (Hm & HU & HUS & HS & Hle).
  destruct (mutex_members _ _ HU HUS HS) as (Hl & _ & Hls & _). cbv zeta in *.
  rewrite <- Hm in Hl, Hls. unfold lock_helper_lock in Hacq.
  destruct k;
    [rewrite Hl in Hacq|rewrite Hl in Hacq|rewrite Hls in Hacq];
    match type of Hacq with
    | context [if ?c then _ else _] => destruct c eqn:Hc; [|discriminate]
    end;
    cbn in Hacq; injection Hacq as <-; cbn [objects] in Hlen;
    rewrite length_app in Hlen; cbn [length] in Hlen;
    match goal with
    | |- context [Handle ?k (Some _)] =>
        apply (grant_kept k this w sc Ho Hw); [cbn [is_unique]; lia|lia]
    end.
Qed.

Lemma try_acquire_kept k this sc sc' :
  owned_by_handles sc -> try_acquire k this sc = Some sc' ->
  Z.of_nat (length (objects sc')) < uint32_modulus -> kept sc sc'.
Proof.
  unfold try_acquire, try_lock_. intros Ho Hacq Hlen.
  destruct (wrappers sc !! this) as [w|] eqn:Hw; [|discriminate]. cbn in Hacq.
  destruct (owned_lookup _ _ _ Ho Hw) as (Hm & HU & HUS & HS & Hle).
  destruct (mutex_members _ _ HU HUS HS) as (_ & Hl & _ & Hls & _). cbv zeta in *.
  rewrite <- Hm in Hl, Hls. unfold lock_helper_try_lock in Hacq.
  destruct k;
    [rewrite Hl in Hacq|rewrite Hl in Hacq|rewrite Hls in Hacq];
    match type of Hacq with
    | context [if ?c then _ else _] => destruct c eqn:Hc
    end;
    cbn in Hacq; injection Hacq as <-; cbn [objects] in Hlen;
    rewrite length_app in Hlen; cbn [length] in Hlen;
    match goal with
    | |- context [Handle ?k (Some _)] =>
        apply (grant_kept k this w sc Ho Hw); [cbn [is_unique]; lia|lia]
    | |- context [Handle ?k None] => apply (refusal_kept k this w sc Ho Hw)
    end.
Qed.

Lemma copy_construct_kept o sc sc' :
  owned_by_handles sc -> copy_construct o sc = Some sc' ->
  Z.of_nat (length (objects sc')) < uint32_modulus -> kept sc sc'.
Proof.
  unfold copy_construct. intros Ho Hcc Hlen.
  destruct (objects sc !! o) as [[k t]|] eqn:Hlook; [|discriminate].
  cbn -[mutex_lock_shared] in Hcc.
  destruct k; try discriminate. destruct t as [a|].
  2:{ injection Hcc as <-. by apply (construct_null_kept shared_const). }
  destruct (wrappers sc !! a) as [w|] eqn:Hw; [|discriminate].
  cbn -[mutex_lock_shared] in Hcc.
  destruct (owned_lookup _ _ _ Ho Hw) as (Hm & HU & HUS & HS & Hle).
  destruct (mutex_members _ _ HU HUS HS) as (_ & _ & Hls & _). cbv zeta in *.
  rewrite <- Hm in Hls. rewrite Hls in Hcc.
  destruct (Z.eqb_spec (unique_owners a (objects sc)) 0) as [Hz|]; [|discriminate].
  cbn in Hcc. injection Hcc as <-. cbn [objects] in Hlen.
  rewrite length_app in Hlen. cbn [length] in Hlen.
  apply (grant_kept shared_const a w sc Ho Hw); [exact Hz|lia].
Qed.

Lemma kept_trans sc sc1 sc2 :
  kept sc sc1 -> (owned_by_handles sc1 -> kept sc1 sc2) -> kept sc sc2.
Proof.
  intros [Ho1 Hk1] H2. destruct (H2 Ho1) as [Ho2 Hk2].
  split; [exact Ho2|]. intros a. rewrite Hk2. apply Hk1.
Qed.

Lemma move_construct_kept o sc sc' :
  owned_by_handles sc -> move_construct o sc = Some sc' -> kept sc sc'.
Proof.
  unfold move_construct. intros Ho Hmc.
  destruct (objects sc !! o) as [ho|]; [|discriminate]. cbn in Hmc.
  apply (kept_trans sc (construct_null (mode ho) sc));
    [by apply construct_null_kept|].
  intros Ho1. by eapply swap_kept.
Qed.

Lemma reset_kept i sc sc' :
  owned_by_handles sc -> reset i sc = Some sc' -> kept sc sc'.
Proof.
  unfold reset. intros Ho Hr.
  destruct (objects sc !! i) as [hi|]; [|discriminate]. cbn in Hr.
  destruct (swap _ _ _) as [sc1|] eqn:Hsw; [|discriminate]. cbn in Hr.
  apply (kept_trans sc (construct_null (mode hi) sc));
    [by apply construct_null_kept|].
  intros Ho1. apply (kept_trans _ sc1); [by eapply swap_kept|].
  intros Ho2. by eapply destroy_at_kept.
Qed.

Lemma move_assign_kept i o sc sc' :
  owned_by_handles sc -> move_assign i o sc = Some sc' -> kept sc sc'.
Proof.
  unfold move_assign. intros Ho Hma.
  destruct (objects sc !! i) as [hi|]; [|discriminate]. cbn in Hma.
  destruct (move_construct o sc) as [sc1|] eqn:Hmc; [|discriminate]. cbn in Hma.
  destruct (swap _ _ sc1) as [sc2|] eqn:Hsw; [|discriminate]. cbn in Hma.
  apply (kept_trans sc sc1); [by eapply move_construct_kept|].
  intros Ho1. apply (kept_trans _ sc2); [by eapply swap_kept|].
  intros Ho2. by eapply destroy_at_kept.
Qed.

Lemma convert_assign_kept i o sc sc' :
  owned_by_handles sc -> convert_assign i o sc = Some sc' -> kept sc sc'.
Proof.
  unfold convert_assign. intros Ho Hca.
  destruct (convert_construct o sc) as [sc1|] eqn:Hcc; [|discriminate]. cbn in Hca.
  destruct (move_assign _ _ sc1) as [sc2|] eqn:Hma; [|discriminate]. cbn in Hca.
  apply (kept_trans sc sc1); [by eapply convert_construct_kept|].
  intros Ho1. apply (kept_trans _ sc2); [by eapply move_assign_kept|].
  intros Ho2. by eapply destroy_at_kept.
Qed.

Lemma execute_kept s sc sc' :
  owned_by_handles sc -> execute s sc = Some sc' ->
  Z.of_nat (length (objects sc')) < uint32_modulus -> kept sc sc'.
Proof.
  intros Ho Hex Hlen. destruct s; cbn [execute] in Hex.
  - by eapply acquire_kept.
  - by eapply try_acquire_kept.
  - by eapply copy_construct_kept.
  - by eapply move_construct_kept.
  - by eapply convert_construct_kept.
  - by eapply move_assign_kept.
  - by eapply convert_assign_kept.
  - by eapply reset_kept.
  - by eapply swap_kept.
  - by eapply destroy_at_kept.
Qed.

(** X21.  Construction, copy, move, conversion, assignment, [reset],
    [swap] and destruction of handles keep every
    [slontia::shared_mutex] what its handles make it, as long as fewer
    than [2^32] handles are alive: [writing_num_] is the number of
    exclusive handles of the wrapper, at most one, [holding_num_] is
    [WRITING] times that number plus the number of its shared handles, and
    no shared handle lives next to an exclusive one.  The wrapped objects
    stay where they are. *)
Theorem handles_own_their_locks (limit : Z) (ss : list statement) (sc sc' : scope T mem) :
  limit <= uint32_modulus ->
  owned_by_handles sc ->
  execute_all limit ss sc = Some sc' ->
  owned_by_handles sc'
  /\ (forall a, obj_ <$> wrappers sc' !! a = obj_ <$> wrappers sc !! a).
Proof.
  intros Hlimit. revert sc. induction ss as [|s ss IH]; intros sc Ho Hall.
  - injection Hall as <-. done.
  - change (kept sc sc'). cbn [execute_all] in Hall.
    destruct (execute s sc) as [sc1|] eqn:Hex; [|discriminate]. cbn in Hall.
    destruct (Z.ltb_spec (Z.of_nat (length (objects sc1))) limit) as [Hlen|];
      [|discriminate].
    apply (kept_trans sc sc1); [eapply execute_kept; [done..|lia]|].
    intros Ho1. by apply IH.
Qed.

Lemma no_handles_owned (h : heap T mem) :
  (forall a w, h !! a = Some w -> mutex_ w = Mem 0 0) ->
  owned_by_handles (Scope [] h).
Proof.
  intros Hfree a. cbn [objects wrappers].
  destruct (h !! a) as [w|] eqn:Hw; [|done].
  rewrite (Hfree a w Hw). repeat split; done.
Qed.

Lemma release_granted k this w m' (h : heap T mem) :
  h !! this = Some w -> lock_helper_unlock k m' = mutex_ w ->
  destroy (LockedPtr (k_type := k) (Some this)) (<[this := Wrapper m' (obj_ w)]> h) = h.
Proof.
  intros Hw Hun. unfold destroy. cbn [lock_wrapper_].
  rewrite (alter_present _ this (Wrapper m' (obj_ w))) by apply lookup_insert_eq.
  rewrite insert_insert_eq. unfold with_mutex. cbn [mutex_ obj_]. rewrite Hun.
  apply insert_id. rewrite Hw. by destruct w.
Qed.

(** X22.  A handle gives back what it took: on locks that are what their
    handles make them, the handle that [lock], [lock_const],
    [lock_shared] or one of the three [try_lock] members returns, destroyed
    at once, leaves every lock and every handle as before the call. *)
Theorem handle_gives_back_what_it_took (k : lock_type) (this : positive) sc sc1 :
  owned_by_handles sc ->
  Z.of_nat (length (objects sc)) + 1 < uint32_modulus ->
  acquire k this sc = Some sc1 \/ try_acquire k this sc = Some sc1 ->
  destroy_at (length (objects sc)) sc1 = Some sc.
Proof.
  intros Ho Hlen Hacq.
  assert (exists w t m',
             wrappers sc !! this = Some w
             /\ sc1 = Scope (objects sc ++ [Handle k t])
                            (<[this := Wrapper m' (obj_ w)]> (wrappers sc))
             /\ (t = None /\ m' = mutex_ w
                 \/ t = Some this /\ lock_helper_unlock k m' = mutex_ w))
    as (w & t & m' & Hw & -> & Hcase).
  { unfold acquire, try_acquire, lock_, try_lock_ in Hacq.
    destruct (wrappers sc !! this) as [w|] eqn:Hw; [|by destruct Hacq].
    destruct (owned_lookup _ _ _ Ho Hw) as (Hm & HU & HUS & HS & Hle).
    destruct (mutex_members _ _ HU HUS HS) as (Hl & Htl & Hls & Htls & _).
    cbv zeta in *. rewrite <- Hm in Hl, Htl, Hls, Htls. exists w.
    assert (mutex_unlock (Mem 1 WRITING) = Mem 0 0) as Hun by reflexivity.
    assert (mutex_unlock_shared (Mem 0 (wrap (shared_owners this (objects sc) + 1)))
            = Mem 0 (shared_owners this (objects sc))) as Huns.
    { destruct (mutex_members 0 (shared_owners this (objects sc) + 1))
        as (_ & _ & _ & _ & _ & Hgo); [lia..|].
      cbv zeta in Hgo.
      replace (wrap (shared_owners this (objects sc) + 1))
        with (WRITING * 0 + (shared_owners this (objects sc) + 1)) by wrap_lia.
      rewrite Hgo by lia. f_equal. lia. }
    unfold lock_helper_lock, lock_helper_try_lock, lock_helper_unlock in *.
    cbn [mbind option_bind] in Hacq.
    destruct k; rewrite ?Hl, ?Htl, ?Hls, ?Htls in Hacq;
      repeat match type of Hacq with
        | context [?a =? ?b] => destruct (Z.eqb_spec a b)
        end;
      cbn [andb mbind option_bind lock_wrapper_] in Hacq;
      destruct Hacq as [Hacq|Hacq]; try discriminate; injection Hacq as <-;
      eexists _, _; (split; [reflexivity|]); (split; [reflexivity|]);
      try (left; split; reflexivity);
      right; (split; [reflexivity|]); rewrite Hm, ?Hun, ?Huns; f_equal; wrap_lia. }
  rewrite destroy_temporary by reflexivity. cbn [mode target].
  destruct sc as [hs h]. cbn [objects wrappers] in *. do 2 f_equal.
  destruct Hcase as [[-> ->]|[-> Hun]].
  - unfold destroy. cbn. apply insert_id. rewrite Hw. by destruct w.
  - by apply release_granted.
Qed.
(** X23.  While an exclusive handle of a wrapper is alive, and for the
    exclusive modes while a shared one is, [lock], [lock_const] and
    [lock_shared] of the wrapper do not return and the [try_lock] members
    return a null handle and leave the lock as it is.  Otherwise the call
    returns a handle that points at the wrapper, and [try_lock] does what
    [lock] does. *)
Theorem handles_exclude (k : lock_type) (this : positive) sc w :
  owned_by_handles sc -> wrappers sc !! this = Some w ->
  let refused := Some (Scope (objects sc ++ [Handle k None]) (wrappers sc)) in
  let U := unique_owners this (objects sc) in
  let S := shared_owners this (objects sc) in
  (0 < U \/ 0 < S /\ is_unique k = true ->
   acquire k this sc = None /\ try_acquire k this sc = refused)
  /\ (U = 0 /\ (S = 0 \/ is_unique k = false) ->
      exists m',
        acquire k this sc
        = Some (Scope (objects sc ++ [Handle k (Some this)])
                      (<[this := Wrapper m' (obj_ w)]> (wrappers sc)))
        /\ try_acquire k this sc = acquire k this sc).
Proof.
  intros Ho Hw. cbv zeta.
  destruct (owned_lookup _ _ _ Ho Hw) as (Hm & HU & HUS & HS & Hle).
  destruct (mutex_members _ _ HU HUS HS) as (Hl & Htl & Hls & Htls & _).
  cbv zeta in *. rewrite <- Hm in Hl, Htl, Hls, Htls.
  assert (<[this := Wrapper (mutex_ w) (obj_ w)]> (wrappers sc) = wrappers sc) as Hid.
  { apply insert_id. rewrite Hw. by destruct w. }
  unfold acquire, try_acquire, lock_, try_lock_. rewrite Hw. cbn [mbind option_bind].
  unfold lock_helper_lock, lock_helper_try_lock.
  split.
  - intros Hheld.
    destruct k; cbn [is_unique] in Hheld; rewrite ?Hl, ?Htl, ?Hls, ?Htls;
      repeat match goal with
        | |- context [?a =? ?b] => destruct (Z.eqb_spec a b)
        end;
      cbn [andb mbind option_bind lock_wrapper_]; rewrite ?Hid;
      try (split; reflexivity); exfalso; intuition (try discriminate; lia).
  - intros Hfree.
    destruct k; cbn [is_unique] in Hfree; rewrite ?Hl, ?Htl, ?Hls, ?Htls;
      repeat match goal with
        | |- context [?a =? ?b] => destruct (Z.eqb_spec a b)
        end;
      cbn [andb mbind option_bind lock_wrapper_];
      try (eexists; split; reflexivity); exfalso; intuition (try discriminate; lia).
Qed.
End HandleFacts.

Section HandleWitnesses.
Import lock_wrapper locked_ptr.

Lemma reset_releases_witness :
  let sc : scope nat mem :=
    Scope [Handle unique_mutable (Some 1%positive)]
          {[ 1%positive := Wrapper (Mem 1 WRITING) 7%nat ]} in
  reset 0 sc
  = Some (Scope [Handle unique_mutable None]
                {[ 1%positive := Wrapper (Mem 0 0) 7%nat ]}).
Proof.
  intros sc.
  destruct (reset_releases 0 sc (Handle unique_mutable (Some 1%positive)) eq_refl)
    as (Hreset & _).
  rewrite Hreset. vm_compute. reflexivity.
Defined.

Lemma move_assign_takes_over_witness :
  let sc : scope nat mem :=
    Scope [Handle shared_const None; Handle shared_const (Some 1%positive)]
          {[ 1%positive := Wrapper (Mem 0 1) 7%nat ]} in
  move_assign 0 1 sc
  = Some (Scope [Handle shared_const (Some 1%positive); Handle shared_const None]
                {[ 1%positive := Wrapper (Mem 0 1) 7%nat ]}).
Proof.
  intros sc.
  destruct (move_assign_takes_over 0 1 sc (Handle shared_const None)
              (Handle shared_const (Some 1%positive)) eq_refl eq_refl eq_refl)
    as (Hmove & _).
  rewrite Hmove. vm_compute. reflexivity.
Defined.

Lemma convert_assign_takes_over_witness :
  let sc : scope nat mem :=
    Scope [Handle unique_const None; Handle unique_mutable (Some 1%positive)]
          {[ 1%positive := Wrapper (Mem 1 WRITING) 7%nat ]} in
  convert_assign 0 1 sc
  = Some (Scope [Handle unique_const (Some 1%positive); Handle unique_mutable None]
                {[ 1%positive := Wrapper (Mem 1 WRITING) 7%nat ]}).
Proof.
  intros sc.
  rewrite (convert_assign_takes_over 0 1 sc (Handle unique_const None)
             (Handle unique_mutable (Some 1%positive)) eq_refl eq_refl eq_refl eq_refl).
  vm_compute. reflexivity.
Defined.

Lemma fresh_wrapper_owned :
  owned_by_handles (Scope (T := nat) [] {[ 1%positive := Wrapper (Mem 0 0) 7%nat ]}).
Proof.
  apply no_handles_owned. intros a w Hw.
  apply lookup_singleton_Some in Hw as [_ <-]. reflexivity.
Qed.

Lemma handles_own_their_locks_witness :
  let sc : scope nat mem := Scope [] {[ 1%positive := Wrapper (Mem 0 0) 7%nat ]} in
  let ss := [Acquire shared_const 1%positive; CopyConstruct 0;
             TryAcquire unique_mutable 1%positive; MoveAssign 0 1; EndOfLife 0] in
  let sc' : scope nat mem :=
    Scope [Handle shared_const None; Handle unique_mutable None]
          {[ 1%positive := Wrapper (Mem 0 0) 7%nat ]} in
  execute_all 8 ss sc = Some sc' /\ owned_by_handles sc'.
Proof.
  intros sc ss sc'.
  assert (execute_all 8 ss sc = Some sc') as Hrun by (vm_compute; reflexivity).
  split; [exact Hrun|].
  apply (handles_own_their_locks 8 ss sc sc');
    [unfold uint32_modulus; lia|exact fresh_wrapper_owned|exact Hrun].
Defined.

Lemma handle_gives_back_what_it_took_witness :
  let sc : scope nat mem := Scope [] {[ 1%positive := Wrapper (Mem 0 0) 7%nat ]} in
  let sc1 : scope nat mem :=
    Scope [Handle shared_const (Some 1%positive)]
          {[ 1%positive := Wrapper (Mem 0 1) 7%nat ]} in
  acquire shared_const 1%positive sc = Some sc1 /\ destroy_at 0 sc1 = Some sc.
Proof.
  intros sc sc1.
  assert (acquire shared_const 1%positive sc = Some sc1) as Hacq
    by (vm_compute; reflexivity).
  split; [exact Hacq|].
  apply (handle_gives_back_what_it_took shared_const 1%positive sc sc1);
    [exact fresh_wrapper_owned|unfold uint32_modulus; cbn; lia|left; exact Hacq].
Defined.

Lemma handles_exclude_witness :
  let sc : scope nat mem :=
    Scope [Handle unique_mutable (Some 1%positive)]
          {[ 1%positive := Wrapper (Mem 1 WRITING) 7%nat ]} in
  acquire shared_const 1%positive sc = None
  /\ try_acquire shared_const 1%positive sc
     = Some (Scope (objects sc ++ [Handle shared_const None]) (wrappers sc)).
Proof.
  intros sc.
  assert (acquire unique_mutable 1%positive
            (Scope (T := nat) [] {[ 1%positive := Wrapper (Mem 0 0) 7%nat ]})
          = Some sc) as Hacq by (vm_compute; reflexivity).
  assert (owned_by_handles sc) as Ho.
  { apply (acquire_kept _ _ _ _ fresh_wrapper_owned Hacq).
    unfold uint32_modulus. cbn. lia. }
  apply (handles_exclude shared_const 1%positive sc (Wrapper (Mem 1 WRITING) 7%nat) Ho);
    [reflexivity|left; vm_compute; reflexivity].
Defined.

End HandleWitnesses.
